(** * awraris: playback orchestration, playlist continuation and playlist store

    A shallow embedding of the parts of the awraris command-line player that
    drive sequential playback:

    - [Js]           the few JavaScript primitives the code relies on
                     (truthiness of optional strings, [Array.prototype.find],
                     [findIndex], [splice], [Number.prototype.toString(36)]);
    - [Playlists]    src/utils/playlists.ts, the persisted playlist store;
    - [Runtime]      completions of asynchronous calls, observable effects and
                     the state/writer/exception monad the async functions run in;
    - [Ytdlp]        detectAudioPlayer (utils/ytdlp.ts);
    - [Play]         playAndAwait and the continuation part of
                     handleYouTubeStream (commands/play.ts, in src/utils/index.ts);
    - [PlaylistCmd]  the "play" action of handlePlaylistCommand
                     (commands/playlist.ts);
    - [Samples]      a small host and a few playlists to run the code on.

    The operating system, the network and the clock are not part of the
    program: they appear as oracles over an abstract world [W] that every
    asynchronous call threads through. *)

From Stdlib Require Import NArith ZArith String Ascii List Bool Arith Lia.
From Stdlib Require QArith Lqa.
Import ListNotations.

Local Open Scope string_scope.
Local Open Scope list_scope.

(* ================================================================== *)
(** ** JavaScript primitives *)

Module Js.

(** [!!s] for a value of type [string | undefined]: the empty string and
    [undefined] are falsy. *)
Definition truthy (o : option string) : bool :=
  match o with
  | Some s => negb (s =? EmptyString)
  | None => false
  end.

(** [a === b] where [a : string | undefined] and [b : string]. *)
Definition strictEq (a : option string) (b : string) : bool :=
  match a with
  | Some s => s =? b
  | None => false
  end.

(** [arr.findIndex(f)]; [None] stands for [-1]. *)
Fixpoint findIndex {A : Type} (f : A -> bool) (l : list A) : option nat :=
  match l with
  | [] => None
  | x :: t => if f x then Some 0 else option_map S (findIndex f t)
  end.

(** [arr.some(f)] *)
Definition some {A : Type} (f : A -> bool) (l : list A) : bool := existsb f l.

(** [arr[i] = g(arr[i])] for an index inside the array. *)
Fixpoint updateAt {A : Type} (i : nat) (g : A -> A) (l : list A) : list A :=
  match l, i with
  | [], _ => []
  | x :: t, 0 => g x :: t
  | x :: t, S j => x :: updateAt j g t
  end.

(** [arr.splice(i, 1)] for an index inside the array. *)
Fixpoint splice1 {A : Type} (i : nat) (l : list A) : list A :=
  match l, i with
  | [] , _ => []
  | _ :: t, 0 => t
  | x :: t, S j => x :: splice1 j t
  end.

(** *** [Number.prototype.toString(36)] on integers *)

(** Digit [d < 36] as a character of "0123456789abcdefghijklmnopqrstuvwxyz". *)
Definition digitChar (d : N) : ascii :=
  ascii_of_N (if (d <? 10)%N then 48 + d else 87 + d).

(** Base-36 digits of [n], least significant first; [fuel] bounds the number
    of digits. *)
Fixpoint digits36 (fuel : nat) (n : N) : list N :=
  match fuel with
  | 0 => []
  | S fuel' =>
      if (n =? 0)%N then []
      else (n mod 36)%N :: digits36 fuel' (n / 36)%N
  end.

Definition render36 (n : N) : string :=
  if (n =? 0)%N then "0"
  else string_of_list_ascii
         (rev (map digitChar (digits36 (N.to_nat (N.size n)) n))).

Definition toString36 (z : Z) : string :=
  if (z <? 0)%Z then String "-"%char (render36 (Z.abs_N z))
  else render36 (Z.abs_N z).

(** Reading a base-36 numeral back (used to show that rendering loses
    nothing). *)
Definition charDigit (c : ascii) : N :=
  let k := N_of_ascii c in
  if (k <? 58)%N then k - 48 else k - 87.

Fixpoint valueOf (ds : list N) : N :=
  match ds with
  | [] => 0
  | d :: t => d + 36 * valueOf t
  end.

Definition parse36 (s : string) : N :=
  valueOf (map charDigit (rev (list_ascii_of_string s))).

End Js.

(* ================================================================== *)
(** ** Completions of (asynchronous) calls *)

(** How a call ends: it returns a value, it throws (an async function
    rejects), or the promise it awaits never settles. *)
Inductive completion (A : Type) : Type :=
| Normal (a : A)
| Throw (msg : string)
| Pending.
Arguments Normal {A} a.
Arguments Throw {A} msg.
Arguments Pending {A}.

(* ================================================================== *)
(** ** src/utils/playlists.ts *)

Module Playlists.

Record StoredTrack := mkTrack {
  t_id : option string;
  t_title : string;
  t_url : option string;
  t_addedAt : string
}.

Record Playlist := mkPlaylist {
  p_id : string;
  p_name : string;
  p_tracks : list StoredTrack;
  p_createdAt : string
}.

(** What [JSON.parse] can hand back for the playlists file (the cast
    [as Playlist[]] checks nothing): an array, [null], or a value that has
    no array methods (an object, a number, a string, a boolean).  The
    entries of an array are taken to be playlists, as the declared type
    says: an array holding anything else is outside this model, and what
    is proved of the store says which files it speaks of. *)
Inductive stored :=
| Lists (l : list Playlist)
| NotAnArray
| Null.

(** The playlists file: [Unreadable] when [fs.readFile] or [JSON.parse]
    throws (missing file, no permission, not JSON). *)
Inductive file :=
| Unreadable
| Holds (v : stored).

(** [loadPlaylists]: any exception of the read or of the parse is caught and
    yields the empty array. *)
Definition loadPlaylists (f : file) : stored :=
  match f with
  | Unreadable => Lists []
  | Holds v => v
  end.

(** [savePlaylists]: the whole collection is written. *)
Definition savePlaylists (playlists : list Playlist) : file :=
  Holds (Lists playlists).

(** The predicate [p.id === key || p.name === key] of the lookups. *)
Definition matches (key : string) (p : Playlist) : bool :=
  (p_id p =? key) || (p_name p =? key).

(** The message of the [TypeError] that Node throws for the call
    [receiver.method(...)] when [receiver] has no such method, and when it
    is [null]. *)
Definition notAFunction (receiver method : string) : string :=
  String.append receiver
    (String.append "." (String.append method " is not a function")).

Definition readingOfNull (method : string) : string :=
  String.append "Cannot read properties of null (reading '"
    (String.append method "')").

(** [receiver.method(...)] for an array method: the array it is called on,
    or the [TypeError]. *)
Definition arrayFor (receiver method : string) (v : stored)
    : completion (list Playlist) :=
  match v with
  | Lists l => Normal l
  | NotAnArray => Throw (notAFunction receiver method)
  | Null => Throw (readingOfNull method)
  end.

(** [lists.push(p)], the array method createPlaylist calls. *)
Definition asArray (v : stored) : completion (list Playlist) :=
  arrayFor "lists" "push" v.

(** [createPlaylist(name)]; [now] is the value of [Date.now()] and
    [createdAt] the value of [new Date().toISOString()]. *)
Definition createPlaylist (now : Z) (createdAt : string) (name : string)
    (f : file) : file * completion Playlist :=
  match asArray (loadPlaylists f) with
  | Normal lists =>
      let id := Js.toString36 now in
      let p := mkPlaylist id name [] createdAt in
      (savePlaylists (lists ++ [p]), Normal p)
  | Throw m => (f, Throw m)
  | Pending => (f, Pending)
  end.

Definition listPlaylists (f : file) : stored := loadPlaylists f.

Definition getPlaylist (idOrName : string) (f : file)
    : completion (option Playlist) :=
  match arrayFor "lists" "find" (loadPlaylists f) with
  | Normal lists => Normal (find (matches idOrName) lists)
  | Throw m => Throw m
  | Pending => Pending
  end.

(** [{ ...track, addedAt: new Date().toISOString() }] *)
Definition stamp (track : StoredTrack) (addedAt : string) : StoredTrack :=
  mkTrack (t_id track) (t_title track) (t_url track) addedAt.

Definition pushTrack (t : StoredTrack) (p : Playlist) : Playlist :=
  mkPlaylist (p_id p) (p_name p) (p_tracks p ++ [t]) (p_createdAt p).

Definition spliceTrack (i : nat) (p : Playlist) : Playlist :=
  mkPlaylist (p_id p) (p_name p) (Js.splice1 i (p_tracks p)) (p_createdAt p).

Definition addTrackToPlaylist (addedAt : string) (playlistIdOrName : string)
    (track : StoredTrack) (f : file) : file * completion Playlist :=
  match arrayFor "lists" "findIndex" (loadPlaylists f) with
  | Normal lists =>
      match Js.findIndex (matches playlistIdOrName) lists with
      | None => (f, Throw "Playlist not found")
      | Some idx =>
          match nth_error lists idx with
          | Some p =>
              let p' := pushTrack (stamp track addedAt) p in
              (savePlaylists (Js.updateAt idx (fun _ => p') lists), Normal p')
          | None => (f, Throw "TypeError: lists[idx] is undefined")
          end
      end
  | Throw m => (f, Throw m)
  | Pending => (f, Pending)
  end.

Definition removeTrackFromPlaylist (playlistIdOrName : string)
    (trackIndex : Z) (f : file) : file * completion unit :=
  match arrayFor "lists" "findIndex" (loadPlaylists f) with
  | Normal lists =>
      match Js.findIndex (matches playlistIdOrName) lists with
      | None => (f, Throw "Playlist not found")
      | Some idx =>
          match nth_error lists idx with
          | Some p =>
              if ((trackIndex <? 0)%Z
                  || (Z.of_nat (length (p_tracks p)) <=? trackIndex)%Z)%bool
              then (f, Throw "Track index out of range")
              else
                let p' := spliceTrack (Z.to_nat trackIndex) p in
                (savePlaylists (Js.updateAt idx (fun _ => p') lists), Normal tt)
          | None => (f, Throw "TypeError: lists[idx] is undefined")
          end
      end
  | Throw m => (f, Throw m)
  | Pending => (f, Pending)
  end.

Definition deletePlaylist (playlistIdOrName : string) (f : file)
    : file * completion unit :=
  match arrayFor "lists" "filter" (loadPlaylists f) with
  | Normal lists =>
      let remaining :=
        filter (fun p => negb (p_id p =? playlistIdOrName)
                         && negb (p_name p =? playlistIdOrName)) lists in
      (savePlaylists remaining, Normal tt)
  | Throw m => (f, Throw m)
  | Pending => (f, Pending)
  end.

End Playlists.

(* ================================================================== *)
(** ** Runtime: effects, the host and the monad of async functions *)

Module Runtime.

(** The [stdio] option of [child_process.spawn]. *)
Inductive stdio :=
| IgnoreAll          (* stdio: "ignore" *)
| PipeIgnorePipe.    (* stdio: ["pipe", "ignore", "pipe"] *)

(** Events a child process object emits; [code] is [null] when the process
    was ended by a signal. *)
Inductive childEvent :=
| OnError (msg : string)
| OnClose (code : option Z)
| OnExit (code : option Z).

(** Values of [os.platform()]. *)
Inductive platform :=
| Aix | Android | Darwin | FreeBSD | Haiku | Linux
| OpenBSD | SunOS | Win32 | Cygwin | NetBSD.

(** Lines written to the console, by template. *)
Inductive message :=
| NoAudioPlayerFound                              (* play.ts *)
| PlaybackFailed (err : string)
| PlaybackErrorMsg (err : string)
| ContinuingPlaylist (name : string)
| FailedToResolveSkipping (title err : string)
| NoPlayableUrl (title : string)
| PlaylistFinished
| NowPlaying (position total : nat) (title : string)  (* playlist.ts *)
| FailedToResolveStream (title err : string)
| NoAudioPlayerOnSystem
| PlaybackErrorFor (title err : string)
| PlaylistFinishedOrStopped
| StoppingPlayback.

Section Host.

Variable W : Type.       (* the world outside the program *)
Variable child : Type.   (* ChildProcess handles *)

(** What the program does to the outside, in order. *)
Inductive effect :=
| ConsoleLog (m : message)
| ConsoleError (m : message)
| DetectCalled                         (* entry of detectAudioPlayer() *)
| ResolverCalled (videoId : string)    (* entry of getYouTubeAudioStream(id) *)
| Spawn (command : string) (args : list string) (io : stdio)
| Kill (c : child) (signal : string).

(** The host the program runs on.
    - [spawn]: [child_process.spawn]; [inr msg] is a synchronous throw;
    - [events]: the events the child emits over its life, in order (none if
      it never ends);
    - [resolveStream]: the stream resolver behind [getYouTubeAudioStream];
    - [sigints]: how many SIGINT the event loop dispatched while the main
      flow was suspended in the await that led to this world;
    - [playlistsFile]: the state of the playlists file. *)
Record Host := mkHost {
  os_platform : W -> platform;
  spawn : W -> string -> list string -> stdio -> W * (child + string);
  events : W -> child -> W * list childEvent;
  resolveStream : W -> string -> W * completion string;
  sigints : W -> nat;
  playlistsFile : W -> Playlists.file
}.

(** Computations over a state [St] that log effects and may throw or hang. *)
Definition Mon (St A : Type) : Type := St -> St * list effect * completion A.

Definition ret {St A} (a : A) : Mon St A := fun s => (s, [], Normal a).

Definition bind {St A B} (m : Mon St A) (k : A -> Mon St B) : Mon St B :=
  fun s =>
    let '(s1, e1, r) := m s in
    match r with
    | Normal a => let '(s2, e2, r2) := k a s1 in (s2, e1 ++ e2, r2)
    | Throw msg => (s1, e1, Throw msg)
    | Pending => (s1, e1, Pending)
    end.

(** [try { m } catch (err) { h err.message }] *)
Definition tryCatch {St A} (m : Mon St A) (h : string -> Mon St A) : Mon St A :=
  fun s =>
    let '(s1, e1, r) := m s in
    match r with
    | Throw msg => let '(s2, e2, r2) := h msg s1 in (s2, e1 ++ e2, r2)
    | _ => (s1, e1, r)
    end.

(** [try { m } finally { fin }]: [fin] runs when [m] returns or throws, not
    while it is still suspended. *)
Definition finally {St A} (m : Mon St A) (fin : Mon St unit) : Mon St A :=
  fun s =>
    let '(s1, e1, r) := m s in
    match r with
    | Pending => (s1, e1, Pending)
    | _ =>
        let '(s2, e2, r2) := fin s1 in
        match r2 with
        | Normal _ => (s2, e1 ++ e2, r)
        | Throw msg => (s2, e1 ++ e2, Throw msg)
        | Pending => (s2, e1 ++ e2, Pending)
        end
    end.

Definition emit {St} (e : effect) : Mon St unit := fun s => (s, [e], Normal tt).

Definition M (A : Type) : Type := Mon W A.

(** Effects of a run, and a bound on how many of them satisfy [p] whatever
    the starting state. *)
Definition effectsOf {St A} (x : St * list effect * completion A) : list effect :=
  snd (fst x).

Definition atMost {St A} (p : effect -> bool) (n : nat) (m : Mon St A) : Prop :=
  forall s, length (filter p (effectsOf (m s))) <= n.

End Host.

Arguments ConsoleLog {child} m.
Arguments ConsoleError {child} m.
Arguments DetectCalled {child}.
Arguments ResolverCalled {child} videoId.
Arguments Spawn {child} command args io.
Arguments Kill {child} c signal.
Arguments ret {child St A} a.
Arguments bind {child St A B} m k.
Arguments tryCatch {child St A} m h.
Arguments finally {child St A} m fin.
Arguments emit {child St} e.
Arguments effectsOf {child St A} x.
Arguments atMost {child St A} p n m.
Arguments mkHost {W child} _ _ _ _ _ _.
Arguments os_platform {W child} h w.
Arguments spawn {W child} h w _ _ _.
Arguments events {W child} h w c.
Arguments resolveStream {W child} h w id.
Arguments sigints {W child} h w.
Arguments playlistsFile {W child} h w.

Declare Scope mon_scope.
Delimit Scope mon_scope with mon.
Notation "x <- m ;; k" := (bind m (fun x => k))
  (at level 61, m at next level, right associativity) : mon_scope.
Notation "m ;; k" := (bind m (fun _ => k))
  (at level 61, right associativity) : mon_scope.

End Runtime.

(* ================================================================== *)
(** ** utils/ytdlp.ts: detectAudioPlayer *)

Module Ytdlp.
Import Runtime.
Local Open Scope mon_scope.

Section WithHost.

Context {W child : Type} (H : Host W child).

(** The table [players]; a key the object does not have reads [undefined]. *)
Definition players (p : platform) : option (list string) :=
  match p with
  | Darwin => Some ["afplay"; "cvlc"; "mpv"]
  | Linux => Some ["cvlc"; "mpv"; "aplay"]
  | Win32 => Some ["cvlc"; "mpv"]
  | _ => None
  end.

(** [players[currentPlatform] || players.linux] *)
Definition availablePlayers (p : platform) : list string :=
  match players p with
  | Some l => l
  | None => ["cvlc"; "mpv"; "aplay"]
  end.

(** A promise settles once: later calls of [resolve] or [reject] are
    ignored. *)
Definition settle {A} (st : option (completion A)) (r : completion A)
    : option (completion A) :=
  match st with
  | None => Some r
  | Some _ => st
  end.

(** The listeners of the version check: ["close"] resolves on code 0 and
    rejects otherwise, ["error"] rejects; nothing listens to ["exit"]. *)
Definition probeListener (player : string)
    (st : option (completion string)) (e : childEvent)
    : option (completion string) :=
  match e with
  | OnClose code =>
      match code with
      | Some 0%Z => settle st (Normal player)
      | _ => settle st (Throw EmptyString)
      end
  | OnError msg => settle st (Throw msg)
  | OnExit _ => st
  end.

Definition awaited {A} (st : option (completion A)) : completion A :=
  match st with
  | Some r => r
  | None => Pending
  end.

(** [await new Promise((resolve, reject) => { const test = spawn(player,
    ["--version"], { stdio: "ignore" }); ... })] *)
Definition probe (player : string) : M W child string :=
  fun w =>
    let '(w1, r) := spawn H w player ["--version"] IgnoreAll in
    match r with
    | inr msg => (w1, [Spawn player ["--version"] IgnoreAll], Throw msg)
    | inl test =>
        let '(w2, evs) := events H w1 test in
        (w2, [Spawn player ["--version"] IgnoreAll],
         awaited (fold_left (probeListener player) evs None))
    end.

(** The version check as one effect. *)
Definition versionCheck (player : string) : effect child :=
  Spawn player ["--version"] IgnoreAll.

(** The version checks of [candidates], run one after the other from world
    [w], are all rejected and leave the world [w']. *)
Inductive rejectedInTurn : W -> list string -> W -> Prop :=
| rejected_none (w : W) : rejectedInTurn w [] w
| rejected_next (w w1 w2 : W) (player msg : string) (e : list (effect child))
    (rest : list string) :
    probe player w = (w1, e, Throw msg) ->
    rejectedInTurn w1 rest w2 ->
    rejectedInTurn w (player :: rest) w2.

(** The first event of a version check that one of its listeners reacts
    to. *)
Definition firstHeard (evs : list childEvent) : option childEvent :=
  find (fun e => match e with OnExit _ => false | _ => true end) evs.

(** The [for (const player of availablePlayers)] loop. *)
Fixpoint detectLoop (candidates : list string) : M W child (option string) :=
  match candidates with
  | [] => ret None
  | player :: rest =>
      tryCatch (_ <- probe player ;; ret (Some player))
               (fun _ => detectLoop rest)
  end.

Definition detectAudioPlayer : M W child (option string) :=
  emit DetectCalled ;;
  (fun w => detectLoop (availablePlayers (os_platform H w)) w).

(** [getYouTubeAudioStream(videoId)]: the stream resolver, an external
    collaborator. *)
Definition getYouTubeAudioStream (videoId : string) : M W child string :=
  fun w =>
    let '(w1, r) := resolveStream H w videoId in
    (w1, [ResolverCalled videoId], r).

End WithHost.
End Ytdlp.

(* ================================================================== *)
(** ** commands/play.ts: playAndAwait and playlist continuation *)

Module Play.
Import Runtime Playlists.
Local Open Scope mon_scope.

Section WithHost.

Context {W child : Type} (H : Host W child).

(** The branch of [playAndAwait] taken for a player: the command, the
    argument vector and the stdio option handed to [spawn]. *)
Definition spawnRequest (audioPlayer url : string)
    : string * list string * stdio :=
  if audioPlayer =? "aplay" then
    ("aplay", ["-f"; "cd"], PipeIgnorePipe)
  else if audioPlayer =? "cvlc" then
    (audioPlayer, [url; "--intf"; "dummy"; "--play-and-exit"], IgnoreAll)
  else if audioPlayer =? "mpv" then
    (audioPlayer, [url; "--no-video"; "--really-quiet"], IgnoreAll)
  else if audioPlayer =? "afplay" then
    (audioPlayer, [url], IgnoreAll)
  else
    (audioPlayer, [url], IgnoreAll).

(** [spawn(...)] as a step of an async function. *)
Definition spawnChild (rq : string * list string * stdio) : M W child child :=
  fun w =>
    let '(cmd, args, io) := rq in
    let '(w1, r) := spawn H w cmd args io in
    (w1, [Spawn cmd args io],
     match r with inl c => Normal c | inr msg => Throw msg end).

(** State of the promise built in [playAndAwait]: the closure variable
    [finished], the value the promise holds, and how often [resolve] was
    called. *)
Record awaitState := mkAwait {
  finished : bool;
  outcome : option bool;
  resolveCalls : nat
}.

Definition resolveWith (b : bool) (st : awaitState) : awaitState :=
  mkAwait true
          (match outcome st with None => Some b | Some v => Some v end)
          (S (resolveCalls st)).

(** [code === 0] *)
Definition isZero (code : option Z) : bool :=
  match code with
  | Some 0%Z => true
  | _ => false
  end.

(** The three listeners; each does nothing once [finished] is set. *)
Definition listener (acc : awaitState * list (effect child)) (e : childEvent)
    : awaitState * list (effect child) :=
  let '(st, out) := acc in
  if finished st then acc
  else
    match e with
    | OnError msg =>
        (resolveWith false st, out ++ [ConsoleError (PlaybackFailed msg)])
    | OnClose code => (resolveWith (isZero code) st, out)
    | OnExit code => (resolveWith (isZero code) st, out)
    end.

(** What one event alone means for the outcome: an error is a failure, an
    end of the process is a success exactly on exit code 0. *)
Definition verdict (e : childEvent) : bool :=
  match e with
  | OnError _ => false
  | OnClose code => isZero code
  | OnExit code => isZero code
  end.

Definition dispatch (evs : list childEvent) : awaitState * list (effect child) :=
  fold_left listener evs (mkAwait false None 0, []).

(** [await new Promise<boolean>((resolve) => { ... })] *)
Definition awaitOutcome (c : child) : M W child bool :=
  fun w =>
    let '(w1, evs) := events H w c in
    let '(st, out) := dispatch evs in
    (w1, out, match outcome st with Some b => Normal b | None => Pending end).

Definition playAndAwait (url title : string) : M W child bool :=
  tryCatch
    (audioPlayer <- Ytdlp.detectAudioPlayer H ;;
     match audioPlayer with
     | None => emit (ConsoleError NoAudioPlayerFound) ;; ret false
     | Some audioPlayer =>
         c <- spawnChild (spawnRequest audioPlayer url) ;;
         awaitOutcome c
     end)
    (fun err => emit (ConsoleError (PlaybackErrorMsg err)) ;; ret false).

(** [listPlaylists()] on the host's playlists file. *)
Definition listPlaylists : M W child stored :=
  fun w => (w, [], Normal (Playlists.listPlaylists (playlistsFile H w))).

Definition liftCompletion {A} (r : completion A) : M W child A :=
  fun w => (w, [], r).

(** The id to resolve when [!url && t.id] holds. *)
Definition toResolve (t : StoredTrack) : option string :=
  if negb (Js.truthy (t_url t)) && Js.truthy (t_id t) then t_id t else None.

(** Body of the continuation loop for the track [t]. *)
Definition continueTrack (t : StoredTrack) : M W child unit :=
  r <- match toResolve t with
       | Some id =>
           tryCatch
             (u <- Ytdlp.getYouTubeAudioStream H id ;; ret (Some (Some u)))
             (fun e =>
                emit (ConsoleError (FailedToResolveSkipping (t_title t) e)) ;;
                ret None)
       | None => ret (Some (t_url t))
       end ;;
  match r with
  | None => ret tt                                  (* continue *)
  | Some url =>
      match url with
      | Some u =>
          if Js.truthy url then (_ <- playAndAwait u (t_title t) ;; ret tt)
          else emit (ConsoleError (NoPlayableUrl (t_title t)))
      | None => emit (ConsoleError (NoPlayableUrl (t_title t)))
      end
  end.

(** [for (let i = from; i < tracks.length; i++)]; [fuel] is
    [tracks.length - from]. *)
Fixpoint continueLoop (tracks : list StoredTrack) (fuel i : nat)
    : M W child unit :=
  match fuel with
  | 0 => ret tt
  | S fuel' =>
      match nth_error tracks i with
      | None => ret tt
      | Some t => continueTrack t ;; continueLoop tracks fuel' (S i)
      end
  end.

Definition hasTrack (selectedId : string) (pl : Playlist) : bool :=
  Js.some (fun t => Js.strictEq (t_id t) selectedId) (p_tracks pl).

(** The [try] block after the selected track has played. *)
Definition continuation (selectedId : string) : M W child unit :=
  v <- listPlaylists ;;
  playlists <- liftCompletion (arrayFor "playlists" "find" v) ;;
  match find (hasTrack selectedId) playlists with
  | Some containing =>
      match Js.findIndex (fun t => Js.strictEq (t_id t) selectedId)
                         (p_tracks containing) with
      | Some idx =>
          if (Z.of_nat idx <? Z.of_nat (length (p_tracks containing)) - 1)%Z
          then
            emit (ConsoleLog (ContinuingPlaylist (p_name containing))) ;;
            continueLoop (p_tracks containing)
                         (length (p_tracks containing) - (idx + 1)) (idx + 1) ;;
            emit (ConsoleLog PlaylistFinished)
          else ret tt
      | None => ret tt
      end
  | None => ret tt
  end.

(** [handleYouTubeStream] from the moment the stream URL of the selected
    video is known: play it, try to continue a playlist, return [played]. *)
Definition handleYouTubeStream (audioUrl title selectedId : string) : M W child bool :=
  played <- playAndAwait audioUrl title ;;
  tryCatch (continuation selectedId) (fun _ => ret tt) ;;
  ret played.

(** The continuation said over the tracks themselves: each track of [ts] in
    turn. *)
Fixpoint continueOver (ts : list StoredTrack) : M W child unit :=
  match ts with
  | [] => ret tt
  | t :: rest => continueTrack t ;; continueOver rest
  end.

End WithHost.
End Play.

(* ================================================================== *)
(** ** commands/playlist.ts: the "play" action of handlePlaylistCommand *)

Module PlaylistCmd.
Import Runtime Playlists.
Local Open Scope mon_scope.

Section WithHost.

Context {W child : Type} (H : Host W child).

(** The two variables the SIGINT listener shares with the loop. *)
Record session := mkSession {
  currentChild : option child;
  stopRequested : bool
}.

Definition initial : session := mkSession None false.

(** State of the sequencer: the world and the session. *)
Definition MS (A : Type) : Type := Mon child (W * session) A.

(** The listener registered with [process.on("SIGINT", ...)]; an exception
    of [kill] is swallowed. *)
Definition onSigint (s : session) : session * list (effect child) :=
  (mkSession (currentChild s) true,
   match currentChild s with
   | Some c => [Kill c "SIGINT"]
   | None => []
   end ++ [ConsoleLog StoppingPlayback]).

(** [n] SIGINT dispatched one after the other. *)
Fixpoint deliver (n : nat) (s : session) : session * list (effect child) :=
  match n with
  | 0 => (s, [])
  | S n' =>
      let '(s1, e1) := onSigint s in
      let '(s2, e2) := deliver n' s1 in
      (s2, e1 ++ e2)
  end.

(** [await m] inside the sequencer: while the main flow is suspended the
    event loop runs the SIGINT listener for every signal that arrives. *)
Definition awaitS {A} (m : M W child A) : MS A :=
  fun st =>
    let '(w, s) := st in
    let '(w1, e1, r) := m w in
    let '(s1, e2) := deliver (sigints H w1) s in
    ((w1, s1), e1 ++ e2, r).

(** A synchronous call inside the sequencer: no listener runs meanwhile. *)
Definition sync {A} (m : M W child A) : MS A :=
  fun st =>
    let '(w, s) := st in
    let '(w1, e1, r) := m w in
    ((w1, s), e1, r).

Definition setCurrentChild (c : option child) : MS unit :=
  fun st =>
    let '(w, s) := st in
    ((w, mkSession c (stopRequested s)), [], Normal tt).

(** [const args = []; if (player === "cvlc") ... else args.push(url)] *)
Definition playerArgs (player url : string) : list string :=
  if player =? "cvlc" then [url; "--intf"; "dummy"; "--play-and-exit"]
  else if player =? "mpv" then [url; "--no-video"; "--really-quiet"]
  else if player =? "afplay" then [url]
  else if player =? "aplay" then ["-f"; "cd"]
  else [url].

Definition playerStdio (player : string) : stdio :=
  if player =? "aplay" then PipeIgnorePipe else IgnoreAll.

(** [await new Promise<void>((resolve) => { on close / exit / error:
    resolve() })]: resolved by the first event of the child. *)
Definition awaitAnyEvent (c : child) : M W child unit :=
  fun w =>
    let '(w1, evs) := events H w c in
    (w1, [], match evs with [] => Pending | _ :: _ => Normal tt end).

(** How an iteration of the loop hands over: to the next iteration
    ([continue] or the end of the body), or by [return]. *)
Inductive control := Next | Return.

(** [let url = track.url; if (!url && track.id) { try { url = await
    getYouTubeAudioStream(track.id) } catch (err) { ...; continue } }]:
    [None] stands for [continue], [Some url] for the value of [url] after
    the statement. *)
Definition obtainUrl (track : StoredTrack) : MS (option (option string)) :=
  match Play.toResolve track with
  | Some id =>
      tryCatch
        (u <- awaitS (Ytdlp.getYouTubeAudioStream H id) ;;
         ret (Some (Some u)))
        (fun err =>
           emit (ConsoleLog (FailedToResolveStream (t_title track) err)) ;;
           ret None)
  | None => ret (Some (t_url track))
  end.

(** [try { currentChild = spawn(player, args, ...); await new Promise(...) }
    catch (err) { ... } finally { currentChild = null }] *)
Definition playTrack (track : StoredTrack) (player u : string) : MS unit :=
  finally
    (tryCatch
       (c <- sync (Play.spawnChild H
                     (player, playerArgs player u, playerStdio player)) ;;
        setCurrentChild (Some c) ;;
        awaitS (awaitAnyEvent c))
       (fun err =>
          emit (ConsoleLog (PlaybackErrorFor (t_title track) err))))
    (setCurrentChild None).

(** What follows once [url] is known: the no-URL test, player discovery
    and playback. *)
Definition afterUrl (track : StoredTrack) (url : option string) : MS control :=
  match url with
  | Some u =>
      if Js.truthy url then
        player <- awaitS (Ytdlp.detectAudioPlayer H) ;;
        match player with
        | None => emit (ConsoleLog NoAudioPlayerOnSystem) ;; ret Return
        | Some player => playTrack track player u ;; ret Next
        end
      else emit (ConsoleLog (NoPlayableUrl (t_title track))) ;; ret Next
  | None => emit (ConsoleLog (NoPlayableUrl (t_title track))) ;; ret Next
  end.

(** Body of the [for] loop for [track = p.tracks[i]], after the
    [stopRequested] test. *)
Definition iteration (total i : nat) (track : StoredTrack) : MS control :=
  emit (ConsoleLog (NowPlaying (i + 1) total (t_title track))) ;;
  r <- obtainUrl track ;;
  match r with
  | None => ret Next                                        (* continue *)
  | Some url => afterUrl track url
  end.

(** How the loop is left. *)
Inductive loopExit := LoopDone | Returned.

(** [for (let i = from; i < p.tracks.length; i++) { if (stopRequested)
    break; ... }]; [fuel] is [p.tracks.length - from]. *)
Fixpoint playLoop (tracks : list StoredTrack) (fuel i : nat) : MS loopExit :=
  match fuel with
  | 0 => ret LoopDone
  | S fuel' =>
      match nth_error tracks i with
      | None => ret LoopDone
      | Some track =>
          fun st =>
            if stopRequested (snd st) then ret LoopDone st        (* break *)
            else
              (c <- iteration (length tracks) i track ;;
               match c with
               | Next => playLoop tracks fuel' (S i)
               | Return => ret Returned
               end) st
      end
  end.

(** The "play" action from the registration of the SIGINT listener on. *)
Definition playFrom (tracks : list StoredTrack) (startIndex : nat) : MS unit :=
  e <- playLoop tracks (length tracks - startIndex) startIndex ;;
  match e with
  | LoopDone => emit (ConsoleLog PlaylistFinishedOrStopped)
  | Returned => ret tt
  end.

Definition handlePlaylistCommand (tracks : list StoredTrack) (startIndex : nat) (w : W)
    : (W * session) * list (effect child) * completion unit :=
  playFrom tracks startIndex (w, initial).

(** *** Reading a trace *)

(** Positions (1-based, as announced) of the tracks the sequencer started
    on. *)
Fixpoint announced (tr : list (effect child)) : list nat :=
  match tr with
  | [] => []
  | ConsoleLog (NowPlaying pos _ _) :: rest => pos :: announced rest
  | _ :: rest => announced rest
  end.

Definition isAnnounce (e : effect child) : bool :=
  match e with
  | ConsoleLog (NowPlaying _ _ _) => true
  | _ => false
  end.

Definition isStopping (e : effect child) : bool :=
  match e with
  | ConsoleLog StoppingPlayback => true
  | _ => false
  end.

(** A step of the sequencer keeps a raised stop flag raised, and leaves it
    raised whenever it logged a stop. *)
Definition stopSafe {A} (m : MS A) : Prop :=
  forall st,
    (stopRequested (snd st) = true ->
     stopRequested (snd (fst (fst (m st)))) = true)
    /\ (In (ConsoleLog StoppingPlayback) (effectsOf (m st)) ->
        stopRequested (snd (fst (fst (m st)))) = true).

(** The notices "No playable URL" of the loop. *)
Definition isNoUrlNotice (e : effect child) : bool :=
  match e with
  | ConsoleLog (NoPlayableUrl _) => true
  | _ => false
  end.

(** Number of calls of [detectAudioPlayer]. *)
Definition isDetect (e : effect child) : bool :=
  match e with
  | DetectCalled => true
  | _ => false
  end.

Definition detections (tr : list (effect child)) : nat :=
  length (filter isDetect tr).

(** [n] SIGINT arriving while the child [c] is the current one. *)
Fixpoint killed (n : nat) (c : child) : list (effect child) :=
  match n with
  | 0 => []
  | S n' => Kill c "SIGINT" :: ConsoleLog StoppingPlayback :: killed n' c
  end.

End WithHost.

Arguments session : clear implicits.

End PlaylistCmd.

(* ================================================================== *)
(** ** Sample hosts and data *)

Module Samples.
Import Runtime Playlists.

(** A Linux machine.  The world is the number of host calls made so far;
    [installed] tells which commands exist (a missing command makes the
    child emit "error"; an existing one runs and ends with code 0);
    [sig] gives the SIGINT count of the await ending at a tick; the video
    "gone" cannot be resolved. *)
Definition host (installed : string -> bool) (sig : nat -> nat) (f : file)
    : Host nat string :=
  mkHost (fun _ => Linux)
         (fun w cmd _ _ => (S w, inl cmd))
         (fun w c =>
            (S w,
             if installed c then [OnExit (Some 0%Z); OnClose (Some 0%Z)]
             else [OnError "spawn ENOENT"; OnClose (Some (-2)%Z)]))
         (fun w id =>
            (S w,
             if id =? "gone"
             then Throw "This video is not available for streaming."
             else Normal (String.append "https://stream/" id)))
         sig
         (fun _ => f).

Definition onlyMpv (c : string) : bool := c =? "mpv".
Definition nothing (c : string) : bool := false.
Definition onlyAplay (c : string) : bool := c =? "aplay".
Definition quiet (w : nat) : nat := 0.
(** One SIGINT during the await that ends at tick 6 (the playback of the
    first track when discovery took four ticks), or at tick 4 (the
    discovery itself). *)
Definition ctrlC (w : nat) : nat := if Nat.eqb w 6 then 1 else 0.
Definition ctrlCEarly (w : nat) : nat := if Nat.eqb w 4 then 1 else 0.

Definition rock1 : Playlist := mkPlaylist "m3042o00" "rock" [] "c".
Definition jazz : Playlist := mkPlaylist "m3042o01" "jazz" [] "c".
Definition rock2 : Playlist :=
  mkPlaylist "m3042o02" "rock" [mkTrack (Some "v1") "one" None "a"] "c".

Definition trackA : StoredTrack :=
  mkTrack (Some "v1") "A" (Some "https://cdn/a") "t".
Definition trackB : StoredTrack := mkTrack (Some "v2") "B" None "t".
Definition trackC : StoredTrack :=
  mkTrack (Some "v3") "C" (Some "https://cdn/c") "t".
(** A track whose stream cannot be resolved, and one with neither URL nor
    id. *)
Definition trackGone : StoredTrack := mkTrack (Some "gone") "G" None "t".
Definition trackBare : StoredTrack := mkTrack None "N" None "t".

Definition roadTrip : Playlist :=
  mkPlaylist "m3042o03" "road-trip" [trackA; trackB; trackC] "c".
Definition shelf : file := Holds (Lists [jazz; roadTrip; rock2]).

End Samples.

(* ================================================================== *)
(** ** JavaScript numbers read from strings *)

Module JsNumber.

(** The value of [parseInt]: [NaN], or the integer read.  JavaScript keeps
    the nearest double (an infinity for the very largest), which is the
    integer itself below 2^53; the tests and clamps applied to these values
    give the same answer for the double as for the integer. *)
Inductive jsnum :=
| NaN
| Fin (z : Z).

Definition code (c : ascii) : N := N_of_ascii c.

(** White space and line terminators of one byte: TAB, LF, VT, FF, CR, SP. *)
Definition isWhite (a : ascii) : bool :=
  ((9 <=? code a) && (code a <=? 13) || (code a =? 32))%N.

(** U+00A0, in UTF-8. *)
Definition isWhite2 (a b : ascii) : bool :=
  ((code a =? 194) && (code b =? 160))%N.

(** U+1680, U+2000 to U+200A, U+2028, U+2029, U+202F, U+205F, U+3000 and
    U+FEFF, in UTF-8. *)
Definition isWhite3 (a b c : ascii) : bool :=
  ((code a =? 225) && (code b =? 154) && (code c =? 128)
   || (code a =? 226) && (code b =? 128)
      && ((128 <=? code c) && (code c <=? 138)
          || (code c =? 168) || (code c =? 169) || (code c =? 175))
   || (code a =? 226) && (code b =? 129) && (code c =? 159)
   || (code a =? 227) && (code b =? 128) && (code c =? 128)
   || (code a =? 239) && (code b =? 187) && (code c =? 191))%N.

(** [TrimString(s, start)] *)
Fixpoint trimStart (s : string) : string :=
  match s with
  | String a r =>
      if isWhite a then trimStart r
      else
        match r with
        | String b r1 =>
            if isWhite2 a b then trimStart r1
            else
              match r1 with
              | String c r2 => if isWhite3 a b c then trimStart r2 else s
              | EmptyString => s
              end
        | EmptyString => s
        end
  | EmptyString => s
  end.

(** A leading sign is dropped and remembered. *)
Definition signed (s : string) : bool * string :=
  match s with
  | String c r =>
      if (code c =? 45)%N then (true, r)
      else if (code c =? 43)%N then (false, r)
      else (false, s)
  | EmptyString => (false, s)
  end.

Definition digitOf (c : ascii) : option Z :=
  if ((48 <=? code c) && (code c <=? 57))%N
  then Some (Z.of_N (code c) - 48)%Z
  else None.

(** The decimal digits [s] starts with, read after those that gave [acc];
    [None] when there was none at all. *)
Fixpoint readDigits (acc : option Z) (s : string) : option Z :=
  match s with
  | String c r =>
      match digitOf c with
      | Some d =>
          readDigits
            (Some (10 * match acc with Some a => a | None => 0 end + d)%Z) r
      | None => acc
      end
  | EmptyString => acc
  end.

(** [parseInt(s, 10)] *)
Definition parseInt10 (s : string) : jsnum :=
  let '(negative, body) := signed (trimStart s) in
  match readDigits None body with
  | Some z => Fin (if negative then - z else z)
  | None => NaN
  end.

End JsNumber.

(* ================================================================== *)
(** ** commands/playlist.ts: the other actions of handlePlaylistCommand *)

Module Actions.
Import Runtime Playlists JsNumber.

(** A result of the search, [YouTubeVideo] of src/types. *)
Record YouTubeVideo := mkVideo {
  v_id : string;
  v_title : string;
  v_channelTitle : string;
  v_duration : string;
  v_thumbnail : string
}.

(** Lines these actions print. *)
Inductive line :=
| PlaylistNotFound
| PlaylistIsEmpty
| TrackLine (number : nat) (title : string)
| NoResultsFound
| AddingResults (count : nat) (name : string)
| Added (title : string)
| FailedToAdd (title err : string)
| Done (added skipped : nat)
| InvalidTrackNumber
| TrackRemoved
| PlaylistDeleted.

(** What an action does, in order: a line printed, a call of the search,
    or an effect of the resolver and of the play loop. *)
Inductive event (child : Type) :=
| Say (l : line)
| AskSearch (query : string) (limit : Z)
| Playing (e : effect child).
Arguments Say {child} l.
Arguments AskSearch {child} query limit.
Arguments Playing {child} e.

(** [x || 5] for the value of a [parseInt]: NaN and 0 are falsy. *)
Definition orFive (n : jsnum) : Z :=
  match n with
  | NaN => 5
  | Fin 0 => 5
  | Fin z => z
  end.

(** [p.tracks.forEach((t, idx) => console.log(`${idx + 1}. ${t.title}`))] *)
Fixpoint trackLines {child : Type} (from : nat) (tracks : list StoredTrack)
    : list (event child) :=
  match tracks with
  | [] => []
  | t :: rest => Say (TrackLine (from + 1) (t_title t)) :: trackLines (S from) rest
  end.

Section WithHost.

Context {W child : Type} (H : Host W child).

(** [new Date().toISOString()] and [searchYouTube] are not part of these
    functions. *)
Variable clock : W -> string.
Variable searchYouTube : W -> string -> Z -> W * completion (list YouTubeVideo).

(** [Math.max(1, Math.min(50, parseInt(limitInput || "5", 10) || 5))] *)
Definition addLimit (limitInput : string) : Z :=
  Z.max 1
    (Z.min 50
       (orFive (parseInt10 (if limitInput =? EmptyString then "5"
                            else limitInput)))).

(** One turn of the [for (const r of results)] loop of the "add" action:
    [true] when the track was added, [false] when it was skipped. *)
Definition addOne (name : string) (r : YouTubeVideo) (st : W * file)
    : (W * file) * list (event child) * completion bool :=
  let '(w, f) := st in
  let '(w1, e1, res) := Ytdlp.getYouTubeAudioStream H (v_id r) w in
  match res with
  | Normal url =>
      let track := mkTrack (Some (v_id r)) (v_title r) (Some url) (clock w1) in
      match addTrackToPlaylist (clock w1) name track f with
      | (f', Normal _) =>
          ((w1, f'), map Playing e1 ++ [Say (Added (v_title r))], Normal true)
      | (f', Throw msg) =>
          ((w1, f'), map Playing e1 ++ [Say (FailedToAdd (v_title r) msg)],
           Normal false)
      | (f', Pending) => ((w1, f'), map Playing e1, Pending)
      end
  | Throw msg =>
      ((w1, f), map Playing e1 ++ [Say (FailedToAdd (v_title r) msg)],
       Normal false)
  | Pending => ((w1, f), map Playing e1, Pending)
  end.

(** The loop with its two counters. *)
Fixpoint addLoop (name : string) (results : list YouTubeVideo)
    (added skipped : nat) (st : W * file)
    : (W * file) * list (event child) * completion (nat * nat) :=
  match results with
  | [] => (st, [], Normal (added, skipped))
  | r :: rest =>
      let '(st1, e1, res) := addOne name r st in
      match res with
      | Normal true =>
          let '(st2, e2, res2) := addLoop name rest (S added) skipped st1 in
          (st2, e1 ++ e2, res2)
      | Normal false =>
          let '(st2, e2, res2) := addLoop name rest added (S skipped) st1 in
          (st2, e1 ++ e2, res2)
      | Throw msg => (st1, e1, Throw msg)
      | Pending => (st1, e1, Pending)
      end
  end.

(** The tracks that the turns of the loop over [results], started in the
    world [w], hand to [addTrackToPlaylist], as it stores them: one for each
    result whose [getYouTubeAudioStream] returns, made of the id and the
    title of the result, the URL returned and the time of the call; a result
    whose call rejects gives none, and the loop goes no further than a call
    that does not settle. *)
Fixpoint resolvedTracks (results : list YouTubeVideo) (w : W)
    : list StoredTrack :=
  match results with
  | [] => []
  | r :: rest =>
      let '(w1, res) := resolveStream H w (v_id r) in
      match res with
      | Normal url =>
          stamp (mkTrack (Some (v_id r)) (v_title r) (Some url) (clock w1))
                (clock w1)
          :: resolvedTracks rest w1
      | Throw _ => resolvedTracks rest w1
      | Pending => []
      end
  end.

(** The "add" action, once the playlist name, the query and the answer to
    "How many results" are known. *)
Definition addAction (name query limitInput : string) (st : W * file)
    : (W * file) * list (event child) * completion unit :=
  let '(w, f) := st in
  let limit := addLimit limitInput in
  let '(w1, found) := searchYouTube w query limit in
  match found with
  | Normal [] =>
      ((w1, f), [AskSearch query limit; Say NoResultsFound], Normal tt)
  | Normal results =>
      let '(st2, e2, res) := addLoop name results 0 0 (w1, f) in
      match res with
      | Normal (a, s) =>
          (st2,
           AskSearch query limit :: Say (AddingResults (length results) name)
           :: e2 ++ [Say (Done a s)],
           Normal tt)
      | Throw msg =>
          (st2,
           AskSearch query limit :: Say (AddingResults (length results) name)
           :: e2, Throw msg)
      | Pending =>
          (st2,
           AskSearch query limit :: Say (AddingResults (length results) name)
           :: e2, Pending)
      end
  | Throw msg => ((w1, f), [AskSearch query limit], Throw msg)
  | Pending => ((w1, f), [AskSearch query limit], Pending)
  end.

(** [startInput ? Math.max(0, parseInt(startInput, 10) - 1) : 0];
    [Math.max(0, NaN)] is NaN. *)
Definition startIndex (startInput : string) : jsnum :=
  if startInput =? EmptyString then Fin 0
  else
    match parseInt10 startInput with
    | NaN => NaN
    | Fin z => Fin (Z.max 0 (z - 1))
    end.

(** The "play" action, once the playlist name and the answer to "Start at
    track" are known.  With a start index that is NaN the test
    [i < p.tracks.length] fails at once. *)
Definition playAction (name startInput : string) (st : W * file)
    : (W * file) * list (event child) * completion unit :=
  let '(w, f) := st in
  match getPlaylist name f with
  | Normal None => (st, [Say PlaylistNotFound], Normal tt)
  | Normal (Some p) =>
      match p_tracks p with
      | [] => (st, [Say PlaylistIsEmpty], Normal tt)
      | _ :: _ =>
          match startIndex startInput with
          | NaN =>
              (st,
               trackLines 0 (p_tracks p)
               ++ [Playing (ConsoleLog PlaylistFinishedOrStopped)],
               Normal tt)
          | Fin z =>
              let '(st1, e1, res) :=
                PlaylistCmd.handlePlaylistCommand H (p_tracks p) (Z.to_nat z) w
              in
              ((fst st1, f), trackLines 0 (p_tracks p) ++ map Playing e1, res)
          end
      end
  | Throw msg => (st, [], Throw msg)
  | Pending => (st, [], Pending)
  end.


(** The "delete" action, once the name is known. *)
Definition deleteAction (name : string) (f : file)
    : file * list (event child) * completion unit :=
  match deletePlaylist name f with
  | (f', Normal _) => (f', [Say PlaylistDeleted], Normal tt)
  | (f', Throw msg) => (f', [], Throw msg)
  | (f', Pending) => (f', [], Pending)
  end.

End WithHost.

(** Reading a trace: the videos the resolver was asked for, and the calls
    of the search. *)
Fixpoint resolved {child : Type} (tr : list (event child)) : list string :=
  match tr with
  | [] => []
  | Playing (ResolverCalled id) :: rest => id :: resolved rest
  | _ :: rest => resolved rest
  end.

Fixpoint searches {child : Type} (tr : list (event child))
    : list (string * Z) :=
  match tr with
  | [] => []
  | AskSearch q l :: rest => (q, l) :: searches rest
  | _ :: rest => searches rest
  end.

End Actions.

(** Sample answers of the search, for a host whose world is a counter. *)
Module ActionSamples.
Import Actions.

Definition clock (w : nat) : string := "2024-05-01T10:00:00.000Z".

Definition blue : YouTubeVideo :=
  mkVideo "v7" "Blue in Green" "Miles Davis" "PT5M37S" EmptyString.
Definition lost : YouTubeVideo :=
  mkVideo "gone" "Lost Tape" "Unknown Channel" "Unknown" EmptyString.
Definition soWhat : YouTubeVideo :=
  mkVideo "v9" "So What" "Miles Davis" "PT9M22S" EmptyString.

Definition searchYouTube (w : nat) (query : string) (limit : Z)
    : nat * completion (list YouTubeVideo) :=
  (S w, Normal (firstn (Z.to_nat limit) [blue; lost; soWhat])).

End ActionSamples.

(* ================================================================== *)
(** ** utils/ytdlp.ts: getAudioStream and getYouTubeAudioStream *)

Module Resolver.

(** A JSON number that is finite, as a rational. *)
Definition number : Type := QArith_base.Q.

Definition zero : number := QArith_base.Qmake 0 1.

(** [VideoFormat] of src/types, with the fields the code reads. *)
Record VideoFormat := mkFormat {
  f_format_id : string;
  f_quality : option number;
  f_abr : option number;
  f_acodec : string;
  f_vcodec : string;
  f_url : string
}.

(** What [getInfoAsync] hands back: [_type], and [formats] when it is an
    array. *)
Record VideoInfo := mkInfo {
  i_type : option string;
  i_formats : option (list VideoFormat)
}.

(** [x ?? 0] *)
Definition orZero (x : option number) : number :=
  match x with
  | Some q => q
  | None => zero
  end.

(** The comparator given to [sort]: the sign of its result, [Lt] (negative)
    when [a] goes before [b]. *)
Definition compareFormats (a b : VideoFormat) : comparison :=
  match QArith_base.Qcompare (orZero (f_quality b)) (orZero (f_quality a)) with
  | Eq => QArith_base.Qcompare (orZero (f_abr b)) (orZero (f_abr a))
  | c => c
  end.

(** [Array.prototype.sort(compare)] is a stable sort: here by insertion,
    each element going before the first one it is not greater than. *)
Fixpoint insert {A : Type} (compare : A -> A -> comparison) (x : A)
    (l : list A) : list A :=
  match l with
  | [] => [x]
  | y :: t =>
      match compare x y with
      | Gt => y :: insert compare x t
      | _ => x :: l
      end
  end.

Definition sort {A : Type} (compare : A -> A -> comparison) (l : list A)
    : list A :=
  fold_right (insert compare) [] l.

(** [format.acodec !== "none" && format.vcodec === "none"] *)
Definition audioOnly (format : VideoFormat) : bool :=
  negb (f_acodec format =? "none") && (f_vcodec format =? "none").

(** The body of the [try] of getAudioStream once the info is there. *)
Definition pickFormat (info : VideoInfo) : completion string :=
  if negb (Js.truthy (i_type info)) || negb (Js.strictEq (i_type info) "video")
  then Throw "Invalid video information received"
  else
    match i_formats info with
    | None => Throw "TypeError: info.formats is undefined"
    | Some formats =>
        let audioFormats := filter audioOnly formats in
        if (length audioFormats =? 0)%nat
        then Throw "No audio-only formats found"
        else
          match sort compareFormats audioFormats with
          | [] => Throw "No suitable audio format found"
          | first :: _ => Normal (f_url first)
          end
    end.

(** [s.includes(t)] *)
Fixpoint includes (s t : string) : bool :=
  match s with
  | EmptyString => prefix t s
  | String _ r => prefix t s || includes r t
  end.

(** The message of the error getYouTubeAudioStream throws for an error of
    getAudioStream with message [message]. *)
Definition rethrown (message : string) : string :=
  if includes message "Could not extract functions"
     || includes message "functions"
  then "YouTube stream extraction failed. This may be due to YouTube updates. Try updating ytdl-core or use a different video."
  else if includes message "Sign in to confirm"
  then "YouTube requires sign-in verification. Try using a VPN or different IP address."
  else if includes message "Video unavailable"
  then "This video is not available for streaming."
  else if includes message "Private video"
  then "This is a private video and cannot be streamed."
  else String.append "Stream extraction error: " message.

Section WithYtDlp.

Variable W : Type.

(** [new YtDlp().getInfoAsync(url, {})] *)
Variable getInfoAsync : W -> string -> W * completion VideoInfo.

Definition getAudioStream (videoId : string) (w : W) : W * completion string :=
  let url := String.append "https://www.youtube.com/watch?v=" videoId in
  let '(w1, got) := getInfoAsync w url in
  let result :=
    match got with
    | Normal info => pickFormat info
    | Throw message => Throw message
    | Pending => Pending
    end in
  (w1,
   match result with
   | Throw message =>
       Throw (String.append "Failed to get audio stream: " message)
   | _ => result
   end).

Definition getYouTubeAudioStream (videoId : string) (w : W)
    : W * completion string :=
  let '(w1, result) := getAudioStream videoId w in
  (w1,
   match result with
   | Throw message => Throw (rethrown message)
   | _ => result
   end).

End WithYtDlp.

End Resolver.

(** Sample answers of yt-dlp, for a world that is a counter. *)
Module ResolverSamples.
Import Resolver.

Definition whole (n : Z) : option number := Some (QArith_base.Qmake n 1).

Definition video720 : VideoFormat :=
  mkFormat "136" (whole 7) None "none" "avc1" "https://cdn/video".
Definition muxed : VideoFormat :=
  mkFormat "18" (whole 5) (whole 96) "mp4a" "avc1" "https://cdn/muxed".
Definition opusLow : VideoFormat :=
  mkFormat "249" (whole 2) (Some (QArith_base.Qmake 101 2)) "opus" "none"
    "https://cdn/opus-low".
(** Two formats of quality 3 and bitrate 129.5. *)
Definition m4a : VideoFormat :=
  mkFormat "140" (whole 3) (Some (QArith_base.Qmake 259 2)) "mp4a" "none"
    "https://cdn/m4a".
Definition opusHigh : VideoFormat :=
  mkFormat "251" (whole 3) (Some (QArith_base.Qmake 1295 10)) "opus" "none"
    "https://cdn/opus-high".

Definition getInfoAsync (w : nat) (url : string)
    : nat * completion VideoInfo :=
  (S w,
   if url =? "https://www.youtube.com/watch?v=v7"
   then Normal (mkInfo (Some "video")
                  (Some [video720; opusLow; m4a; muxed; opusHigh]))
   else if url =? "https://www.youtube.com/watch?v=mix"
   then Normal (mkInfo (Some "playlist") None)
   else Throw "ERROR: [youtube] gone: Video unavailable").

End ResolverSamples.

(* ================================================================== *)
(** ** utils/index.ts: parseDuration, formatTime, formatDuration *)

Module JsText.
Import JsNumber.

Definition hexOf (c : ascii) : option Z :=
  if ((48 <=? code c) && (code c <=? 57))%N
  then Some (Z.of_N (code c) - 48)%Z
  else if ((97 <=? code c) && (code c <=? 102))%N
  then Some (Z.of_N (code c) - 87)%Z
  else if ((65 <=? code c) && (code c <=? 70))%N
  then Some (Z.of_N (code c) - 55)%Z
  else None.

Fixpoint readHex (acc : option Z) (s : string) : option Z :=
  match s with
  | String c r =>
      match hexOf c with
      | Some d =>
          readHex
            (Some (16 * match acc with Some a => a | None => 0 end + d)%Z) r
      | None => acc
      end
  | EmptyString => acc
  end.

(** [parseInt(s)]: radix 16 after "0x" or "0X", radix 10 otherwise. *)
Definition parseInt (s : string) : jsnum :=
  let '(negative, body) := signed (trimStart s) in
  let read :=
    match body with
    | String z (String x r) =>
        if ((code z =? 48) && ((code x =? 120) || (code x =? 88)))%N
        then readHex None r
        else readDigits None body
    | _ => readDigits None body
    end in
  match read with
  | Some v => Fin (if negative then - v else v)
  | None => NaN
  end.

(** [a * k] and [a + b]: NaN is contagious. *)
Definition times (a : jsnum) (k : Z) : jsnum :=
  match a with
  | Fin z => Fin (z * k)
  | NaN => NaN
  end.

Definition plus (a b : jsnum) : jsnum :=
  match a, b with
  | Fin x, Fin y => Fin (x + y)
  | _, _ => NaN
  end.

(** Decimal digits of [n], most significant first, put before [acc]. *)
Fixpoint digits10 (fuel : nat) (n : N) (acc : string) : string :=
  match fuel with
  | 0 => acc
  | S fuel' =>
      let acc' := String (ascii_of_N (48 + n mod 10)) acc in
      if (n / 10 =? 0)%N then acc' else digits10 fuel' (n / 10)%N acc'
  end.

Definition render10 (n : N) : string :=
  digits10 (S (N.to_nat (N.log2 n))) n EmptyString.

(** [z.toString()] for an integer (below 10^21 in absolute value, where
    JavaScript switches to the exponent notation). *)
Definition toString (z : Z) : string :=
  if (z <? 0)%Z then String "-"%char (render10 (Z.abs_N z))
  else render10 (Z.abs_N z).

(** [`${x}`] *)
Definition show (x : jsnum) : string :=
  match x with
  | Fin z => toString z
  | NaN => "NaN"
  end.

(** [s.padStart(2, "0")] *)
Definition padStart2 (s : string) : string :=
  match s with
  | EmptyString => "00"
  | String c EmptyString => String "0"%char s
  | _ => s
  end.

(** [s.split(sep)] for a separator of one character. *)
Fixpoint split (sep : ascii) (s : string) : list string :=
  match s with
  | EmptyString => [EmptyString]
  | String c r =>
      if (code c =? code sep)%N then EmptyString :: split sep r
      else
        match split sep r with
        | part :: parts => String c part :: parts
        | [] => [String c EmptyString]
        end
  end.

(** The digits [s] starts with, and what follows them. *)
Fixpoint spanDigits (s : string) : string * string :=
  match s with
  | String c r =>
      match digitOf c with
      | Some _ => let '(ds, rest) := spanDigits r in (String c ds, rest)
      | None => (EmptyString, s)
      end
  | EmptyString => (EmptyString, s)
  end.

(** Helpers to talk about strings of digits. *)
Fixpoint allDigits (s : string) : bool :=
  match s with
  | String c r =>
      match digitOf c with
      | Some _ => allDigits r
      | None => false
      end
  | EmptyString => true
  end.

Fixpoint valueFrom (a : Z) (s : string) : Z :=
  match s with
  | String c r =>
      valueFrom (10 * a + match digitOf c with Some d => d | None => 0 end) r
  | EmptyString => a
  end.

End JsText.

Module TimeFormat.
Import JsNumber JsText.

Definition parseDuration (duration : string) : jsnum :=
  match split ":" duration with
  | [h; m; s] =>
      plus (plus (times (parseInt h) 3600) (times (parseInt m) 60))
           (parseInt s)
  | [m; s] => plus (times (parseInt m) 60) (parseInt s)
  | _ => Fin 0
  end.

(** [formatTime] for a whole number of seconds: [Math.floor(a / b)] is the
    floor division and [%] the remainder with the sign of the dividend. *)
Definition formatTime (totalSeconds : Z) : string :=
  let hours := (totalSeconds / 3600)%Z in
  let minutes := (Z.rem totalSeconds 3600 / 60)%Z in
  let seconds := Z.rem totalSeconds 60 in
  if (0 <? hours)%Z
  then String.append (toString hours)
         (String ":"
            (String.append (padStart2 (toString minutes))
               (String ":" (padStart2 (toString seconds)))))
  else String.append (toString minutes)
         (String ":" (padStart2 (toString seconds))).

(** What follows the first "PT" of [s]. *)
Fixpoint afterPT (s : string) : option string :=
  match s with
  | String c r =>
      if (code c =? 80)%N then
        match r with
        | String d r' => if (code d =? 84)%N then Some r' else afterPT r
        | EmptyString => None
        end
      else afterPT r
  | EmptyString => None
  end.

(** One optional group [(?:(\d+)X)?] of the pattern, matched at the start
    of [s]: the digits captured, if any, and the text after the group. *)
Definition group (letter : ascii) (s : string) : option string * string :=
  match spanDigits s with
  | (String d ds, String c rest) =>
      if (code c =? code letter)%N then (Some (String d ds), rest)
      else (None, s)
  | _ => (None, s)
  end.

(** [match[i] || "0"] *)
Definition orZero (g : option string) : string :=
  match g with
  | Some s => if s =? EmptyString then "0" else s
  | None => "0"
  end.

(** [x > 0] *)
Definition positive (x : jsnum) : bool :=
  match x with
  | Fin z => (0 <? z)%Z
  | NaN => false
  end.

(** [duration.match(/PT(?:(\d+)H)?(?:(\d+)M)?(?:(\d+)S)?/)] and what is made
    of the three groups. *)
Definition formatDuration (duration : string) : string :=
  match afterPT duration with
  | None => "Unknown"
  | Some r =>
      let '(g1, r1) := group "H" r in
      let '(g2, r2) := group "M" r1 in
      let '(g3, _) := group "S" r2 in
      let hours := parseInt (orZero g1) in
      let minutes := parseInt (orZero g2) in
      let seconds := parseInt (orZero g3) in
      if positive hours
      then String.append (show hours)
             (String ":"
                (String.append (padStart2 (show minutes))
                   (String ":" (padStart2 (show seconds)))))
      else String.append (show minutes)
             (String ":" (padStart2 (show seconds)))
  end.

End TimeFormat.

(** ISO 8601 durations of less than a day, as the YouTube API writes them:
    "PT", then the hours, minutes and seconds that are there, each followed
    by its letter. *)
Module Iso8601.
Import JsText.

Definition field (x : option Z) (letter : ascii) : string :=
  match x with
  | Some v => String.append (toString v) (String letter EmptyString)
  | None => EmptyString
  end.

Definition duration (h m s : option Z) : string :=
  String.append "PT"
    (String.append (field h "H")
       (String.append (field m "M") (field s "S"))).

Definition amount (x : option Z) : Z :=
  match x with
  | Some v => v
  | None => 0
  end.

Definition seconds (h m s : option Z) : Z :=
  (3600 * amount h + 60 * amount m + amount s)%Z.

End Iso8601.

(* ================================================================== *)
(** ** utils/ui.ts: the queue of interactivePlayUI *)

Module QueueUI.
Import JsText.

Record QueueItem := mkItem {
  q_url : string;
  q_title : string;
  q_duration : string;
  q_isPlaying : bool
}.

(** Content of the status box. *)
Inductive statusLine :=
| Idle
| Playing (title : string)
| QueueFinished.

(** A line of the queue box: whether it carries the marker of the current
    song, its number and the title. *)
Record queueLine := mkLine {
  l_current : bool;
  l_number : nat;
  l_title : string
}.

(** The variables of the closure and the content of the two boxes. *)
Record ui := mkUi {
  queue : list QueueItem;
  currentSongIndex : Z;
  statusBox : statusLine;
  queueBox : list queueLine
}.

(** [queue.forEach((item, index) => ...)] of updateQueueDisplay, from
    [index] on. *)
Fixpoint linesFrom (index : nat) (current : Z) (items : list QueueItem)
    : list queueLine :=
  match items with
  | [] => []
  | item :: rest =>
      mkLine (Z.of_nat index =? current)%Z (index + 1) (q_title item)
      :: linesFrom (S index) current rest
  end.

Definition updateQueueDisplay (s : ui) : ui :=
  mkUi (queue s) (currentSongIndex s) (statusBox s)
       (linesFrom 0 (currentSongIndex s) (queue s)).

(** [queue[i]]: undefined outside the array. *)
Definition itemAt (items : list QueueItem) (i : Z) : option QueueItem :=
  if (i <? 0)%Z then None else nth_error items (Z.to_nat i).

(** [playNextSong()]: reading [title] of an undefined song would throw,
    after the index was moved. *)
Definition playNextSong (s : ui) : ui * completion unit :=
  if (currentSongIndex s <? Z.of_nat (length (queue s)) - 1)%Z then
    let i := (currentSongIndex s + 1)%Z in
    match itemAt (queue s) i with
    | Some currentSong =>
        (updateQueueDisplay
           (mkUi (queue s) i (Playing (q_title currentSong)) (queueBox s)),
         Normal tt)
    | None =>
        (mkUi (queue s) i (statusBox s) (queueBox s),
         Throw "TypeError: currentSong is undefined")
    end
  else
    (updateQueueDisplay (mkUi (queue s) (-1) QueueFinished (queueBox s)),
     Normal tt).

Definition addSong (title : string) (s : ui) : ui * completion unit :=
  let pushed :=
    updateQueueDisplay
      (mkUi (queue s ++ [mkItem EmptyString title EmptyString false])
            (currentSongIndex s) (statusBox s) (queueBox s)) in
  if ((currentSongIndex pushed =? -1)%Z
      && (length (queue pushed) =? 1)%nat)%bool
  then playNextSong pushed
  else (pushed, Normal tt).

(** The keys that are bound: "n", "p", and "q" or Ctrl-C. *)
Inductive key := KeyN | KeyP | KeyQ.

(** After a key: the interface goes on, the process has exited, or the
    handler threw. *)
Inductive outcome :=
| Running (s : ui)
| Exited (s : ui) (code : Z)
| Crashed (s : ui) (message : string).

Definition settle (r : ui * completion unit) : outcome :=
  match r with
  | (s, Normal _) => Running s
  | (s, Throw message) => Crashed s message
  | (s, Pending) => Running s
  end.

Definition press (k : key) (s : ui) : outcome :=
  match k with
  | KeyQ => Exited s 0
  | KeyN =>
      settle
        (addSong
           (String.append "Song "
              (toString (Z.of_nat (length (queue s)) + 1)))
           s)
  | KeyP => settle (playNextSong s)
  end.

Fixpoint pressAll (keys : list key) (s : ui) : outcome :=
  match keys with
  | [] => Running s
  | k :: rest =>
      match press k s with
      | Running s1 => pressAll rest s1
      | stopped => stopped
      end
  end.

(** The interface once interactivePlayUI has returned. *)
Definition interactivePlayUI (initialQueue : list QueueItem) : ui :=
  mkUi initialQueue (-1) Idle (linesFrom 0 (-1) initialQueue).

(** The state an outcome carries. *)
Definition stateOf (o : outcome) : ui :=
  match o with
  | Running s => s
  | Exited s _ => s
  | Crashed s _ => s
  end.

(** What holds of the interface between two keys. *)
Definition consistent (initialQueue : list QueueItem) (s : ui) : Prop :=
  (-1 <= currentSongIndex s < Z.of_nat (length (queue s)))%Z
  /\ (exists added,
        queue s = initialQueue ++ added
        /\ forall j item,
             nth_error added j = Some item ->
             item
             = mkItem EmptyString
                 (String.append "Song "
                    (toString (Z.of_nat (length initialQueue + j) + 1)))
                 EmptyString false)
  /\ queueBox s = linesFrom 0 (currentSongIndex s) (queue s)
  /\ match itemAt (queue s) (currentSongIndex s) with
     | Some song => statusBox s = Playing (q_title song)
     | None => statusBox s = Idle \/ statusBox s = QueueFinished
     end.

End QueueUI.

Module QueueSamples.
Import QueueUI.

Definition intro : QueueItem := mkItem EmptyString "Intro" EmptyString false.
Definition outro : QueueItem := mkItem EmptyString "Outro" EmptyString false.

End QueueSamples.

(* ================================================================== *)
(** ** commands/play.ts: playAudioStream *)

Module AudioStream.
Import Runtime JsNumber.

(** [encodeURIComponent(s)] on the UTF-8 bytes of [s]: letters, digits and
    [- _ . ! ~ * ' ( )] stay, any other byte becomes [%XX]. *)
Definition unreserved (c : ascii) : bool :=
  ((65 <=? code c) && (code c <=? 90)
   || (97 <=? code c) && (code c <=? 122)
   || (48 <=? code c) && (code c <=? 57)
   || (code c =? 45) || (code c =? 95) || (code c =? 46) || (code c =? 33)
   || (code c =? 126) || (code c =? 42) || (code c =? 39) || (code c =? 40)
   || (code c =? 41))%N.

Definition hexChar (n : N) : ascii :=
  ascii_of_N (if (n <? 10)%N then 48 + n else 55 + n).

Fixpoint encodeURIComponent (s : string) : string :=
  match s with
  | EmptyString => EmptyString
  | String c r =>
      if unreserved c then String c (encodeURIComponent r)
      else String "%"
             (String (hexChar (code c / 16))
                (String (hexChar (code c mod 16)) (encodeURIComponent r)))
  end.

(** What the spinner and the console show, by template. *)
Inductive notice :=
| Initializing                              (* ora(...).start() *)
| NoPlayerFound                             (* spinner.fail *)
| PlayerRequired                            (* the red box *)
| OpeningWebPlayer (title : string)
| StartingPlayback (player : string)        (* spinner.text *)
| NowPlayingMark (title : string)           (* spinner.succeed *)
| NowPlayingBox (title player : string)     (* the green box *)
| SetupFailed (message : string).           (* spinner.fail in the catch *)

(** What playAudioStream does before it returns, in order. *)
Inductive event (child : Type) :=
| Show (n : notice)
| Exec (command : string)
| Did (e : effect child).
Arguments Show {child} n.
Arguments Exec {child} command.
Arguments Did {child} e.

Definition openCmd (p : platform) : string :=
  match p with
  | Darwin => "open"
  | Win32 => "start"
  | _ => "xdg-open"
  end.

(** The double quote. *)
Definition quote : ascii := ascii_of_N 34.

(** [`${openCmd} "${webUrl}"`] *)
Definition openCommand (p : platform) (title : string) : string :=
  String.append (openCmd p)
    (String.append " "
       (String quote
          (String.append
             (String.append "https://music.youtube.com/search?q="
                (encodeURIComponent title))
             (String quote EmptyString)))).

Section WithHost.

Context {W child : Type} (H : Host W child).

(** The answer to "Open web player instead? (y/n)": [input] rejects when
    the prompt is aborted. *)
Variable input : W -> W * completion string.

(** playAudioStream up to its return; the listeners it registers on the
    process run later. *)
Definition playAudioStream (url title : string) (w : W)
    : W * list (event child) * completion bool :=
  let '(w1, e1, found) := Ytdlp.detectAudioPlayer H w in
  let begun := Show Initializing :: map Did e1 in
  match found with
  | Normal None =>
      let '(w2, openWeb) := input w1 in
      let told := begun ++ [Show NoPlayerFound; Show PlayerRequired] in
      match openWeb with
      | Normal answer =>
          if (answer =? "y") || (answer =? "yes")
          then (w2,
                told ++ [Exec (openCommand (os_platform H w2) title);
                         Show (OpeningWebPlayer title)],
                Normal false)
          else (w2, told, Normal false)
      | Throw message =>
          (w2, told ++ [Show (SetupFailed message)], Normal false)
      | Pending => (w2, told, Pending)
      end
  | Normal (Some audioPlayer) =>
      let '(w2, e2, spawned) :=
        Play.spawnChild H (Play.spawnRequest audioPlayer url) w1 in
      let tried := begun ++ Show (StartingPlayback audioPlayer) :: map Did e2 in
      match spawned with
      | Normal _ =>
          (w2,
           tried ++ [Show (NowPlayingMark title);
                     Show (NowPlayingBox title audioPlayer)],
           Normal true)
      | Throw message =>
          (w2, tried ++ [Show (SetupFailed message)], Normal false)
      | Pending => (w2, tried, Pending)
      end
  | Throw message => (w1, begun ++ [Show (SetupFailed message)], Normal false)
  | Pending => (w1, begun, Pending)
  end.

End WithHost.

(** Reading a trace: the commands given to [exec], the processes spawned. *)
Fixpoint executed {child : Type} (tr : list (event child)) : list string :=
  match tr with
  | [] => []
  | Exec command :: rest => command :: executed rest
  | _ :: rest => executed rest
  end.

Fixpoint spawnedBy {child : Type} (tr : list (event child))
    : list (string * list string * stdio) :=
  match tr with
  | [] => []
  | Did (Spawn command args io) :: rest =>
      (command, args, io) :: spawnedBy rest
  | _ :: rest => spawnedBy rest
  end.

(** The same for the effects of playAndAwait. *)
Fixpoint spawns {child : Type} (tr : list (effect child))
    : list (string * list string * stdio) :=
  match tr with
  | [] => []
  | Spawn command args io :: rest => (command, args, io) :: spawns rest
  | _ :: rest => spawns rest
  end.

(** Characters that end or escape a double-quoted shell word. *)
Definition breaksQuotes (c : ascii) : bool :=
  ((code c =? 34) || (code c =? 36) || (code c =? 96) || (code c =? 92)
   || (code c =? 32) || (code c =? 10))%N.

Fixpoint noneOf (p : ascii -> bool) (s : string) : bool :=
  match s with
  | EmptyString => true
  | String c r => negb (p c) && noneOf p r
  end.

End AudioStream.

Module AudioStreamSamples.

(** The user accepts the web player. *)
Definition yes (w : nat) : nat * completion string := (S w, Normal "y").

End AudioStreamSamples.

(* ================================================================== *)
(** ** Sequences of calls of the store *)

Module StoreCalls.
Import Playlists.

(** A call of one of the operations of src/utils/playlists.ts, with the
    clock readings it gets. *)
Inductive call :=
| Create (now : Z) (createdAt name : string)
| Get (idOrName : string)
| Add (addedAt playlistIdOrName : string) (track : StoredTrack)
| Remove (playlistIdOrName : string) (trackIndex : Z)
| Delete (playlistIdOrName : string).

(** How a call ended, its value forgotten. *)
Definition ended {A : Type} (r : completion A) : completion unit :=
  match r with
  | Normal _ => Normal tt
  | Throw message => Throw message
  | Pending => Pending
  end.

(** The file after the call, and how the call ended. *)
Definition perform (c : call) (f : file) : file * completion unit :=
  match c with
  | Create now createdAt name =>
      let '(f', r) := createPlaylist now createdAt name f in (f', ended r)
  | Get idOrName => (f, ended (getPlaylist idOrName f))
  | Add addedAt key track =>
      let '(f', r) := addTrackToPlaylist addedAt key track f in (f', ended r)
  | Remove key trackIndex => removeTrackFromPlaylist key trackIndex f
  | Delete key => deletePlaylist key f
  end.

(** Calls made one after the other, each on the file the one before left. *)
Fixpoint performAll (cs : list call) (f : file)
    : file * list (completion unit) :=
  match cs with
  | [] => (f, [])
  | c :: rest =>
      let '(f1, r) := perform c f in
      let '(f2, rs) := performAll rest f1 in
      (f2, r :: rs)
  end.

(** The calls that write the file even when no playlist matches. *)
Definition rewrites (c : call) : bool :=
  match c with
  | Create _ _ _ => true
  | Delete _ => true
  | _ => false
  end.

End StoreCalls.

(* ================================================================== *)
(** ** Vocabulary for statements about runs *)

Module Laws.
Import Runtime.

(** A computation that never ends by throwing. *)
Definition neverThrows {child St A : Type} (m : Mon child St A) : Prop :=
  forall s msg, snd (m s) <> Throw msg.

(** The four player names the code knows. *)
Definition knownPlayers : list string := ["afplay"; "cvlc"; "mpv"; "aplay"].

Definition isKill {child : Type} (e : effect child) : bool :=
  match e with
  | Kill _ _ => true
  | _ => false
  end.

Definition isNoPlayerError {child : Type} (e : effect child) : bool :=
  match e with
  | ConsoleError NoAudioPlayerFound => true
  | _ => false
  end.

Definition isSpawn {child : Type} (e : effect child) : bool :=
  match e with
  | Spawn _ _ _ => true
  | _ => false
  end.

End Laws.

(* ================================================================== *)
(** ** Vocabulary for statements about the session *)

Module SessionLaws.
Import Runtime PlaylistCmd.

Section WithHost.
Context {W child : Type}.

(** A step that leaves the [currentChild] slot as it found it. *)
Definition keepsChild {A} (m : @MS W child A) : Prop :=
  forall st, currentChild (snd (fst (fst (m st)))) = currentChild (snd st).

(** A step that, started with an empty slot, ends with an empty slot unless
    it is still suspended. *)
Definition clearsChild {A} (m : @MS W child A) : Prop :=
  forall st,
    currentChild (snd st) = None ->
    snd (m st) <> Pending ->
    currentChild (snd (fst (fst (m st)))) = None.

(** A step that, started with an empty slot, sends no signal to any
    process. *)
Definition killsNothing {A} (m : @MS W child A) : Prop :=
  forall st,
    currentChild (snd st) = None ->
    filter Laws.isKill (effectsOf (m st)) = [].

(** The spawn of a player for a URL, as the playlist loop issues it. *)
Definition playerSpawn (player u : string) : effect child :=
  Spawn player (playerArgs player u) (playerStdio player).

End WithHost.
End SessionLaws.

(* ================================================================== *)
(** * Properties *)

(** ** Base-36 rendering loses nothing *)

Section Radix36.
Import Js.
Local Open Scope N_scope.

Lemma digits36_bound (fuel : nat) (n : N) :
  Forall (fun d => d < 36) (digits36 fuel n).
Proof.
  revert n; induction fuel as [|fuel IH]; intro n; simpl.
  - constructor.
  - destruct (n =? 0); constructor.
    + apply N.mod_lt; discriminate.
    + apply IH.
Qed.

Lemma valueOf_digits36 (fuel : nat) (n : N) :
  n < 2 ^ N.of_nat fuel -> valueOf (digits36 fuel n) = n.
Proof.
  revert n; induction fuel as [|fuel IH]; intros n Hn.
  - simpl in *. lia.
  - cbn [digits36]. destruct (N.eqb_spec n 0) as [->|Hnz]; [reflexivity|].
    cbn [valueOf]. rewrite IH.
    + pose proof (N.div_mod n 36). lia.
    + rewrite Nat2N.inj_succ, N.pow_succ_r' in Hn.
      apply N.Div0.div_lt_upper_bound. lia.
Qed.

Lemma charDigit_digitChar (d : N) : d < 36 -> charDigit (digitChar d) = d.
Proof.
  intro Hd. unfold charDigit, digitChar.
  destruct (N.ltb_spec d 10).
  - rewrite N_ascii_embedding by lia.
    destruct (N.ltb_spec (48 + d) 58); lia.
  - rewrite N_ascii_embedding by lia.
    destruct (N.ltb_spec (87 + d) 58); lia.
Qed.

Lemma digitChar_not_minus (d : N) : d < 36 -> digitChar d <> "-"%char.
Proof.
  intros Hd E. apply (f_equal N_of_ascii) in E. unfold digitChar in E.
  change (N_of_ascii "-") with 45 in E.
  destruct (N.ltb_spec d 10); rewrite N_ascii_embedding in E by lia; lia.
Qed.

Lemma map_charDigit_digitChar (ds : list N) :
  Forall (fun d => d < 36) ds -> map charDigit (map digitChar ds) = ds.
Proof.
  induction 1 as [|d ds Hd _ IH]; simpl.
  - reflexivity.
  - now rewrite charDigit_digitChar, IH.
Qed.

Lemma parse36_render36 (n : N) : parse36 (render36 n) = n.
Proof.
  unfold parse36, render36.
  destruct (N.eqb_spec n 0) as [->|Hnz]; [reflexivity|].
  rewrite list_ascii_of_string_of_list_ascii, rev_involutive.
  rewrite map_charDigit_digitChar by apply digits36_bound.
  apply valueOf_digits36. rewrite N2Nat.id. apply N.size_gt.
Qed.

Lemma render36_inj (n m : N) : render36 n = render36 m -> n = m.
Proof.
  intro E. rewrite <- (parse36_render36 n), <- (parse36_render36 m).
  now rewrite E.
Qed.

Lemma render36_no_sign (n : N) (s : string) :
  render36 n <> String "-"%char s.
Proof.
  unfold render36. destruct (N.eqb_spec n 0) as [->|Hnz]; [discriminate|].
  intro E. apply (f_equal list_ascii_of_string) in E.
  rewrite list_ascii_of_string_of_list_ascii in E. simpl in E.
  assert (Hall : Forall (fun c => c <> "-"%char)
                   (rev (map digitChar (digits36 (N.to_nat (N.size n)) n)))).
  { apply Forall_rev, Forall_map.
    eapply Forall_impl; [|apply digits36_bound].
    intros d Hd. now apply digitChar_not_minus. }
  rewrite E in Hall. inversion Hall as [|c l Hc _]. now apply Hc.
Qed.

Lemma toString36_inj (a b : Z) : toString36 a = toString36 b -> a = b.
Proof.
  unfold toString36.
  destruct (Z.ltb_spec a 0), (Z.ltb_spec b 0); intro E.
  - injection E as E. apply render36_inj in E. lia.
  - symmetry in E. now apply render36_no_sign in E.
  - now apply render36_no_sign in E.
  - apply render36_inj in E. lia.
Qed.

End Radix36.

(** ** The playlist store *)

Section Store.
Import Playlists.

Lemma findIndex_first {A} (f : A -> bool) (before : list A) (x : A)
    (after : list A) :
  (forall y, In y before -> f y = false) -> f x = true ->
  Js.findIndex f (before ++ x :: after) = Some (length before).
Proof.
  induction before as [|y before IH]; intros Hb Hx; simpl.
  - now rewrite Hx.
  - rewrite (Hb y) by now left. rewrite IH; auto.
    intros z Hz. apply Hb. now right.
Qed.

Lemma find_first {A} (f : A -> bool) (before : list A) (x : A)
    (after : list A) :
  (forall y, In y before -> f y = false) -> f x = true ->
  find f (before ++ x :: after) = Some x.
Proof.
  induction before as [|y before IH]; intros Hb Hx; simpl.
  - now rewrite Hx.
  - rewrite (Hb y) by now left. apply IH; auto.
    intros z Hz. apply Hb. now right.
Qed.

Lemma updateAt_middle {A} (g : A -> A) (before : list A) (x : A)
    (after : list A) :
  Js.updateAt (length before) g (before ++ x :: after) = before ++ g x :: after.
Proof.
  induction before as [|y before IH]; simpl; [reflexivity|now rewrite IH].
Qed.

Lemma nth_error_middle {A} (before : list A) (x : A) (after : list A) :
  nth_error (before ++ x :: after) (length before) = Some x.
Proof.
  induction before as [|y before IH]; simpl; auto.
Qed.

Lemma filter_all_kept {A} (f : A -> bool) (l : list A) :
  (forall x, In x l -> f x = true) -> filter f l = l.
Proof.
  induction l as [|x l IH]; intro Hl; simpl; [reflexivity|].
  rewrite (Hl x) by now left. f_equal. apply IH.
  intros y Hy. apply Hl. now right.
Qed.

Lemma keep_is_not_match (key : string) (p : Playlist) :
  negb (p_id p =? key) && negb (p_name p =? key) = negb (matches key p).
Proof. unfold matches. now rewrite negb_orb. Qed.

End Store.

Section StoreClaims.
Import Playlists.

Example toString36_of_a_clock_reading :
  Js.toString36 1730548800000 = "m3042o00".
Proof. reflexivity. Qed.

(** C9, as stated, fails: two playlists created while the clock shows the
    same millisecond are different playlists with the same id. *)
Lemma createPlaylist_same_millisecond_clash :
  exists f1 p1 f2 p2,
    createPlaylist 1730548800000 "2024-11-02T12:00:00.000Z" "rock" Unreadable
      = (f1, Normal p1) /\
    createPlaylist 1730548800000 "2024-11-02T12:00:00.000Z" "jazz" f1
      = (f2, Normal p2) /\
    f2 = Holds (Lists [p1; p2]) /\
    p1 <> p2 /\
    p_id p1 = p_id p2.
Proof.
  do 4 eexists. repeat split; try reflexivity. discriminate.
Qed.

(** C9 (amended): the id createPlaylist gives a new playlist is the clock
    reading [Date.now()] written in base 36, so two created playlists have
    different ids exactly when they were created at different clock
    readings; the new playlist carries the given name, has no tracks and is
    appended to the persisted collection. *)
Theorem createPlaylist_id_is_clock_reading
    (now1 now2 : Z) (c1 c2 n1 n2 : string) (f1 f2 g1 g2 : file)
    (p1 p2 : Playlist) :
  createPlaylist now1 c1 n1 f1 = (g1, Normal p1) ->
  createPlaylist now2 c2 n2 f2 = (g2, Normal p2) ->
  p_id p1 = Js.toString36 now1 /\
  p_name p1 = n1 /\
  p_tracks p1 = [] /\
  (exists lists, asArray (loadPlaylists f1) = Normal lists
                 /\ g1 = Holds (Lists (lists ++ [p1]))) /\
  (p_id p1 = p_id p2 <-> now1 = now2).
Proof.
  unfold createPlaylist. intros E1 E2.
  destruct (asArray (loadPlaylists f1)) as [l1| |] eqn:A1; try discriminate.
  destruct (asArray (loadPlaylists f2)) as [l2| |] eqn:A2; try discriminate.
  injection E1 as <- <-. injection E2 as <- <-. cbn [p_id p_name p_tracks].
  repeat split; try reflexivity.
  - exists l1. split; reflexivity.
  - apply toString36_inj.
  - now intros ->.
Qed.

Lemma createPlaylist_id_is_clock_reading_witness :
  Js.toString36 1730548800000 = Js.toString36 1730548800001 <->
  1730548800000%Z = 1730548800001%Z.
Proof.
  pose proof (createPlaylist_id_is_clock_reading
                1730548800000 1730548800001 "c" "c" "rock" "jazz"
                Unreadable Unreadable _ _ _ _ eq_refl eq_refl) as (_ & _ & _ & _ & E).
  exact E.
Defined.

(** C10: deletePlaylist keeps exactly the playlists whose id and name both
    differ from the key, in their order, so every match is removed; with no
    match the collection written back is the one read.  getPlaylist,
    addTrackToPlaylist and removeTrackFromPlaylist act on the first match
    only and leave later matches as they are. *)
Theorem deletePlaylist_removes_every_match (key : string)
    (lists : list Playlist) :
  let remaining := filter (fun p => negb (matches key p)) lists in
  deletePlaylist key (Holds (Lists lists)) = (Holds (Lists remaining), Normal tt)
  /\ (forall p, In p remaining <-> In p lists /\ matches key p = false)
  /\ ((forall p, In p lists -> matches key p = false) ->
      deletePlaylist key (Holds (Lists lists))
        = (Holds (Lists lists), Normal tt))
  /\ deletePlaylist key Unreadable = (Holds (Lists []), Normal tt)
  /\ (forall before p after,
        lists = before ++ p :: after ->
        (forall q, In q before -> matches key q = false) ->
        matches key p = true ->
        getPlaylist key (Holds (Lists lists)) = Normal (Some p)
        /\ (forall addedAt track,
              addTrackToPlaylist addedAt key track (Holds (Lists lists))
              = (Holds (Lists (before ++ pushTrack (stamp track addedAt) p
                                 :: after)),
                 Normal (pushTrack (stamp track addedAt) p)))
        /\ (forall i : nat,
              i < length (p_tracks p) ->
              removeTrackFromPlaylist key (Z.of_nat i) (Holds (Lists lists))
              = (Holds (Lists (before ++ spliceTrack i p :: after)),
                 Normal tt))).
Proof.
  intro remaining.
  assert (Hdel : deletePlaylist key (Holds (Lists lists))
                 = (Holds (Lists remaining), Normal tt)).
  { unfold deletePlaylist, savePlaylists, remaining; simpl. do 3 f_equal.
    apply filter_ext. intro p. apply keep_is_not_match. }
  split; [exact Hdel|]. split; [|split; [|split]].
  - intro p. unfold remaining. rewrite filter_In, negb_true_iff. tauto.
  - intro Hnone. rewrite Hdel. unfold remaining.
    rewrite filter_all_kept; [reflexivity|].
    intros p Hp. now rewrite (Hnone p Hp).
  - reflexivity.
  - intros before p after -> Hbefore Hp. split; [|split].
    + unfold getPlaylist; simpl. now rewrite find_first.
    + intros addedAt track. unfold addTrackToPlaylist; simpl.
      rewrite findIndex_first by assumption.
      now rewrite nth_error_middle, updateAt_middle.
    + intros i Hi. unfold removeTrackFromPlaylist; simpl.
      rewrite findIndex_first by assumption.
      rewrite nth_error_middle.
      destruct (Z.ltb_spec (Z.of_nat i) 0); [lia|].
      destruct (Z.leb_spec (Z.of_nat (length (p_tracks p))) (Z.of_nat i));
        [lia|].
      simpl. now rewrite Nat2Z.id, updateAt_middle.
Qed.

Lemma deletePlaylist_removes_every_match_witness :
  let rock1 := Samples.rock1 in
  let rock2 := Samples.rock2 in
  let jazz := Samples.jazz in
  deletePlaylist "blues" (Holds (Lists [rock1; jazz; rock2]))
    = (Holds (Lists [rock1; jazz; rock2]), Normal tt)
  /\ deletePlaylist "rock" (Holds (Lists [jazz; rock1; rock2]))
    = (Holds (Lists [jazz]), Normal tt)
  /\ getPlaylist "rock" (Holds (Lists [jazz; rock1; rock2]))
    = Normal (Some rock1).
Proof.
  intros rock1 rock2 jazz. split; [|split].
  - apply (deletePlaylist_removes_every_match "blues" [rock1; jazz; rock2]).
    intros p [<-|[<-|[<-|[]]]]; reflexivity.
  - apply (deletePlaylist_removes_every_match "rock" [jazz; rock1; rock2]).
  - apply (deletePlaylist_removes_every_match "rock" [jazz; rock1; rock2])
      with (before := [jazz]) (after := [rock2]).
    + reflexivity.
    + intros q [<-|[]]; reflexivity.
    + reflexivity.
Defined.

End StoreClaims.

(** ** The monad: how composed calls run *)

Section MonadFacts.
Import Runtime.
Context {child St : Type}.

Lemma bind_run {A B} (m : Mon child St A) (k : A -> Mon child St B) (s s1 : St)
    (e1 : list (effect child)) (a : A) :
  m s = (s1, e1, Normal a) ->
  bind m k s = (let '(s2, e2, r2) := k a s1 in (s2, e1 ++ e2, r2)).
Proof. intro E. unfold bind. now rewrite E. Qed.

Lemma bind_throw {A B} (m : Mon child St A) (k : A -> Mon child St B)
    (s s1 : St) (e1 : list (effect child)) (msg : string) :
  m s = (s1, e1, Throw msg) -> bind m k s = (s1, e1, Throw msg).
Proof. intro E. unfold bind. now rewrite E. Qed.

Lemma bind_pending {A B} (m : Mon child St A) (k : A -> Mon child St B)
    (s s1 : St) (e1 : list (effect child)) :
  m s = (s1, e1, Pending) -> bind m k s = (s1, e1, Pending).
Proof. intro E. unfold bind. now rewrite E. Qed.

(** A [try] whose handler cannot throw cannot throw. *)
Lemma tryCatch_no_throw {A} (m : Mon child St A) (h : string -> Mon child St A) :
  (forall msg s msg', snd (h msg s) <> Throw msg') ->
  forall s msg', snd (tryCatch m h s) <> Throw msg'.
Proof.
  intros Hh s msg'. unfold tryCatch.
  destruct (m s) as [[s1 e1] [a|msg|]]; simpl; try discriminate.
  specialize (Hh msg s1 msg').
  destruct (h msg s1) as [[s2 e2] r2]; simpl in *. exact Hh.
Qed.

End MonadFacts.

(** ** detectAudioPlayer *)

Section Detect.
Import Runtime Ytdlp.
Local Open Scope mon_scope.
Context {W child : Type} (H : Host W child).

Lemma probeListener_settled (player : string) (evs : list childEvent)
    (r : completion string) :
  fold_left (probeListener player) evs (Some r) = Some r.
Proof.
  induction evs as [|e evs IH]; simpl; [reflexivity|].
  destruct e as [msg|[[| |]|]|code]; simpl; exact IH.
Qed.

(** A version check is decided by the first "close" or "error" event. *)
Lemma probeListener_first_heard (player : string) (evs : list childEvent) :
  awaited (fold_left (probeListener player) evs None)
  = match firstHeard evs with
    | Some (OnClose (Some 0%Z)) => Normal player
    | Some (OnClose _) => Throw EmptyString
    | Some (OnError msg) => Throw msg
    | _ => Pending
    end.
Proof.
  induction evs as [|e evs IH]; simpl; [reflexivity|].
  destruct e as [msg|[[| |]|]|code]; simpl;
    try (rewrite probeListener_settled; reflexivity).
  exact IH.
Qed.

Lemma probe_effects (player : string) (w : W) :
  snd (fst (probe H player w)) = [versionCheck player].
Proof.
  unfold probe. destruct (spawn H w player ["--version"] IgnoreAll) as [w1 [t|m]].
  - destruct (events H w1 t) as [w2 evs]. reflexivity.
  - reflexivity.
Qed.

Lemma detectLoop_step_rejected (player msg : string) (rest : list string)
    (w w1 : W) (e : list (effect child)) :
  probe H player w = (w1, e, Throw msg) ->
  detectLoop H (player :: rest) w
  = (let '(w2, e2, r2) := detectLoop H rest w1 in
     (w2, versionCheck player :: e2, r2)).
Proof.
  intro E. pose proof (probe_effects player w) as Heff.
  rewrite E in Heff. simpl in Heff. subst e.
  cbn [detectLoop]. unfold tryCatch.
  rewrite (bind_throw _ _ _ _ _ _ E).
  destruct (detectLoop H rest w1) as [[w2 e2] r2]. reflexivity.
Qed.

Lemma detectLoop_step_found (player found : string) (rest : list string)
    (w w1 : W) (e : list (effect child)) :
  probe H player w = (w1, e, Normal found) ->
  detectLoop H (player :: rest) w
  = (w1, [versionCheck player], Normal (Some player)).
Proof.
  intro E. pose proof (probe_effects player w) as Heff.
  rewrite E in Heff. simpl in Heff. subst e.
  cbn [detectLoop]. unfold tryCatch.
  rewrite (bind_run _ _ _ _ _ _ E). reflexivity.
Qed.

Lemma detectLoop_first_success (before : list string) (c found : string)
    (after : list string) (w w1 w2 : W) (e : list (effect child)) :
  rejectedInTurn H w before w1 ->
  probe H c w1 = (w2, e, Normal found) ->
  detectLoop H (before ++ c :: after) w
  = (w2, map versionCheck (before ++ [c]), Normal (Some c)).
Proof.
  intros Hrej Hc. induction Hrej as [w|w wa wb player msg e' rest Hp _ IH].
  - simpl. eapply detectLoop_step_found; eassumption.
  - simpl app. rewrite (detectLoop_step_rejected _ _ _ _ _ _ Hp).
    rewrite (IH Hc). reflexivity.
Qed.

Lemma detectLoop_all_rejected (candidates : list string) (w w1 : W) :
  rejectedInTurn H w candidates w1 ->
  detectLoop H candidates w = (w1, map versionCheck candidates, Normal None).
Proof.
  induction 1 as [w|w wa wb player msg e' rest Hp _ IH].
  - reflexivity.
  - rewrite (detectLoop_step_rejected _ _ _ _ _ _ Hp), IH. reflexivity.
Qed.

Lemma detectLoop_never_throws (candidates : list string) (w : W) (msg : string) :
  snd (detectLoop H candidates w) <> Throw msg.
Proof.
  revert w msg; induction candidates as [|player rest IH]; intros w msg.
  - discriminate.
  - cbn [detectLoop]. apply tryCatch_no_throw. intros _ s msg'. apply IH.
Qed.

Lemma detectAudioPlayer_run (w : W) :
  detectAudioPlayer H w
  = (let '(w1, e1, r) := detectLoop H (availablePlayers (os_platform H w)) w in
     (w1, DetectCalled :: e1, r)).
Proof. reflexivity. Qed.

(** C8: the candidate lists; the version checks run in list order; the first
    candidate whose check exits with status 0 is returned and no later one is
    checked; a check that fails to spawn, reports an error or exits with
    another status only moves on; with no success the result is null; and no
    call of detectAudioPlayer throws. *)
Theorem detectAudioPlayer_contract (w w1 w2 : W) (before after : list string)
    (c : string) (e : list (effect child)) :
  (availablePlayers Darwin = ["afplay"; "cvlc"; "mpv"]
   /\ availablePlayers Linux = ["cvlc"; "mpv"; "aplay"]
   /\ availablePlayers Win32 = ["cvlc"; "mpv"]
   /\ forall p, p <> Darwin -> p <> Linux -> p <> Win32 ->
                availablePlayers p = availablePlayers Linux)
  /\ (forall msg, snd (detectAudioPlayer H w) <> Throw msg)
  /\ (availablePlayers (os_platform H w) = before ++ c :: after ->
      rejectedInTurn H w before w1 ->
      probe H c w1 = (w2, e, Normal c) ->
      detectAudioPlayer H w
      = (w2, DetectCalled :: map versionCheck (before ++ [c]), Normal (Some c)))
  /\ (rejectedInTurn H w (availablePlayers (os_platform H w)) w1 ->
      detectAudioPlayer H w
      = (w1, DetectCalled :: map versionCheck (availablePlayers (os_platform H w)),
         Normal None))
  /\ (forall player wa wb test evs,
        spawn H wa player ["--version"] IgnoreAll = (wb, inl test) ->
        events H wb test = (w2, evs) ->
        probe H player wa
        = (w2, [versionCheck player],
           match firstHeard evs with
           | Some (OnClose (Some 0%Z)) => Normal player
           | Some (OnClose _) => Throw EmptyString
           | Some (OnError msg) => Throw msg
           | _ => Pending
           end))
  /\ (forall player wa wb msg,
        spawn H wa player ["--version"] IgnoreAll = (wb, inr msg) ->
        probe H player wa = (wb, [versionCheck player], Throw msg)).
Proof.
  split; [|split; [|split; [|split; [|split]]]].
  - repeat split. intros p N1 N2 N3. destruct p; try reflexivity; contradiction.
  - intro msg. rewrite detectAudioPlayer_run.
    pose proof (detectLoop_never_throws (availablePlayers (os_platform H w)) w msg)
      as Hn.
    destruct (detectLoop H (availablePlayers (os_platform H w)) w) as [[wa ea] r].
    exact Hn.
  - intros Hcands Hrej Hc. rewrite detectAudioPlayer_run, Hcands.
    now rewrite (detectLoop_first_success _ _ _ after _ _ _ _ Hrej Hc).
  - intro Hrej. rewrite detectAudioPlayer_run.
    now rewrite (detectLoop_all_rejected _ _ _ Hrej).
  - intros player wa wb test evs Hs He. unfold probe. rewrite Hs, He.
    now rewrite probeListener_first_heard.
  - intros player wa wb msg Hs. unfold probe. now rewrite Hs.
Qed.

End Detect.

Lemma detectAudioPlayer_contract_witness :
  Ytdlp.detectAudioPlayer (Samples.host Samples.onlyMpv Samples.quiet
                             Playlists.Unreadable) 0
  = (4, [Runtime.DetectCalled; Ytdlp.versionCheck "cvlc";
         Ytdlp.versionCheck "mpv"], Normal (Some "mpv"))
  /\ Ytdlp.detectAudioPlayer (Samples.host Samples.nothing Samples.quiet
                                Playlists.Unreadable) 0
  = (6, [Runtime.DetectCalled; Ytdlp.versionCheck "cvlc";
         Ytdlp.versionCheck "mpv"; Ytdlp.versionCheck "aplay"], Normal None)
  /\ Ytdlp.availablePlayers Runtime.FreeBSD = ["cvlc"; "mpv"; "aplay"].
Proof.
  split; [|split].
  - apply (detectAudioPlayer_contract
             (Samples.host Samples.onlyMpv Samples.quiet Playlists.Unreadable)
             0 2 4 ["cvlc"] ["aplay"] "mpv" [Ytdlp.versionCheck "mpv"]).
    + reflexivity.
    + eapply Ytdlp.rejected_next; [reflexivity|apply Ytdlp.rejected_none].
    + reflexivity.
  - apply (detectAudioPlayer_contract
             (Samples.host Samples.nothing Samples.quiet Playlists.Unreadable)
             0 6 6 [] [] EmptyString []).
    eapply Ytdlp.rejected_next; [reflexivity|].
    eapply Ytdlp.rejected_next; [reflexivity|].
    eapply Ytdlp.rejected_next; [reflexivity|apply Ytdlp.rejected_none].
  - apply (detectAudioPlayer_contract
             (Samples.host Samples.nothing Samples.quiet Playlists.Unreadable)
             0 0 0 [] [] EmptyString []); discriminate.
Defined.

(** ** playAndAwait *)

Section PlayAndAwait.
Import Runtime Play.
Local Open Scope mon_scope.
Context {W child : Type} (H : Host W child).

Lemma listener_after_finished (evs : list childEvent) (st : awaitState)
    (out : list (effect child)) :
  finished st = true -> fold_left listener evs (st, out) = (st, out).
Proof.
  intro Hf. induction evs as [|e evs IH]; simpl; [reflexivity|].
  now rewrite Hf.
Qed.

(** Only the first event reaches [resolve]. *)
Lemma dispatch_first (e : childEvent) (evs : list childEvent) :
  @dispatch child (e :: evs)
  = (mkAwait true (Some (verdict e)) 1,
     match e with
     | OnError msg => [ConsoleError (PlaybackFailed msg)]
     | _ => []
     end).
Proof.
  unfold dispatch. cbn [fold_left].
  destruct e as [msg|code|code]; cbn [listener finished];
    now rewrite listener_after_finished.
Qed.

Lemma dispatch_calls (evs : list childEvent) :
  resolveCalls (fst (@dispatch child evs)) <= 1.
Proof.
  destruct evs as [|e evs]; [simpl; lia|].
  rewrite dispatch_first. simpl. lia.
Qed.

Lemma playAndAwait_never_throws (url title : string) (w : W) (msg : string) :
  snd (playAndAwait H url title w) <> Throw msg.
Proof.
  unfold playAndAwait. apply tryCatch_no_throw.
  intros m s m'. discriminate.
Qed.

Lemma playAndAwait_no_player (url title : string) (w w1 : W)
    (e1 : list (effect child)) :
  Ytdlp.detectAudioPlayer H w = (w1, e1, Normal None) ->
  playAndAwait H url title w
  = (w1, e1 ++ [ConsoleError NoAudioPlayerFound], Normal false).
Proof.
  intro Hd. unfold playAndAwait, tryCatch.
  rewrite (bind_run _ _ _ _ _ _ Hd). reflexivity.
Qed.

Lemma playAndAwait_spawned (url title player : string) (w w1 w2 w3 : W)
    (e1 : list (effect child)) (c : child) (evs : list childEvent) :
  Ytdlp.detectAudioPlayer H w = (w1, e1, Normal (Some player)) ->
  (let '(cmd, args, io) := spawnRequest player url in
   spawn H w1 cmd args io = (w2, inl c)) ->
  events H w2 c = (w3, evs) ->
  playAndAwait H url title w
  = (w3,
     e1 ++ (let '(cmd, args, io) := spawnRequest player url in
            [Spawn cmd args io]) ++ snd (dispatch evs),
     match outcome (fst (@dispatch child evs)) with
     | Some b => Normal b
     | None => Pending
     end).
Proof.
  intros Hd Hs He. unfold playAndAwait, tryCatch.
  rewrite (bind_run _ _ _ _ _ _ Hd).
  unfold bind, spawnChild, awaitOutcome.
  destruct (spawnRequest player url) as [[cmd args] io].
  rewrite Hs, He. destruct (dispatch evs) as [st out]. simpl.
  destruct (outcome st); reflexivity.
Qed.

Lemma playAndAwait_spawn_throws (url title player err : string) (w w1 w2 : W)
    (e1 : list (effect child)) :
  Ytdlp.detectAudioPlayer H w = (w1, e1, Normal (Some player)) ->
  (let '(cmd, args, io) := spawnRequest player url in
   spawn H w1 cmd args io = (w2, inr err)) ->
  playAndAwait H url title w
  = (w2,
     (e1 ++ (let '(cmd, args, io) := spawnRequest player url in
             [Spawn cmd args io]))
     ++ [ConsoleError (PlaybackErrorMsg err)],
     Normal false).
Proof.
  intros Hd Hs. unfold playAndAwait, tryCatch.
  rewrite (bind_run _ _ _ _ _ _ Hd).
  unfold bind, spawnChild.
  destruct (spawnRequest player url) as [[cmd args] io].
  rewrite Hs. reflexivity.
Qed.

(** C6: playAndAwait never rejects; [resolve] is called at most once
    whatever events the child emits, and exactly once, by the first event,
    as soon as one fires: an error gives false, an end with code 0 gives
    true, any other end gives false; with no player, or when spawn throws,
    the result is false.  The call stays pending only while the child (or
    a version check of the discovery) has emitted nothing. *)
Theorem playAndAwait_resolves_once (url title : string) (w : W)
    (e : childEvent) (evs : list childEvent) :
  (forall msg, snd (playAndAwait H url title w) <> Throw msg)
  /\ resolveCalls (fst (@dispatch child evs)) <= 1
  /\ (resolveCalls (fst (@dispatch child (e :: evs))) = 1
      /\ outcome (fst (@dispatch child (e :: evs))) = Some (verdict e))
  /\ ((forall msg, verdict (OnError msg) = false)
      /\ verdict (OnClose (Some 0%Z)) = true
      /\ verdict (OnExit (Some 0%Z)) = true
      /\ (forall code, code <> Some 0%Z ->
            verdict (OnClose code) = false /\ verdict (OnExit code) = false))
  /\ (forall player w1 w2 w3 e1 c,
        Ytdlp.detectAudioPlayer H w = (w1, e1, Normal (Some player)) ->
        (let '(cmd, args, io) := spawnRequest player url in
         spawn H w1 cmd args io = (w2, inl c)) ->
        events H w2 c = (w3, e :: evs) ->
        snd (playAndAwait H url title w) = Normal (verdict e))
  /\ (forall player w1 w2 e1 err,
        Ytdlp.detectAudioPlayer H w = (w1, e1, Normal (Some player)) ->
        (let '(cmd, args, io) := spawnRequest player url in
         spawn H w1 cmd args io = (w2, inr err)) ->
        snd (playAndAwait H url title w) = Normal false)
  /\ (forall w1 e1,
        Ytdlp.detectAudioPlayer H w = (w1, e1, Normal None) ->
        snd (playAndAwait H url title w) = Normal false)
  /\ (forall player w1 w2 w3 e1 c,
        Ytdlp.detectAudioPlayer H w = (w1, e1, Normal (Some player)) ->
        (let '(cmd, args, io) := spawnRequest player url in
         spawn H w1 cmd args io = (w2, inl c)) ->
        events H w2 c = (w3, []) ->
        snd (playAndAwait H url title w) = Pending)
  /\ (forall w1 e1,
        Ytdlp.detectAudioPlayer H w = (w1, e1, Pending) ->
        snd (playAndAwait H url title w) = Pending).
Proof.
  split; [|split; [|split; [|split; [|split; [|split; [|split; [|split]]]]]]].
  - apply playAndAwait_never_throws.
  - apply dispatch_calls.
  - rewrite dispatch_first. split; reflexivity.
  - repeat split; try reflexivity;
      destruct code as [[| |]|]; try reflexivity; contradiction.
  - intros player w1 w2 w3 e1 c Hd Hs He.
    rewrite (playAndAwait_spawned _ _ _ _ _ _ _ _ _ _ Hd Hs He).
    rewrite dispatch_first. reflexivity.
  - intros player w1 w2 e1 err Hd Hs.
    now rewrite (playAndAwait_spawn_throws _ _ _ _ _ _ _ _ Hd Hs).
  - intros w1 e1 Hd. now rewrite (playAndAwait_no_player _ _ _ _ _ Hd).
  - intros player w1 w2 w3 e1 c Hd Hs He.
    now rewrite (playAndAwait_spawned _ _ _ _ _ _ _ _ _ _ Hd Hs He).
  - intros w1 e1 Hd. unfold playAndAwait, tryCatch.
    now rewrite (bind_pending _ _ _ _ _ Hd).
Qed.

End PlayAndAwait.

Lemma playAndAwait_resolves_once_witness :
  snd (Play.playAndAwait
         (Samples.host Samples.onlyMpv Samples.quiet Playlists.Unreadable)
         "https://stream/a" "A" 0) = Normal true
  /\ snd (Play.playAndAwait
            (Samples.host Samples.nothing Samples.quiet Playlists.Unreadable)
            "https://stream/a" "A" 0) = Normal false
  /\ Play.verdict (Runtime.OnClose None) = false.
Proof.
  split; [|split].
  - eapply (playAndAwait_resolves_once
              (Samples.host Samples.onlyMpv Samples.quiet Playlists.Unreadable)
              "https://stream/a" "A" 0
              (Runtime.OnExit (Some 0%Z)) [Runtime.OnClose (Some 0%Z)]);
      reflexivity.
  - eapply (playAndAwait_resolves_once
              (Samples.host Samples.nothing Samples.quiet Playlists.Unreadable)
              "https://stream/a" "A" 0
              (Runtime.OnExit None) []);
      reflexivity.
  - apply (playAndAwait_resolves_once
              (Samples.host Samples.nothing Samples.quiet Playlists.Unreadable)
              EmptyString EmptyString 0 (Runtime.OnExit None) []).
    discriminate.
Defined.

(** ** Playlist continuation *)

Section Continuation.
Import Runtime Playlists Play.
Local Open Scope mon_scope.
Context {W child : Type} (H : Host W child).






Lemma continuation_run (selectedId : string) (w : W) (lists : list Playlist) :
  loadPlaylists (playlistsFile H w) = Lists lists ->
  continuation H selectedId w
  = match find (hasTrack selectedId) lists with
    | Some containing =>
        match Js.findIndex (fun t => Js.strictEq (t_id t) selectedId)
                           (p_tracks containing) with
        | Some idx =>
            if (Z.of_nat idx <? Z.of_nat (length (p_tracks containing)) - 1)%Z
            then
              (emit (ConsoleLog (ContinuingPlaylist (p_name containing))) ;;
               continueLoop H (p_tracks containing)
                 (length (p_tracks containing) - (idx + 1)) (idx + 1) ;;
               emit (ConsoleLog PlaylistFinished)) w
            else (w, [], Normal tt)
        | None => (w, [], Normal tt)
        end
    | None => (w, [], Normal tt)
    end.
Proof.
  intro Hl. unfold continuation, listPlaylists, Playlists.listPlaylists.
  unfold bind at 1. rewrite Hl. unfold liftCompletion, arrayFor.
  unfold bind at 1.
  destruct (find (hasTrack selectedId) lists) as [containing|];
    [|reflexivity].
  destruct (Js.findIndex _ (p_tracks containing)) as [idx|]; [|reflexivity].
  destruct (Z.of_nat idx <? Z.of_nat (length (p_tracks containing)) - 1)%Z.
  - destruct ((emit (ConsoleLog (ContinuingPlaylist (p_name containing))) ;;
               continueLoop H (p_tracks containing)
                 (length (p_tracks containing) - (idx + 1)) (idx + 1) ;;
               emit (ConsoleLog PlaylistFinished)) w) as [[w2 e2] r2].
    reflexivity.
  - reflexivity.
Qed.


End Continuation.


(** ** Continuation never changes the outcome of the selected track *)

Section ContinuationIsBestEffort.
Import Runtime Playlists Play.
Local Open Scope mon_scope.
Context {W child : Type} (H : Host W child).

Lemma handleYouTubeStream_run (audioUrl title selectedId : string) (w w1 : W)
    (e1 : list (effect child)) (b : bool) :
  playAndAwait H audioUrl title w = (w1, e1, Normal b) ->
  handleYouTubeStream H audioUrl title selectedId w
  = (let '(w2, e2, r2) := continuation H selectedId w1 in
     match r2 with
     | Normal _ => (w2, e1 ++ e2, Normal b)
     | Throw _ => (w2, e1 ++ e2, Normal b)
     | Pending => (w2, e1 ++ e2, Pending)
     end).
Proof.
  intro Hp. unfold handleYouTubeStream. rewrite (bind_run _ _ _ _ _ _ Hp).
  unfold bind, tryCatch, ret.
  destruct (continuation H selectedId w1) as [[w2 e2] [[]|m|]]; simpl;
    rewrite ?app_nil_r; reflexivity.
Qed.

Lemma continuation_unreadable (selectedId : string) (w : W) :
  playlistsFile H w = Unreadable ->
  continuation H selectedId w = (w, [], Normal tt).
Proof.
  intro Hf. apply (continuation_run H selectedId w []).
  now rewrite Hf.
Qed.

Lemma continuation_not_an_array (selectedId : string) (w : W) :
  playlistsFile H w = Holds NotAnArray ->
  continuation H selectedId w
  = (w, [], Throw "playlists.find is not a function").
Proof.
  intro Hf. unfold continuation, listPlaylists, Playlists.listPlaylists.
  unfold bind at 1. rewrite Hf. reflexivity.
Qed.

Lemma continuation_null (selectedId : string) (w : W) :
  playlistsFile H w = Holds Null ->
  continuation H selectedId w
  = (w, [], Throw "Cannot read properties of null (reading 'find')").
Proof.
  intro Hf. unfold continuation, listPlaylists, Playlists.listPlaylists.
  unfold bind at 1. rewrite Hf. reflexivity.
Qed.

(** C4: handleYouTubeStream, once the selected track has been played with
    result [played], returns [played] whether the continuation attempt ends
    normally or throws (unreadable store, a store that is not an array, a
    failed resolution of a continuation track); it never throws. *)
Theorem continuation_is_best_effort (audioUrl title selectedId : string)
    (w w1 : W) (e1 : list (effect child)) (played : bool) :
  playAndAwait H audioUrl title w = (w1, e1, Normal played) ->
  (forall msg,
     snd (handleYouTubeStream H audioUrl title selectedId w) <> Throw msg)
  /\ (forall w2 e2 r,
        continuation H selectedId w1 = (w2, e2, r) ->
        r <> Pending ->
        handleYouTubeStream H audioUrl title selectedId w
        = (w2, e1 ++ e2, Normal played))
  /\ (playlistsFile H w1 = Unreadable ->
      handleYouTubeStream H audioUrl title selectedId w = (w1, e1, Normal played))
  /\ (playlistsFile H w1 = Holds NotAnArray ->
      handleYouTubeStream H audioUrl title selectedId w = (w1, e1, Normal played)).
Proof.
  intro Hp. pose proof (handleYouTubeStream_run _ _ selectedId _ _ _ _ Hp) as Hrun.
  split; [|split; [|split]].
  - intro msg. rewrite Hrun.
    destruct (continuation H selectedId w1) as [[w2 e2] [[]|m|]]; discriminate.
  - intros w2 e2 r Hc Hr. rewrite Hrun, Hc.
    destruct r as [[]|m|]; try reflexivity. contradiction.
  - intro Hf. rewrite Hrun, (continuation_unreadable _ _ Hf).
    now rewrite app_nil_r.
  - intro Hf. rewrite Hrun, (continuation_not_an_array _ _ Hf).
    now rewrite app_nil_r.
Qed.

End ContinuationIsBestEffort.

Lemma continuation_is_best_effort_witness :
  snd (Play.handleYouTubeStream
         (Samples.host Samples.onlyMpv Samples.quiet
            (Playlists.Holds Playlists.NotAnArray))
         "https://stream/a" "A" "v2" 0) = Normal true
  /\ snd (Play.handleYouTubeStream
            (Samples.host Samples.nothing Samples.quiet Playlists.Unreadable)
            "https://stream/a" "A" "v2" 0) = Normal false.
Proof.
  split.
  - pose proof (continuation_is_best_effort
                  (Samples.host Samples.onlyMpv Samples.quiet
                     (Playlists.Holds Playlists.NotAnArray))
                  "https://stream/a" "A" "v2" 0 _ _ true eq_refl)
      as (_ & _ & _ & E).
    now rewrite E.
  - pose proof (continuation_is_best_effort
                  (Samples.host Samples.nothing Samples.quiet
                     Playlists.Unreadable)
                  "https://stream/a" "A" "v2" 0 _ _ false eq_refl)
      as (_ & _ & E & _).
    now rewrite E.
Defined.

(** ** Counting effects through composed calls *)

Section Counting.
Import Runtime.
Context {child St : Type}.
Variable p : effect child -> bool.

Lemma atMost_le {A} (n n' : nat) (m : Mon child St A) :
  n <= n' -> atMost p n m -> atMost p n' m.
Proof. intros Hn Hm s. specialize (Hm s). lia. Qed.

Lemma atMost_ret {A} (a : A) : atMost p 0 (@ret child St A a).
Proof. intro s. simpl. lia. Qed.

Lemma atMost_emit (e : effect child) :
  atMost p (if p e then 1 else 0) (@emit child St e).
Proof. intro s. unfold emit, effectsOf. simpl. destruct (p e); simpl; lia. Qed.

Lemma atMost_bind {A B} (n1 n2 : nat) (m : Mon child St A)
    (k : A -> Mon child St B) :
  atMost p n1 m -> (forall a, atMost p n2 (k a)) ->
  atMost p (n1 + n2) (bind m k).
Proof.
  intros Hm Hk s. specialize (Hm s). unfold bind, effectsOf in *.
  destruct (m s) as [[s1 e1] [a|msg|]]; simpl in *; try lia.
  specialize (Hk a s1). unfold effectsOf in Hk.
  destruct (k a s1) as [[s2 e2] r2]; simpl in *.
  rewrite filter_app, length_app. lia.
Qed.

Lemma atMost_tryCatch {A} (n1 n2 : nat) (m : Mon child St A)
    (h : string -> Mon child St A) :
  atMost p n1 m -> (forall msg, atMost p n2 (h msg)) ->
  atMost p (n1 + n2) (tryCatch m h).
Proof.
  intros Hm Hh s. specialize (Hm s). unfold tryCatch, effectsOf in *.
  destruct (m s) as [[s1 e1] [a|msg|]]; simpl in *; try lia.
  specialize (Hh msg s1). unfold effectsOf in Hh.
  destruct (h msg s1) as [[s2 e2] r2]; simpl in *.
  rewrite filter_app, length_app. lia.
Qed.

Lemma atMost_finally {A} (n1 n2 : nat) (m : Mon child St A)
    (fin : Mon child St unit) :
  atMost p n1 m -> atMost p n2 fin -> atMost p (n1 + n2) (finally m fin).
Proof.
  intros Hm Hf s. specialize (Hm s). unfold finally, effectsOf in *.
  destruct (m s) as [[s1 e1] r]; simpl in *.
  specialize (Hf s1). unfold effectsOf in Hf.
  destruct r as [a|msg|]; simpl; try lia;
    destruct (fin s1) as [[s2 e2] [[]|msg2|]]; simpl in *;
    rewrite filter_app, length_app; lia.
Qed.

End Counting.

(** ** The playlist sequencer *)

Section Sequencer.
Import Runtime Playlists PlaylistCmd.
Local Open Scope mon_scope.
Context {W child : Type} (H : Host W child).

(** *** The SIGINT listener *)

Lemma deliver_stop (n : nat) (s : session child) :
  stopRequested (fst (deliver n s)) = stopRequested s || (0 <? n)%nat.
Proof.
  revert s; induction n as [|n IH]; intro s.
  - simpl. now rewrite orb_false_r.
  - cbn [deliver]. unfold onSigint.
    specialize (IH (mkSession (currentChild s) true)).
    destruct (deliver n (mkSession (currentChild s) true)) as [s2 e2].
    simpl in *. rewrite IH. now rewrite orb_true_r.
Qed.

Lemma deliver_child (n : nat) (s : session child) :
  currentChild (fst (deliver n s)) = currentChild s.
Proof.
  revert s; induction n as [|n IH]; intro s; [reflexivity|].
  cbn [deliver]. unfold onSigint.
  specialize (IH (mkSession (currentChild s) true)).
  destruct (deliver n (mkSession (currentChild s) true)) as [s2 e2].
  exact IH.
Qed.

Lemma deliver_session (n : nat) (s : session child) :
  fst (deliver n s) = mkSession (currentChild s) (stopRequested s || (0 <? n)%nat).
Proof.
  pose proof (deliver_stop n s). pose proof (deliver_child n s).
  destruct (fst (deliver n s)) as [c b]. simpl in *. now subst.
Qed.

(** While a child is the current one, every SIGINT sends it a SIGINT. *)
Lemma deliver_live (n : nat) (c : child) (b : bool) :
  snd (deliver n (mkSession (Some c) b)) = killed n c.
Proof.
  revert b; induction n as [|n IH]; intro b; [reflexivity|].
  cbn [deliver killed]. unfold onSigint. cbn [currentChild].
  specialize (IH true).
  destruct (deliver n (mkSession (Some c) true)) as [s2 e2].
  simpl in *. now rewrite IH.
Qed.

Lemma deliver_idle (n : nat) (b : bool) :
  snd (deliver n (@mkSession child None b))
  = repeat (ConsoleLog StoppingPlayback) n.
Proof.
  revert b; induction n as [|n IH]; intro b; [reflexivity|].
  cbn [deliver]. unfold onSigint. cbn [currentChild].
  specialize (IH true).
  destruct (deliver n (mkSession None true)) as [s2 e2].
  simpl in *. now rewrite IH.
Qed.

Lemma deliver_filter (p : effect child -> bool) (n : nat) (s : session child) :
  (forall c sg, p (Kill c sg) = false) ->
  p (ConsoleLog StoppingPlayback) = false ->
  filter p (snd (deliver n s)) = [].
Proof.
  intros Hk Hs. revert s; induction n as [|n IH]; intro s; [reflexivity|].
  cbn [deliver]. unfold onSigint.
  specialize (IH (mkSession (currentChild s) true)).
  destruct (deliver n (mkSession (currentChild s) true)) as [s2 e2].
  simpl in *. rewrite !filter_app, IH. simpl. rewrite Hs.
  destruct (currentChild s); simpl; [now rewrite Hk|reflexivity].
Qed.

Lemma deliver_logs_stop (n : nat) (s : session child) :
  In (ConsoleLog StoppingPlayback) (snd (deliver n s)) ->
  stopRequested (fst (deliver n s)) = true.
Proof.
  rewrite deliver_stop. destruct n; [contradiction|].
  intros _. now rewrite orb_true_r.
Qed.

(** *** Effects of the calls the sequencer awaits *)

Section Kinds.

(** [p] counts announcements, calls of detectAudioPlayer or stop notices,
    nothing else. *)
Variable p : effect child -> bool.
Hypothesis p_only :
  forall e, p e = true ->
            isAnnounce e = true \/ isDetect e = true \/ isStopping e = true.

Ltac uncounted :=
  match goal with
  | |- p ?e = false =>
      let E := fresh "E" in
      destruct (p e) eqn:E;
      [apply p_only in E; destruct E as [E|[E|E]]; discriminate|reflexivity]
  end.

Lemma atMost_log (m : message) :
  (forall a b c, m <> NowPlaying a b c) ->
  m <> StoppingPlayback ->
  atMost p 0 (@emit child (W * session child) (ConsoleLog m)).
Proof.
  intros Hm Hs.
  assert (Hp : p (ConsoleLog m) = false).
  { destruct (p (ConsoleLog m)) eqn:E; [|reflexivity].
    apply p_only in E. destruct E as [E|[E|E]]; [|discriminate|].
    - destruct m; try discriminate. now elim (Hm position total title).
    - destruct m; try discriminate. now elim Hs. }
  pose proof (@atMost_emit child (W * session child) p (ConsoleLog m)) as He.
  now rewrite Hp in He.
Qed.

Lemma atMost_resolver (id : string) :
  atMost p 0 (Ytdlp.getYouTubeAudioStream H id).
Proof.
  intro w. unfold Ytdlp.getYouTubeAudioStream, effectsOf.
  destruct (resolveStream H w id) as [w1 r]. simpl.
  assert (Hp : p (ResolverCalled id) = false) by uncounted.
  now rewrite Hp.
Qed.

Lemma atMost_spawnChild (rq : string * list string * stdio) :
  atMost p 0 (Play.spawnChild H rq).
Proof.
  intro w. unfold Play.spawnChild, effectsOf. destruct rq as [[cmd args] io].
  destruct (spawn H w cmd args io) as [w1 r]. simpl.
  assert (Hp : p (Spawn cmd args io) = false) by uncounted.
  now rewrite Hp.
Qed.

Lemma atMost_awaitAnyEvent (c : child) : atMost p 0 (awaitAnyEvent H c).
Proof.
  intro w. unfold awaitAnyEvent, effectsOf.
  destruct (events H w c) as [w1 evs]. simpl. lia.
Qed.

Lemma atMost_probe (player : string) : atMost p 0 (Ytdlp.probe H player).
Proof.
  intro w. unfold effectsOf. rewrite probe_effects. simpl.
  assert (Hp : p (Ytdlp.versionCheck player) = false) by uncounted.
  now rewrite Hp.
Qed.

Lemma atMost_detectLoop (candidates : list string) :
  atMost p 0 (Ytdlp.detectLoop H candidates).
Proof.
  induction candidates as [|player rest IH]; cbn [Ytdlp.detectLoop].
  - apply atMost_ret.
  - apply (atMost_tryCatch p 0 0); [|intros _; exact IH].
    apply (atMost_bind p 0 0); [apply atMost_probe|intros _; apply atMost_ret].
Qed.

(** The bound a call of detectAudioPlayer contributes. *)
Let d : nat := if p DetectCalled then 1 else 0.

Lemma atMost_detectAudioPlayer : atMost p d (Ytdlp.detectAudioPlayer H).
Proof.
  unfold Ytdlp.detectAudioPlayer.
  replace d with (d + 0) by lia.
  apply atMost_bind; [apply atMost_emit|].
  intros _ w. apply atMost_detectLoop.
Qed.

Lemma atMost_sync {A} (n : nat) (m : M W child A) :
  atMost p n m -> atMost p n (sync m).
Proof.
  intros Hm [w s]. specialize (Hm w). unfold sync, effectsOf in *.
  destruct (m w) as [[w1 e1] r]. exact Hm.
Qed.

(** From here on [p] does not count stop notices either. *)
Hypothesis p_stop : p (ConsoleLog StoppingPlayback) = false.

Lemma atMost_awaitS {A} (n : nat) (m : M W child A) :
  atMost p n m -> atMost p n (awaitS H m).
Proof.
  intros Hm [w s]. specialize (Hm w). unfold awaitS, effectsOf in *.
  destruct (m w) as [[w1 e1] r].
  assert (Hd : filter p (snd (deliver (sigints H w1) s)) = []).
  { apply deliver_filter; [intros c sg; uncounted|exact p_stop]. }
  destruct (deliver (sigints H w1) s) as [s1 e2]. simpl in *.
  rewrite filter_app, Hd, app_nil_r. exact Hm.
Qed.

Lemma atMost_setCurrentChild (c : option child) :
  atMost p 0 (@setCurrentChild W child c).
Proof. intros [w s]. simpl. lia. Qed.

Lemma atMost_obtainUrl (track : StoredTrack) : atMost p 0 (obtainUrl H track).
Proof.
  unfold obtainUrl.
  destruct (Play.toResolve track) as [id|]; [|apply atMost_ret].
  apply (atMost_tryCatch p 0 0).
  - apply (atMost_bind p 0 0); [|intros u; apply atMost_ret].
    apply atMost_awaitS, atMost_resolver.
  - intro msg. apply (atMost_bind p 0 0); [|intros _; apply atMost_ret].
    apply atMost_log; discriminate.
Qed.

Lemma atMost_playTrack (track : StoredTrack) (player u : string) :
  atMost p 0 (playTrack H track player u).
Proof.
  unfold playTrack.
  apply (atMost_finally p 0 0); [|apply atMost_setCurrentChild].
  apply (atMost_tryCatch p 0 0).
  - apply (atMost_bind p 0 0); [apply atMost_sync, atMost_spawnChild|].
    intro c. apply (atMost_bind p 0 0); [apply atMost_setCurrentChild|].
    intros _. apply atMost_awaitS, atMost_awaitAnyEvent.
  - intro msg. apply atMost_log; discriminate.
Qed.

Lemma atMost_afterUrl (track : StoredTrack) (url : option string) :
  atMost p d (afterUrl H track url).
Proof.
  unfold afterUrl.
  assert (Hno : atMost p d
                  (emit (ConsoleLog (NoPlayableUrl (t_title track))) ;;
                   @ret child (W * session child) control Next)).
  { apply (atMost_le p 0); [lia|].
    apply (atMost_bind p 0 0); [|intros _; apply atMost_ret].
    apply atMost_log; discriminate. }
  destruct url as [u|]; [|exact Hno].
  destruct (Js.truthy (Some u)); [|exact Hno].
  replace d with (d + 0) by lia.
  apply atMost_bind; [apply atMost_awaitS, atMost_detectAudioPlayer|].
  intros [player|].
  - apply (atMost_bind p 0 0); [apply atMost_playTrack|].
    intros _. apply atMost_ret.
  - apply (atMost_bind p 0 0); [|intros _; apply atMost_ret].
    apply atMost_log; discriminate.
Qed.

(** What an iteration adds to the trace after its announcement. *)
Lemma iteration_rest (total i : nat) (track : StoredTrack)
    (st : W * session child) :
  exists rest,
    effectsOf (iteration H total i track st)
    = ConsoleLog (NowPlaying (i + 1) total (t_title track)) :: rest
    /\ length (filter p rest) <= (if p DetectCalled then 1 else 0).
Proof.
  unfold iteration. unfold bind at 1. unfold emit at 1.
  set (m := (r <- obtainUrl H track ;;
             match r with
             | Some url => afterUrl H track url
             | None => ret Next
             end)).
  assert (Hm : atMost p d m).
  { apply (atMost_bind p 0 d); [apply atMost_obtainUrl|].
    intros [url|]; [apply atMost_afterUrl|].
    apply (atMost_le p 0); [lia|apply atMost_ret]. }
  specialize (Hm st). unfold effectsOf in *.
  destruct (m st) as [[st2 e2] r2]. simpl in *. now exists e2.
Qed.

End Kinds.

(** *** Reading announcements and detections off a trace *)

Lemma announced_app (a b : list (effect child)) :
  announced (a ++ b) = announced a ++ announced b.
Proof.
  induction a as [|e a IH]; simpl; [reflexivity|].
  destruct e as [m|m| | | |]; try exact IH.
  destruct m; try exact IH. simpl. now rewrite IH.
Qed.

Lemma announced_none (tr : list (effect child)) :
  length (filter isAnnounce tr) <= 0 -> announced tr = [].
Proof.
  induction tr as [|e tr IH]; simpl; [reflexivity|].
  destruct e as [m|m| | | |]; simpl; try exact IH.
  destruct m; simpl; try exact IH. lia.
Qed.

Lemma detections_app (a b : list (effect child)) :
  detections (a ++ b) = detections a + detections b.
Proof. unfold detections. now rewrite filter_app, length_app. Qed.

Lemma only_announce (e : effect child) :
  isAnnounce e = true ->
  isAnnounce e = true \/ isDetect e = true \/ isStopping e = true.
Proof. now left. Qed.

Lemma only_detect (e : effect child) :
  isDetect e = true ->
  isAnnounce e = true \/ isDetect e = true \/ isStopping e = true.
Proof. now right; left. Qed.

Lemma only_stopping (e : effect child) :
  isStopping e = true ->
  isAnnounce e = true \/ isDetect e = true \/ isStopping e = true.
Proof. now right; right. Qed.

Lemma iteration_announces (total i : nat) (track : StoredTrack)
    (st : W * session child) :
  announced (effectsOf (iteration H total i track st)) = [i + 1].
Proof.
  destruct (iteration_rest isAnnounce only_announce eq_refl total i track st)
    as (rest & -> & Hrest).
  simpl in *. now rewrite (announced_none rest Hrest).
Qed.

Lemma iteration_detects (total i : nat) (track : StoredTrack)
    (st : W * session child) :
  detections (effectsOf (iteration H total i track st)) <= 1.
Proof.
  destruct (iteration_rest isDetect only_detect eq_refl total i track st)
    as (rest & -> & Hrest).
  exact Hrest.
Qed.

(** *** One turn of the loop *)

Lemma playLoop_stopped (tracks : list StoredTrack) (fuel i : nat) (w : W)
    (s : session child) :
  stopRequested s = true ->
  playLoop H tracks fuel i (w, s) = ((w, s), [], Normal LoopDone).
Proof.
  intro Hs. destruct fuel as [|fuel]; [reflexivity|]. cbn [playLoop].
  destruct (nth_error tracks i); [|reflexivity].
  cbn [snd]. now rewrite Hs.
Qed.

Lemma playLoop_step (tracks : list StoredTrack) (fuel k : nat)
    (track : StoredTrack) (st : W * session child) :
  nth_error tracks k = Some track ->
  stopRequested (snd st) = false ->
  playLoop H tracks (S fuel) k st
  = (let '(st1, e1, r1) := iteration H (length tracks) k track st in
     match r1 with
     | Normal Next =>
         let '(st2, e2, r2) := playLoop H tracks fuel (S k) st1 in
         (st2, e1 ++ e2, r2)
     | Normal Return => (st1, e1 ++ [], Normal Returned)
     | Throw msg => (st1, e1, Throw msg)
     | Pending => (st1, e1, Pending)
     end).
Proof.
  intros Ht Hs. cbn [playLoop]. rewrite Ht, Hs. unfold bind.
  destruct (iteration H (length tracks) k track st) as [[st1 e1] [[|]|msg|]];
    reflexivity.
Qed.

(** *** The stages of an iteration *)

Lemma obtainUrl_stored (track : StoredTrack) (st : W * session child) :
  Play.toResolve track = None ->
  obtainUrl H track st = (st, [], Normal (Some (t_url track))).
Proof. intro Hr. unfold obtainUrl. now rewrite Hr. Qed.

Lemma obtainUrl_fails (track : StoredTrack) (id msg : string) (w w1 : W)
    (s : session child) :
  Play.toResolve track = Some id ->
  resolveStream H w id = (w1, Throw msg) ->
  obtainUrl H track (w, s)
  = ((w1, fst (deliver (sigints H w1) s)),
     (ResolverCalled id :: snd (deliver (sigints H w1) s))
     ++ [ConsoleLog (FailedToResolveStream (t_title track) msg)],
     Normal None).
Proof.
  intros Hr Hres. unfold obtainUrl. rewrite Hr.
  unfold tryCatch, bind, awaitS, Ytdlp.getYouTubeAudioStream.
  rewrite Hres. destruct (deliver (sigints H w1) s) as [s1 e2]. reflexivity.
Qed.

Lemma obtainUrl_resolved (track : StoredTrack) (id u : string) (w w1 : W)
    (s : session child) :
  Play.toResolve track = Some id ->
  resolveStream H w id = (w1, Normal u) ->
  obtainUrl H track (w, s)
  = ((w1, fst (deliver (sigints H w1) s)),
     (ResolverCalled id :: snd (deliver (sigints H w1) s)) ++ [],
     Normal (Some (Some u))).
Proof.
  intros Hr Hres. unfold obtainUrl. rewrite Hr.
  unfold tryCatch, bind, awaitS, Ytdlp.getYouTubeAudioStream.
  rewrite Hres. destruct (deliver (sigints H w1) s) as [s1 e2]. reflexivity.
Qed.

Lemma iteration_run (total i : nat) (track : StoredTrack)
    (st st1 : W * session child) (e1 : list (effect child))
    (r : option (option string)) :
  obtainUrl H track st = (st1, e1, Normal r) ->
  iteration H total i track st
  = (let '(st2, e2, r2) :=
       match r with
       | Some url => afterUrl H track url st1
       | None => (st1, [], Normal Next)
       end in
     (st2, ConsoleLog (NowPlaying (i + 1) total (t_title track)) :: e1 ++ e2,
      r2)).
Proof.
  intro Ho. unfold iteration. unfold bind at 1. unfold emit at 1.
  rewrite (bind_run _ _ _ _ _ _ Ho).
  destruct r as [url|]; [|reflexivity].
  destruct (afterUrl H track url st1) as [[st2 e2] r2]. reflexivity.
Qed.

Lemma afterUrl_no_url (track : StoredTrack) (url : option string)
    (st : W * session child) :
  Js.truthy url = false ->
  afterUrl H track url st
  = (st, [ConsoleLog (NoPlayableUrl (t_title track))], Normal Next).
Proof.
  intro Hu. unfold afterUrl. destruct url as [u|]; [|reflexivity].
  now rewrite Hu.
Qed.

Lemma afterUrl_no_player (track : StoredTrack) (u : string) (w w1 : W)
    (s : session child) (e1 : list (effect child)) :
  Js.truthy (Some u) = true ->
  Ytdlp.detectAudioPlayer H w = (w1, e1, Normal None) ->
  afterUrl H track (Some u) (w, s)
  = ((w1, fst (deliver (sigints H w1) s)),
     (e1 ++ snd (deliver (sigints H w1) s))
     ++ [ConsoleLog NoAudioPlayerOnSystem],
     Normal Return).
Proof.
  intros Hu Hd. unfold afterUrl. rewrite Hu.
  unfold bind, awaitS. rewrite Hd.
  destruct (deliver (sigints H w1) s) as [s1 e2]. reflexivity.
Qed.

(** *** The whole loop *)

Lemma playLoop_announces (tracks : list StoredTrack) (fuel i : nat)
    (st : W * session child) :
  fuel = length tracks - i ->
  exists n,
    announced (effectsOf (playLoop H tracks fuel i st)) = seq (i + 1) n
    /\ n <= fuel
    /\ detections (effectsOf (playLoop H tracks fuel i st)) <= n
    /\ (snd (playLoop H tracks fuel i st) = Normal LoopDone ->
        stopRequested (snd (fst (fst (playLoop H tracks fuel i st)))) = false ->
        n = fuel).
Proof.
  revert i st; induction fuel as [|fuel IH]; intros i st Hf.
  - exists 0. simpl. repeat split; auto.
  - destruct (nth_error tracks i) as [track|] eqn:Ht;
      [|apply nth_error_None in Ht; lia].
    destruct st as [w s]. destruct (stopRequested s) eqn:Hs.
    + rewrite (playLoop_stopped tracks (S fuel) i w s Hs).
      exists 0. simpl. repeat split; auto; try lia.
      intros _ Hs'. congruence.
    + rewrite (playLoop_step tracks fuel i track (w, s) Ht Hs).
      pose proof (iteration_announces (length tracks) i track (w, s)) as Ha.
      pose proof (iteration_detects (length tracks) i track (w, s)) as Hd.
      unfold effectsOf in Ha, Hd.
      destruct (iteration H (length tracks) i track (w, s))
        as [[st1 e1] [[|]|msg|]]; simpl in Ha, Hd.
      * destruct (IH (S i) st1) as (n & Hn & Hle & Hdn & Hfull); [lia|].
        unfold effectsOf in *.
        destruct (playLoop H tracks fuel (S i) st1) as [[st2 e2] r2].
        simpl in *. exists (S n).
        rewrite announced_app, detections_app, Ha, Hn.
        split; [reflexivity|]. split; [lia|]. split; [lia|].
        intros Hr Hst. f_equal. now apply Hfull.
      * exists 1. unfold effectsOf. simpl.
        rewrite announced_app, detections_app, Ha.
        split; [reflexivity|]. split; [lia|]. split; [|discriminate].
        unfold detections in *. simpl. lia.
      * exists 1. unfold effectsOf. simpl. rewrite Ha.
        split; [reflexivity|]. split; [lia|]. split; [lia|]. discriminate.
      * exists 1. unfold effectsOf. simpl. rewrite Ha.
        split; [reflexivity|]. split; [lia|]. split; [lia|]. discriminate.
Qed.

Lemma run_unfold (tracks : list StoredTrack) (start : nat) (w : W) :
  handlePlaylistCommand H tracks start w
  = (let '(st1, e1, r1) :=
       playLoop H tracks (length tracks - start) start
                (w, @initial child) in
     match r1 with
     | Normal LoopDone =>
         (st1, e1 ++ [ConsoleLog PlaylistFinishedOrStopped], Normal tt)
     | Normal Returned => (st1, e1 ++ [], Normal tt)
     | Throw msg => (st1, e1, Throw msg)
     | Pending => (st1, e1, Pending)
     end).
Proof.
  unfold handlePlaylistCommand, playFrom, bind.
  destruct (playLoop H tracks (length tracks - start) start (w, initial))
    as [[st1 e1] [[|]|msg|]]; reflexivity.
Qed.

Lemma run_announces (tracks : list StoredTrack) (start : nat) (w : W) :
  exists n,
    announced (effectsOf (handlePlaylistCommand H tracks start w)) = seq (start + 1) n
    /\ n <= length tracks - start
    /\ detections (effectsOf (handlePlaylistCommand H tracks start w)) <= n.
Proof.
  destruct (playLoop_announces tracks (length tracks - start) start
              (w, @initial child) eq_refl) as (n & Hn & Hle & Hd & _).
  rewrite run_unfold. unfold effectsOf in *.
  destruct (playLoop H tracks (length tracks - start) start (w, initial))
    as [[st1 e1] [[|]|msg|]]; simpl in *; exists n;
    rewrite ?announced_app, ?detections_app, ?Hn;
    simpl; rewrite ?app_nil_r, ?Nat.add_0_r;
    repeat split; auto.
Qed.

(** C1: a track whose stream cannot be resolved, or that has neither a URL
    nor an id to resolve, is reported and the loop goes on with the next
    index exactly as it would have from there; and in every run the tracks
    are announced in playlist order from the start index, all of them
    whenever the loop runs to its end without a stop request, however many
    of them were skipped. *)
Theorem failure_isolation (tracks : list StoredTrack) (fuel k : nat)
    (track : StoredTrack) (w : W) (s : session child) :
  nth_error tracks k = Some track ->
  stopRequested s = false ->
  (forall id msg w1,
     Play.toResolve track = Some id ->
     resolveStream H w id = (w1, Throw msg) ->
     playLoop H tracks (S fuel) k (w, s)
     = (let '(st2, e2, r2) :=
          playLoop H tracks fuel (S k) (w1, fst (deliver (sigints H w1) s)) in
        (st2,
         (ConsoleLog (NowPlaying (k + 1) (length tracks) (t_title track))
          :: (ResolverCalled id :: snd (deliver (sigints H w1) s))
             ++ [ConsoleLog (FailedToResolveStream (t_title track) msg)])
         ++ e2,
         r2)))
  /\ (Js.truthy (t_url track) = false ->
      Js.truthy (t_id track) = false ->
      playLoop H tracks (S fuel) k (w, s)
      = (let '(st2, e2, r2) := playLoop H tracks fuel (S k) (w, s) in
         (st2,
          [ConsoleLog (NowPlaying (k + 1) (length tracks) (t_title track));
           ConsoleLog (NoPlayableUrl (t_title track))] ++ e2,
          r2)))
  /\ (forall start st,
        exists n,
          announced (effectsOf (playLoop H tracks (length tracks - start)
                                         start st))
          = seq (start + 1) n
          /\ n <= length tracks - start
          /\ (snd (playLoop H tracks (length tracks - start) start st)
              = Normal LoopDone ->
              stopRequested
                (snd (fst (fst (playLoop H tracks (length tracks - start)
                                         start st)))) = false ->
              n = length tracks - start)).
Proof.
  intros Ht Hs. split; [|split].
  - intros id msg w1 Hr Hres.
    rewrite (playLoop_step tracks fuel k track (w, s) Ht Hs).
    rewrite (iteration_run _ _ _ _ _ _ _ (obtainUrl_fails _ _ _ _ _ _ Hr Hres)).
    rewrite app_nil_r. reflexivity.
  - intros Hu Hi.
    assert (Hr : Play.toResolve track = None).
    { unfold Play.toResolve. now rewrite Hi, andb_false_r. }
    rewrite (playLoop_step tracks fuel k track (w, s) Ht Hs).
    rewrite (iteration_run _ _ _ _ _ _ _ (obtainUrl_stored _ _ Hr)).
    rewrite (afterUrl_no_url _ _ _ Hu). reflexivity.
  - intros start st.
    destruct (playLoop_announces tracks (length tracks - start) start st
                eq_refl) as (n & Hn & Hle & _ & Hfull).
    exists n. auto.
Qed.

(** *** Player discovery inside the loop *)

Lemma afterUrl_detects (track : StoredTrack) (u : string)
    (st : W * session child) :
  Js.truthy (Some u) = true ->
  detections (effectsOf (afterUrl H track (Some u) st)) = 1.
Proof.
  intro Hu.
  pose proof (atMost_afterUrl isDetect only_detect eq_refl track (Some u) st)
    as Hle.
  cbn [isDetect] in Hle. fold (detections (effectsOf (afterUrl H track (Some u) st))) in Hle.
  assert (Hge : 1 <= detections (effectsOf (afterUrl H track (Some u) st))).
  { unfold afterUrl. rewrite Hu. destruct st as [w s].
    unfold bind at 1. unfold awaitS. rewrite detectAudioPlayer_run.
    destruct (Ytdlp.detectLoop H (Ytdlp.availablePlayers (os_platform H w)) w)
      as [[w1 e1] r].
    destruct (deliver (sigints H w1) s) as [s1 e2].
    destruct r as [[player|]|msg|]; unfold effectsOf, detections.
    - destruct ((playTrack H track player u ;; ret Next) (w1, s1))
        as [[st2 e3] r3]. simpl. lia.
    - destruct ((emit (ConsoleLog NoAudioPlayerOnSystem) ;; ret Return)
                  (w1, s1)) as [[st2 e3] r3]. simpl. lia.
    - simpl. lia.
    - simpl. lia. }
  lia.
Qed.

Lemma afterUrl_skips_detection (track : StoredTrack) (url : option string)
    (st : W * session child) :
  Js.truthy url = false ->
  detections (effectsOf (afterUrl H track url st)) = 0.
Proof. intro Hu. now rewrite (afterUrl_no_url _ _ _ Hu). Qed.

(** C5 (amended): detectAudioPlayer is called once for every track that
    reaches playback with a usable URL, never for a track without one, so
    at most once per announced track and at most N - startIndex times per
    call; when one of these calls finds no player the loop returns at once:
    the notice is the last effect of the call and nothing is announced or
    played after it. *)
Theorem detection_once_per_track (tracks : list StoredTrack) (start : nat)
    (w : W) :
  (exists n,
     announced (effectsOf (handlePlaylistCommand H tracks start w)) = seq (start + 1) n
     /\ n <= length tracks - start
     /\ detections (effectsOf (handlePlaylistCommand H tracks start w)) <= n)
  /\ (forall track u st,
        Js.truthy (Some u) = true ->
        detections (effectsOf (afterUrl H track (Some u) st)) = 1)
  /\ (forall track url st,
        Js.truthy url = false ->
        detections (effectsOf (afterUrl H track url st)) = 0)
  /\ (forall fuel k track st w1 s1 e1 u w2 e2,
        nth_error tracks k = Some track ->
        stopRequested (snd st) = false ->
        obtainUrl H track st = ((w1, s1), e1, Normal (Some (Some u))) ->
        Js.truthy (Some u) = true ->
        Ytdlp.detectAudioPlayer H w1 = (w2, e2, Normal None) ->
        playLoop H tracks (S fuel) k st
        = ((w2, fst (deliver (sigints H w2) s1)),
           (ConsoleLog (NowPlaying (k + 1) (length tracks) (t_title track))
            :: e1 ++ (e2 ++ snd (deliver (sigints H w2) s1))
                  ++ [ConsoleLog NoAudioPlayerOnSystem]) ++ [],
           Normal Returned))
  /\ (forall st1 e,
        playLoop H tracks (length tracks - start) start (w, @initial child)
        = (st1, e, Normal Returned) ->
        handlePlaylistCommand H tracks start w = (st1, e ++ [], Normal tt)).
Proof.
  split; [apply run_announces|].
  split; [intros; now apply afterUrl_detects|].
  split; [intros; now apply afterUrl_skips_detection|].
  split.
  - intros fuel k track st w1 s1 e1 u w2 e2 Ht Hs Ho Hu Hd.
    rewrite (playLoop_step tracks fuel k track st Ht Hs).
    rewrite (iteration_run _ _ _ _ _ _ _ Ho).
    rewrite (afterUrl_no_player _ _ _ _ _ _ Hu Hd). reflexivity.
  - intros st1 e Hl. rewrite run_unfold, Hl. reflexivity.
Qed.

(** *** Stopping *)

Lemma playTrack_run (track : StoredTrack) (player u : string) (w w1 w2 : W)
    (s : session child) (c : child) (e : childEvent) (evs : list childEvent) :
  spawn H w player (playerArgs player u) (playerStdio player) = (w1, inl c) ->
  events H w1 c = (w2, e :: evs) ->
  playTrack H track player u (w, s)
  = ((w2, mkSession None (stopRequested s || (0 <? sigints H w2)%nat)),
     Spawn player (playerArgs player u) (playerStdio player)
     :: killed (sigints H w2) c,
     Normal tt).
Proof.
  intros Hs He.
  unfold playTrack, finally, tryCatch, bind, sync, Play.spawnChild,
    setCurrentChild, awaitS, awaitAnyEvent.
  rewrite Hs. cbn. rewrite He.
  pose proof (deliver_session (sigints H w2) (mkSession (Some c) (stopRequested s)))
    as Hsess.
  pose proof (deliver_live (sigints H w2) c (stopRequested s)) as Hlive.
  destruct (deliver (sigints H w2) (mkSession (Some c) (stopRequested s)))
    as [s1 e2].
  cbn in *. subst s1 e2. cbn. now rewrite !app_nil_r.
Qed.

Lemma not_counted_not_in {St A} (p : effect child -> bool)
    (m : Mon child St A) (x : effect child) (s : St) :
  atMost p 0 m -> p x = true -> ~ In x (effectsOf (m s)).
Proof.
  intros Hm Hx Hin. specialize (Hm s).
  assert (Hf : In x (filter p (effectsOf (m s)))) by (apply filter_In; auto).
  destruct (filter p (effectsOf (m s))); [contradiction|simpl in Hm; lia].
Qed.

Lemma stopSafe_ret {A} (a : A) : stopSafe (@ret child (W * session child) A a).
Proof. intro st. split; [auto|contradiction]. Qed.

Lemma stopSafe_emit (e : effect child) :
  e <> ConsoleLog StoppingPlayback ->
  stopSafe (@emit child (W * session child) e).
Proof.
  intros He st. split; [auto|].
  intros [E|[]]. now elim He.
Qed.

Lemma stopSafe_setCurrentChild (c : option child) :
  stopSafe (@setCurrentChild W child c).
Proof. intros [w s]. split; [auto|contradiction]. Qed.

Lemma stopSafe_bind {A B} (m : @MS W child A) (k : A -> @MS W child B) :
  stopSafe m -> (forall a, stopSafe (k a)) -> stopSafe (bind m k).
Proof.
  intros Hm Hk st. destruct (Hm st) as [Hk1 Hi1].
  unfold bind, effectsOf in *.
  destruct (m st) as [[st1 e1] [a|msg|]]; simpl in *; auto.
  destruct (Hk a st1) as [Hk2 Hi2]. unfold effectsOf in *.
  destruct (k a st1) as [[st2 e2] r2]. simpl in *.
  split; [auto|]. intro Hin. apply in_app_or in Hin. destruct Hin; auto.
Qed.

Lemma stopSafe_tryCatch {A} (m : @MS W child A) (h : string -> @MS W child A) :
  stopSafe m -> (forall msg, stopSafe (h msg)) -> stopSafe (tryCatch m h).
Proof.
  intros Hm Hh st. destruct (Hm st) as [Hk1 Hi1].
  unfold tryCatch, effectsOf in *.
  destruct (m st) as [[st1 e1] [a|msg|]]; simpl in *; auto.
  destruct (Hh msg st1) as [Hk2 Hi2]. unfold effectsOf in *.
  destruct (h msg st1) as [[st2 e2] r2]. simpl in *.
  split; [auto|]. intro Hin. apply in_app_or in Hin. destruct Hin; auto.
Qed.

Lemma stopSafe_finally {A} (m : @MS W child A) (fin : @MS W child unit) :
  stopSafe m -> stopSafe fin -> stopSafe (finally m fin).
Proof.
  intros Hm Hf st. destruct (Hm st) as [Hk1 Hi1].
  unfold finally, effectsOf in *.
  destruct (m st) as [[st1 e1] r]. simpl in *.
  destruct (Hf st1) as [Hk2 Hi2]. unfold effectsOf in *.
  destruct r as [a|msg|]; auto;
    destruct (fin st1) as [[st2 e2] [[]|msg2|]]; simpl in *;
    (split; [auto|]); intro Hin; apply in_app_or in Hin; destruct Hin; auto.
Qed.

Lemma stopSafe_sync {A} (m : M W child A) :
  atMost isStopping 0 m -> stopSafe (sync m).
Proof.
  intros Hm [w s].
  pose proof (not_counted_not_in isStopping m (ConsoleLog StoppingPlayback) w
                Hm eq_refl) as Hno.
  unfold sync, effectsOf in *. destruct (m w) as [[w1 e1] r]. simpl in *.
  split; [auto|contradiction].
Qed.

Lemma stopSafe_awaitS {A} (m : M W child A) :
  atMost isStopping 0 m -> stopSafe (awaitS H m).
Proof.
  intros Hm [w s].
  pose proof (not_counted_not_in isStopping m (ConsoleLog StoppingPlayback) w
                Hm eq_refl) as Hno.
  unfold awaitS, effectsOf in *. destruct (m w) as [[w1 e1] r]. simpl in *.
  pose proof (deliver_stop (sigints H w1) s) as Hst.
  pose proof (deliver_logs_stop (sigints H w1) s) as Hlog.
  destruct (deliver (sigints H w1) s) as [s1 e2]. simpl in *.
  split.
  - intro Hs. now rewrite Hst, Hs.
  - intro Hin. apply in_app_or in Hin. destruct Hin; [contradiction|auto].
Qed.

Lemma stopSafe_obtainUrl (track : StoredTrack) : stopSafe (obtainUrl H track).
Proof.
  unfold obtainUrl.
  destruct (Play.toResolve track) as [id|]; [|apply stopSafe_ret].
  apply stopSafe_tryCatch.
  - apply stopSafe_bind; [|intro; apply stopSafe_ret].
    apply stopSafe_awaitS, (atMost_resolver isStopping only_stopping).
  - intro msg. apply stopSafe_bind; [|intro; apply stopSafe_ret].
    apply stopSafe_emit. discriminate.
Qed.

Lemma stopSafe_playTrack (track : StoredTrack) (player u : string) :
  stopSafe (playTrack H track player u).
Proof.
  unfold playTrack.
  apply stopSafe_finally; [|apply stopSafe_setCurrentChild].
  apply stopSafe_tryCatch.
  - apply stopSafe_bind.
    + apply stopSafe_sync, (atMost_spawnChild isStopping only_stopping).
    + intro c. apply stopSafe_bind; [apply stopSafe_setCurrentChild|].
      intros _.
      apply stopSafe_awaitS, (atMost_awaitAnyEvent isStopping).
  - intro msg. apply stopSafe_emit. discriminate.
Qed.

Lemma stopSafe_afterUrl (track : StoredTrack) (url : option string) :
  stopSafe (afterUrl H track url).
Proof.
  unfold afterUrl.
  assert (Hno : stopSafe
                  (emit (ConsoleLog (NoPlayableUrl (t_title track))) ;;
                   @ret child (W * session child) control Next)).
  { apply stopSafe_bind; [|intro; apply stopSafe_ret].
    apply stopSafe_emit. discriminate. }
  destruct url as [u|]; [|exact Hno].
  destruct (Js.truthy (Some u)); [|exact Hno].
  apply stopSafe_bind.
  - eapply stopSafe_awaitS, atMost_le;
      [|apply (atMost_detectAudioPlayer isStopping only_stopping)].
    simpl. lia.
  - intros [player|].
    + apply stopSafe_bind; [apply stopSafe_playTrack|].
      intro; apply stopSafe_ret.
    + apply stopSafe_bind; [|intro; apply stopSafe_ret].
      apply stopSafe_emit. discriminate.
Qed.

Lemma stopSafe_iteration (total i : nat) (track : StoredTrack) :
  stopSafe (iteration H total i track).
Proof.
  unfold iteration.
  apply stopSafe_bind; [apply stopSafe_emit; discriminate|]. intros _.
  apply stopSafe_bind; [apply stopSafe_obtainUrl|].
  intros [url|]; [apply stopSafe_afterUrl|apply stopSafe_ret].
Qed.

(** Within one iteration nothing is announced after a stop notice. *)
Lemma iteration_quiet_after_stop (total i : nat) (track : StoredTrack)
    (st : W * session child) (tr1 tr2 : list (effect child)) :
  effectsOf (iteration H total i track st)
  = tr1 ++ ConsoleLog StoppingPlayback :: tr2 ->
  announced tr2 = [].
Proof.
  destruct (iteration_rest isAnnounce only_announce eq_refl total i track st)
    as (rest & -> & Hrest).
  apply announced_none in Hrest. intro E.
  destruct tr1 as [|x tr1]; [discriminate|].
  injection E as _ E. rewrite E, announced_app in Hrest.
  apply app_eq_nil in Hrest. exact (proj2 Hrest).
Qed.

Lemma playLoop_quiet_after_stop (tracks : list StoredTrack) (fuel i : nat)
    (st : W * session child) (tr1 tr2 : list (effect child)) :
  effectsOf (playLoop H tracks fuel i st)
  = tr1 ++ ConsoleLog StoppingPlayback :: tr2 ->
  announced tr2 = [].
Proof.
  revert i st tr1; induction fuel as [|fuel IH]; intros i st tr1 E.
  - simpl in E. now apply app_cons_not_nil in E.
  - destruct (nth_error tracks i) as [track|] eqn:Ht.
    2:{ cbn [playLoop] in E. rewrite Ht in E.
        now apply app_cons_not_nil in E. }
    destruct st as [w s]. destruct (stopRequested s) eqn:Hs.
    { rewrite (playLoop_stopped tracks (S fuel) i w s Hs) in E.
      now apply app_cons_not_nil in E. }
    rewrite (playLoop_step tracks fuel i track (w, s) Ht Hs) in E.
    pose proof (iteration_quiet_after_stop (length tracks) i track (w, s))
      as Hq.
    pose proof (proj2 (stopSafe_iteration (length tracks) i track (w, s)))
      as Hsafe.
    unfold effectsOf in *.
    destruct (iteration H (length tracks) i track (w, s))
      as [[[w1 s1] e1] [[|]|msg|]]; simpl in *;
      rewrite ?app_nil_r in E; try (eapply Hq; eassumption).
    pose proof (IH (S i) (w1, s1)) as IH'.
    pose proof (playLoop_stopped tracks fuel (S i) w1 s1) as Hstop.
    destruct (playLoop H tracks fuel (S i) (w1, s1)) as [[st2 e2] r2].
    simpl in *. symmetry in E. apply app_eq_app in E.
    destruct E as (l & [[E1 E2]|[E1 E2]]).
    + eapply IH'. exact E2.
    + destruct l as [|x l].
      * simpl in E2. eapply (IH' []). symmetry. exact E2.
      * injection E2 as <- E2.
        assert (Hin : In (ConsoleLog StoppingPlayback) e1).
        { rewrite E1. apply in_or_app. right. now left. }
        specialize (Hstop (Hsafe Hin)). injection Hstop as _ -> _.
        rewrite app_nil_r in E2. subst tr2. eapply Hq. exact E1.
Qed.

(** C2: the SIGINT listener raises the stop flag and, while a child is the
    current one, sends it SIGINT; a signal arriving while track k plays
    therefore reaches its process and leaves the flag raised; with the flag
    raised the loop starts nothing and is left at its next test; and in no
    run is a track announced after a stop notice. *)
Theorem stop_is_immediate (tracks : list StoredTrack) (fuel k : nat)
    (track : StoredTrack) (st st1 : W * session child)
    (e1 : list (effect child)) :
  (forall (s : session child) c,
     currentChild s = Some c ->
     onSigint s = (mkSession (Some c) true,
                   [Kill c "SIGINT"; ConsoleLog StoppingPlayback]))
  /\ (forall s : session child, stopRequested (fst (onSigint s)) = true)
  /\ (forall player u w s w1 w2 c ev evs n,
        spawn H w player (playerArgs player u) (playerStdio player)
        = (w1, inl c) ->
        events H w1 c = (w2, ev :: evs) ->
        sigints H w2 = S n ->
        playTrack H track player u (w, s)
        = ((w2, mkSession None true),
           Spawn player (playerArgs player u) (playerStdio player)
           :: Kill c "SIGINT" :: ConsoleLog StoppingPlayback :: killed n c,
           Normal tt))
  /\ (nth_error tracks k = Some track ->
      stopRequested (snd st) = false ->
      iteration H (length tracks) k track st = (st1, e1, Normal Next) ->
      stopRequested (snd st1) = true ->
      playLoop H tracks (S fuel) k st = (st1, e1, Normal LoopDone))
  /\ (forall i w s,
        stopRequested s = true ->
        playLoop H tracks fuel i (w, s) = ((w, s), [], Normal LoopDone))
  /\ (forall start w tr1 tr2,
        effectsOf (handlePlaylistCommand H tracks start w)
        = tr1 ++ ConsoleLog StoppingPlayback :: tr2 ->
        announced tr2 = []).
Proof.
  split; [|split; [|split; [|split; [|split]]]].
  - intros s c Hc. unfold onSigint. now rewrite Hc.
  - intro s. reflexivity.
  - intros player u w s w1 w2 c ev evs n Hs He Hn.
    rewrite (playTrack_run track player u w w1 w2 s c ev evs Hs He), Hn.
    cbn. now rewrite orb_true_r.
  - intros Ht Hs Hi Hstop.
    rewrite (playLoop_step tracks fuel k track st Ht Hs), Hi.
    destruct st1 as [w1 s1].
    rewrite (playLoop_stopped tracks fuel (S k) w1 s1 Hstop).
    now rewrite app_nil_r.
  - intros i w s Hs. now apply playLoop_stopped.
  - intros start w tr1 tr2. rewrite run_unfold.
    pose proof (playLoop_quiet_after_stop tracks (length tracks - start) start
                  (w, @initial child)) as Hq.
    unfold effectsOf in *.
    destruct (playLoop H tracks (length tracks - start) start (w, initial))
      as [[stl el] [[|]|msg|]]; simpl in *; rewrite ?app_nil_r;
      try (apply Hq).
    intro E. apply app_eq_app in E.
    destruct E as (l & [[E1 E2]|[E1 E2]]).
    + destruct l as [|x l]; simpl in E2; [discriminate|].
      injection E2 as <- E2. subst tr2.
      rewrite announced_app. simpl. rewrite app_nil_r.
      eapply Hq. exact E1.
    + destruct l as [|x l]; simpl in E2; [discriminate|].
      injection E2 as _ E2. now apply app_cons_not_nil in E2.
Qed.

End Sequencer.

Example road_trip_with_two_bad_tracks :
  PlaylistCmd.handlePlaylistCommand (Samples.host Samples.onlyMpv Samples.quiet Playlists.Unreadable)
    [Samples.trackA; Samples.trackGone; Samples.trackBare; Samples.trackC] 0 0
  = ((13, PlaylistCmd.mkSession None false),
     [Runtime.ConsoleLog (Runtime.NowPlaying 1 4 "A");
      Runtime.DetectCalled;
      Ytdlp.versionCheck "cvlc"; Ytdlp.versionCheck "mpv";
      Runtime.Spawn "mpv" ["https://cdn/a"; "--no-video"; "--really-quiet"]
                    Runtime.IgnoreAll;
      Runtime.ConsoleLog (Runtime.NowPlaying 2 4 "G");
      Runtime.ResolverCalled "gone";
      Runtime.ConsoleLog
        (Runtime.FailedToResolveStream "G"
           "This video is not available for streaming.");
      Runtime.ConsoleLog (Runtime.NowPlaying 3 4 "N");
      Runtime.ConsoleLog (Runtime.NoPlayableUrl "N");
      Runtime.ConsoleLog (Runtime.NowPlaying 4 4 "C");
      Runtime.DetectCalled;
      Ytdlp.versionCheck "cvlc"; Ytdlp.versionCheck "mpv";
      Runtime.Spawn "mpv" ["https://cdn/c"; "--no-video"; "--really-quiet"]
                    Runtime.IgnoreAll;
      Runtime.ConsoleLog Runtime.PlaylistFinishedOrStopped],
     Normal tt).
Proof. reflexivity. Qed.

Lemma failure_isolation_witness :
  let H := Samples.host Samples.onlyMpv Samples.quiet Playlists.Unreadable in
  let tracks := [Samples.trackA; Samples.trackGone; Samples.trackBare;
                 Samples.trackC] in
  PlaylistCmd.announced (Runtime.effectsOf
               (PlaylistCmd.playLoop H tracks 3 1 (6, PlaylistCmd.initial)))
  = [2; 3; 4]
  /\ PlaylistCmd.announced (Runtime.effectsOf
                  (PlaylistCmd.playLoop H tracks 2 2 (7, PlaylistCmd.initial)))
     = [3; 4].
Proof.
  intros H tracks. split.
  - rewrite (proj1 (failure_isolation H tracks 2 1 Samples.trackGone 6
                      PlaylistCmd.initial eq_refl eq_refl)
               "gone" "This video is not available for streaming." 7
               eq_refl eq_refl).
    reflexivity.
  - rewrite (proj1 (proj2 (failure_isolation H tracks 1 2 Samples.trackBare 7
                             PlaylistCmd.initial eq_refl eq_refl))
               eq_refl eq_refl).
    reflexivity.
Defined.

(** C5, as stated, fails: one call of the play loop over two tracks that
    both have a URL calls detectAudioPlayer twice. *)
Lemma detection_repeated_for_each_track :
  PlaylistCmd.detections
    (Runtime.effectsOf
       (PlaylistCmd.handlePlaylistCommand
          (Samples.host Samples.onlyMpv Samples.quiet Playlists.Unreadable)
          [Samples.trackA; Samples.trackC] 0 0)) = 2
  /\ ~ PlaylistCmd.detections
         (Runtime.effectsOf
            (PlaylistCmd.handlePlaylistCommand
               (Samples.host Samples.onlyMpv Samples.quiet Playlists.Unreadable)
               [Samples.trackA; Samples.trackC] 0 0)) <= 1.
Proof.
  split; [reflexivity|].
  change (~ 2 <= 1). lia.
Qed.

Lemma detection_once_per_track_witness :
  let H := Samples.host Samples.nothing Samples.quiet Playlists.Unreadable in
  PlaylistCmd.handlePlaylistCommand H [Samples.trackA; Samples.trackC] 0 0
  = ((6, PlaylistCmd.mkSession None false),
     [Runtime.ConsoleLog (Runtime.NowPlaying 1 2 "A");
      Runtime.DetectCalled;
      Ytdlp.versionCheck "cvlc"; Ytdlp.versionCheck "mpv";
      Ytdlp.versionCheck "aplay";
      Runtime.ConsoleLog Runtime.NoAudioPlayerOnSystem],
     Normal tt)
  /\ PlaylistCmd.detections
       (Runtime.effectsOf
          (PlaylistCmd.afterUrl H Samples.trackA (Some "https://cdn/a")
             (0, PlaylistCmd.initial))) = 1.
Proof.
  intro H.
  pose proof (detection_once_per_track H [Samples.trackA; Samples.trackC] 0 0)
    as (_ & Hone & _ & Habort & Hrun).
  split.
  - rewrite (Hrun _ _ (Habort 1 0 Samples.trackA (0, PlaylistCmd.initial)
                         0 PlaylistCmd.initial [] "https://cdn/a" 6 _
                         eq_refl eq_refl eq_refl eq_refl eq_refl)).
    reflexivity.
  - apply Hone. reflexivity.
Defined.

Example stop_during_first_track :
  PlaylistCmd.handlePlaylistCommand (Samples.host Samples.onlyMpv Samples.ctrlC Playlists.Unreadable)
    [Samples.trackA; Samples.trackC] 0 0
  = ((6, PlaylistCmd.mkSession None true),
     [Runtime.ConsoleLog (Runtime.NowPlaying 1 2 "A");
      Runtime.DetectCalled;
      Ytdlp.versionCheck "cvlc"; Ytdlp.versionCheck "mpv";
      Runtime.Spawn "mpv" ["https://cdn/a"; "--no-video"; "--really-quiet"]
                    Runtime.IgnoreAll;
      Runtime.Kill "mpv" "SIGINT";
      Runtime.ConsoleLog Runtime.StoppingPlayback;
      Runtime.ConsoleLog Runtime.PlaylistFinishedOrStopped],
     Normal tt).
Proof. reflexivity. Qed.

(** A signal that arrives while the player is still being looked up finds
    no current child: the track announced before it is still played, and
    only the next test of the loop sees the flag. *)
Example stop_during_discovery :
  PlaylistCmd.handlePlaylistCommand
    (Samples.host Samples.onlyMpv Samples.ctrlCEarly Playlists.Unreadable)
    [Samples.trackA; Samples.trackC] 0 0
  = ((6, PlaylistCmd.mkSession None true),
     [Runtime.ConsoleLog (Runtime.NowPlaying 1 2 "A");
      Runtime.DetectCalled;
      Ytdlp.versionCheck "cvlc"; Ytdlp.versionCheck "mpv";
      Runtime.ConsoleLog Runtime.StoppingPlayback;
      Runtime.Spawn "mpv" ["https://cdn/a"; "--no-video"; "--really-quiet"]
                    Runtime.IgnoreAll;
      Runtime.ConsoleLog Runtime.PlaylistFinishedOrStopped],
     Normal tt).
Proof. reflexivity. Qed.

Lemma stop_is_immediate_witness :
  let H := Samples.host Samples.onlyMpv Samples.ctrlC Playlists.Unreadable in
  PlaylistCmd.playTrack H Samples.trackA "mpv" "https://cdn/a"
    (4, PlaylistCmd.initial)
  = ((6, PlaylistCmd.mkSession None true),
     [Runtime.Spawn "mpv" ["https://cdn/a"; "--no-video"; "--really-quiet"]
                    Runtime.IgnoreAll;
      Runtime.Kill "mpv" "SIGINT";
      Runtime.ConsoleLog Runtime.StoppingPlayback],
     Normal tt)
  /\ PlaylistCmd.playLoop H [Samples.trackA; Samples.trackC] 2 0
       (0, PlaylistCmd.initial)
     = ((6, PlaylistCmd.mkSession None true),
        [Runtime.ConsoleLog (Runtime.NowPlaying 1 2 "A");
         Runtime.DetectCalled;
         Ytdlp.versionCheck "cvlc"; Ytdlp.versionCheck "mpv";
         Runtime.Spawn "mpv" ["https://cdn/a"; "--no-video"; "--really-quiet"]
                       Runtime.IgnoreAll;
         Runtime.Kill "mpv" "SIGINT";
         Runtime.ConsoleLog Runtime.StoppingPlayback],
        Normal PlaylistCmd.LoopDone)
  /\ PlaylistCmd.playLoop H [Samples.trackA; Samples.trackC] 1 1
       (6, PlaylistCmd.mkSession None true)
     = ((6, PlaylistCmd.mkSession None true), [], Normal PlaylistCmd.LoopDone).
Proof.
  intro H.
  pose proof (stop_is_immediate H [Samples.trackA; Samples.trackC] 1 0
                Samples.trackA (0, PlaylistCmd.initial)
                (6, PlaylistCmd.mkSession None true)
                [Runtime.ConsoleLog (Runtime.NowPlaying 1 2 "A");
                 Runtime.DetectCalled;
                 Ytdlp.versionCheck "cvlc"; Ytdlp.versionCheck "mpv";
                 Runtime.Spawn "mpv"
                   ["https://cdn/a"; "--no-video"; "--really-quiet"]
                   Runtime.IgnoreAll;
                 Runtime.Kill "mpv" "SIGINT";
                 Runtime.ConsoleLog Runtime.StoppingPlayback])
    as (_ & _ & Hplay & Hexit & Hnext & _).
  split; [|split].
  - apply (Hplay "mpv" "https://cdn/a" 4 PlaylistCmd.initial 5 6 "mpv"
             (Runtime.OnExit (Some 0%Z)) [Runtime.OnClose (Some 0%Z)] 0);
      reflexivity.
  - apply Hexit; reflexivity.
  - apply Hnext. reflexivity.
Defined.

(* ================================================================== *)
(** * Further properties of the store *)

Section StoreLookups.
Import Playlists.

Lemma findIndex_none {A} (f : A -> bool) (l : list A) :
  Js.findIndex f l = None <-> (forall x, In x l -> f x = false).
Proof.
  induction l as [|y l IH]; simpl.
  - split; [intros _ x []|reflexivity].
  - destruct (f y) eqn:Hy.
    + split; [discriminate|]. intro Hall. rewrite (Hall y) in Hy by now left.
      discriminate.
    + destruct (Js.findIndex f l) as [i|]; simpl.
      * split; [discriminate|]. intro Hall.
        assert (Hn : Some i = None)
          by (apply IH; intros x Hx; apply Hall; now right).
        discriminate.
      * split; [|reflexivity]. intros _ x [<-|Hx]; [exact Hy|].
        now apply (proj1 IH).
Qed.

Lemma findIndex_split {A} (f : A -> bool) (l : list A) (i : nat) :
  Js.findIndex f l = Some i ->
  exists before x after,
    l = before ++ x :: after /\ length before = i
    /\ (forall y, In y before -> f y = false) /\ f x = true.
Proof.
  revert i; induction l as [|y l IH]; intros i E; simpl in E; [discriminate|].
  destruct (f y) eqn:Hy.
  - injection E as <-. exists [], y, l. repeat split; auto. intros z [].
  - destruct (Js.findIndex f l) as [j|]; [|discriminate].
    injection E as <-. destruct (IH j eq_refl) as (b & x & a & -> & <- & Hb & Hx).
    exists (y :: b), x, a. repeat split; auto.
    intros z [<-|Hz]; auto.
Qed.

Lemma find_none_iff {A} (f : A -> bool) (l : list A) :
  find f l = None <-> (forall x, In x l -> f x = false).
Proof.
  split; [apply find_none|].
  induction l as [|y l IH]; intro Hall; simpl; [reflexivity|].
  rewrite (Hall y) by now left. apply IH. intros x Hx. apply Hall. now right.
Qed.

Lemma findIndex_same_keys {A} (f : A -> bool) (before after : list A) (x x' : A) :
  f x' = f x ->
  Js.findIndex f (before ++ x' :: after) = Js.findIndex f (before ++ x :: after).
Proof.
  intro E. induction before as [|y before IH]; simpl.
  - now rewrite E.
  - now rewrite IH.
Qed.

Lemma find_filter {A} (f g : A -> bool) (l : list A) :
  find f (filter g l) = find (fun x => g x && f x) l.
Proof.
  induction l as [|y l IH]; simpl; [reflexivity|].
  destruct (g y); simpl; [|exact IH]. destruct (f y); [reflexivity|exact IH].
Qed.

Lemma splice1_firstn_skipn {A} (i : nat) (l : list A) :
  Js.splice1 i l = firstn i l ++ skipn (S i) l.
Proof.
  revert i; induction l as [|x l IH]; intros [|i]; simpl; try reflexivity.
  now rewrite IH.
Qed.

Lemma splice1_pushed {A} (l : list A) (x : A) :
  Js.splice1 (length l) (l ++ [x]) = l.
Proof. induction l as [|y l IH]; simpl; [reflexivity|now rewrite IH]. Qed.

Lemma matches_pushTrack (k : string) (t : StoredTrack) (p : Playlist) :
  matches k (pushTrack t p) = matches k p.
Proof. reflexivity. Qed.


(** What a successful addTrackToPlaylist did, read back from its result. *)
Lemma addTrack_inv (addedAt key : string) (track : StoredTrack) (f f' : file)
    (p' : Playlist) :
  addTrackToPlaylist addedAt key track f = (f', Normal p') ->
  exists before p after,
    f = Holds (Lists (before ++ p :: after))
    /\ (forall q, In q before -> matches key q = false)
    /\ matches key p = true
    /\ p' = pushTrack (stamp track addedAt) p
    /\ f' = Holds (Lists (before ++ p' :: after)).
Proof.
  unfold addTrackToPlaylist. intro E.
  destruct f as [|[lists| |]]; simpl in E; try discriminate.
  destruct (Js.findIndex (matches key) lists) as [idx|] eqn:Hi;
    [|discriminate].
  destruct (findIndex_split _ _ _ Hi) as (b & p & a & -> & <- & Hb & Hp).
  rewrite nth_error_middle, updateAt_middle in E. injection E as <- <-.
  exists b, p, a. repeat split; auto.
Qed.

(** X1: a track added with addTrackToPlaylist is read back by getPlaylist
    under the same key as the last track of the playlist, stamped with the
    time of the addition; the playlist is otherwise as it was, and every key
    still resolves to the same position of the collection. *)
Theorem add_then_get (addedAt key : string) (track : StoredTrack)
    (f f' : file) (p' : Playlist) :
  addTrackToPlaylist addedAt key track f = (f', Normal p') ->
  getPlaylist key f' = Normal (Some p')
  /\ (exists p,
        getPlaylist key f = Normal (Some p)
        /\ p_tracks p' = p_tracks p ++ [stamp track addedAt]
        /\ p_id p' = p_id p /\ p_name p' = p_name p
        /\ p_createdAt p' = p_createdAt p)
  /\ t_addedAt (last (p_tracks p') track) = addedAt
  /\ (exists lists lists',
        loadPlaylists f = Lists lists /\ loadPlaylists f' = Lists lists'
        /\ length lists' = length lists
        /\ forall k, Js.findIndex (matches k) lists'
                     = Js.findIndex (matches k) lists).
Proof.
  intro E. destruct (addTrack_inv _ _ _ _ _ _ E)
    as (b & p & a & -> & Hb & Hp & -> & ->).
  split; [|split; [|split]].
  - unfold getPlaylist; simpl. now rewrite find_first.
  - exists p. unfold getPlaylist; simpl. rewrite find_first by assumption.
    repeat split.
  - simpl. now rewrite last_last.
  - exists (b ++ p :: a), (b ++ pushTrack (stamp track addedAt) p :: a).
    repeat split.
    + rewrite !length_app. reflexivity.
    + intro k. now apply findIndex_same_keys.
Qed.

Lemma add_then_get_witness :
  getPlaylist "rock"
    (fst (addTrackToPlaylist "t9" "rock" Samples.trackB Samples.shelf))
  = Normal (Some (pushTrack (stamp Samples.trackB "t9") Samples.rock2)).
Proof.
  apply (add_then_get "t9" "rock" Samples.trackB Samples.shelf _ _ eq_refl).
Defined.

(** X2: removing the last track right after an addition gives back the
    file as it was before the addition. *)
Theorem add_then_remove_last (addedAt key : string) (track : StoredTrack)
    (f f' : file) (p' : Playlist) :
  addTrackToPlaylist addedAt key track f = (f', Normal p') ->
  removeTrackFromPlaylist key (Z.of_nat (length (p_tracks p') - 1)) f'
  = (f, Normal tt).
Proof.
  intro E. destruct (addTrack_inv _ _ _ _ _ _ E)
    as (b & p & a & -> & Hb & Hp & -> & ->).
  unfold removeTrackFromPlaylist; simpl.
  rewrite findIndex_first by assumption. rewrite nth_error_middle.
  cbn [pushTrack p_tracks]. rewrite length_app. cbn [length].
  replace (length (p_tracks p) + 1 - 1) with (length (p_tracks p)) by lia.
  destruct (Z.ltb_spec (Z.of_nat (length (p_tracks p))) 0); [lia|].
  destruct (Z.leb_spec (Z.of_nat (length (p_tracks p) + 1))
                       (Z.of_nat (length (p_tracks p)))); [lia|].
  simpl. rewrite Nat2Z.id, updateAt_middle.
  unfold spliceTrack, pushTrack, savePlaylists.
  cbn [p_id p_name p_tracks p_createdAt].
  rewrite splice1_pushed. destruct p. reflexivity.
Qed.

Lemma add_then_remove_last_witness :
  removeTrackFromPlaylist "rock" 1
    (fst (addTrackToPlaylist "t9" "rock" Samples.trackB Samples.shelf))
  = (Samples.shelf, Normal tt).
Proof.
  apply (add_then_remove_last "t9" "rock" Samples.trackB Samples.shelf _ _
           eq_refl).
Defined.

End StoreLookups.

Section StoreEdges.
Import Playlists.

Lemma find_appended {A} (f : A -> bool) (l : list A) (x : A) :
  f x = true ->
  find f (l ++ [x]) = Some (match find f l with Some q => q | None => x end).
Proof.
  intro Hx. induction l as [|y l IH]; simpl.
  - now rewrite Hx.
  - destruct (f y); [reflexivity|exact IH].
Qed.

Lemma find_kept {A} (f : A -> bool) (l l' : list A) (q : A) :
  find f l = Some q -> find f (l ++ l') = Some q.
Proof.
  induction l as [|y l IH]; simpl; [discriminate|].
  destruct (f y); [auto|exact IH].
Qed.

(** X3: when no stored playlist has the key as id or name, getPlaylist
    finds nothing, addTrackToPlaylist and removeTrackFromPlaylist both fail
    with "Playlist not found", and neither writes the file; conversely a
    lookup that finds nothing means that no playlist matches. *)
Theorem missing_playlist (key addedAt : string) (track : StoredTrack)
    (i : Z) (f : file) (lists : list Playlist) :
  loadPlaylists f = Lists lists ->
  ((forall p, In p lists -> matches key p = false) <->
   getPlaylist key f = Normal None)
  /\ ((forall p, In p lists -> matches key p = false) ->
      addTrackToPlaylist addedAt key track f = (f, Throw "Playlist not found")
      /\ removeTrackFromPlaylist key i f = (f, Throw "Playlist not found")).
Proof.
  intro Hl. split.
  - unfold getPlaylist. rewrite Hl. simpl. split.
    + intro Hnone. f_equal. now apply find_none_iff.
    + intro E. injection E as E. now apply find_none_iff.
  - intro Hnone. apply findIndex_none in Hnone.
    unfold addTrackToPlaylist, removeTrackFromPlaylist.
    rewrite Hl. simpl. now rewrite Hnone.
Qed.

Lemma missing_playlist_witness :
  addTrackToPlaylist "t9" "blues" Samples.trackA Samples.shelf
  = (Samples.shelf, Throw "Playlist not found")
  /\ removeTrackFromPlaylist "blues" 0 Samples.shelf
     = (Samples.shelf, Throw "Playlist not found").
Proof.
  apply (missing_playlist "blues" "t9" Samples.trackA 0 Samples.shelf
           [Samples.jazz; Samples.roadTrip; Samples.rock2] eq_refl).
  intros p [<-|[<-|[<-|[]]]]; reflexivity.
Defined.

(** X4: removeTrackFromPlaylist acts on the first playlist matching the
    key.  An index below 0 or not below the number of its tracks fails with
    "Track index out of range" and writes nothing; an index inside removes
    exactly the track at that index: the tracks before it keep their
    positions, the tracks after it move up by one, and getPlaylist reads
    the shortened playlist back. *)
Theorem remove_track_bounds (key : string) (i : Z)
    (before after : list Playlist) (p : Playlist) :
  (forall q, In q before -> matches key q = false) ->
  matches key p = true ->
  let f := Holds (Lists (before ++ p :: after)) in
  ((i < 0 \/ Z.of_nat (length (p_tracks p)) <= i)%Z ->
   removeTrackFromPlaylist key i f = (f, Throw "Track index out of range"))
  /\ ((0 <= i < Z.of_nat (length (p_tracks p)))%Z ->
      exists p',
        removeTrackFromPlaylist key i f
        = (Holds (Lists (before ++ p' :: after)), Normal tt)
        /\ getPlaylist key (Holds (Lists (before ++ p' :: after)))
           = Normal (Some p')
        /\ p_tracks p'
           = firstn (Z.to_nat i) (p_tracks p)
             ++ skipn (S (Z.to_nat i)) (p_tracks p)
        /\ S (length (p_tracks p')) = length (p_tracks p)
        /\ (forall j, j < Z.to_nat i ->
              nth_error (p_tracks p') j = nth_error (p_tracks p) j)
        /\ (forall j, Z.to_nat i <= j ->
              nth_error (p_tracks p') j = nth_error (p_tracks p) (S j))).
Proof.
  intros Hb Hp f. unfold f, removeTrackFromPlaylist. simpl.
  rewrite findIndex_first by assumption. rewrite nth_error_middle.
  split.
  - intros [Hlo|Hhi].
    + destruct (Z.ltb_spec i 0); [reflexivity|lia].
    + destruct (Z.ltb_spec i 0); [reflexivity|].
      destruct (Z.leb_spec (Z.of_nat (length (p_tracks p))) i);
        [reflexivity|lia].
  - intros [Hlo Hhi].
    destruct (Z.ltb_spec i 0); [lia|].
    destruct (Z.leb_spec (Z.of_nat (length (p_tracks p))) i); [lia|].
    simpl. rewrite updateAt_middle.
    exists (spliceTrack (Z.to_nat i) p).
    assert (Hn : Z.to_nat i < length (p_tracks p)) by lia.
    assert (Ht : p_tracks (spliceTrack (Z.to_nat i) p)
                 = firstn (Z.to_nat i) (p_tracks p)
                   ++ skipn (S (Z.to_nat i)) (p_tracks p))
      by apply splice1_firstn_skipn.
    split; [reflexivity|]. split.
    { unfold getPlaylist. simpl. rewrite find_first; auto. }
    split; [exact Ht|]. rewrite Ht.
    assert (Hfl : length (firstn (Z.to_nat i) (p_tracks p)) = Z.to_nat i)
      by (apply firstn_length_le; lia).
    split; [|split].
    + rewrite length_app, Hfl, length_skipn. lia.
    + intros j Hj. rewrite nth_error_app1 by lia.
      rewrite nth_error_firstn.
      destruct (Nat.ltb_spec j (Z.to_nat i)); [reflexivity|lia].
    + intros j Hj. rewrite nth_error_app2 by lia. rewrite Hfl.
      rewrite nth_error_skipn.
      replace (S (Z.to_nat i) + (j - Z.to_nat i)) with (S j) by lia.
      reflexivity.
Qed.

Lemma remove_track_bounds_witness :
  removeTrackFromPlaylist "road-trip" 3 Samples.shelf
  = (Samples.shelf, Throw "Track index out of range")
  /\ exists p',
       removeTrackFromPlaylist "road-trip" 1 Samples.shelf
       = (Holds (Lists ([Samples.jazz] ++ p' :: [Samples.rock2])), Normal tt)
       /\ p_tracks p' = [Samples.trackA; Samples.trackC].
Proof.
  pose proof (fun i => remove_track_bounds "road-trip" i [Samples.jazz]
                [Samples.rock2] Samples.roadTrip) as Hr.
  split.
  - apply Hr; [intros q [<-|[]]; reflexivity|reflexivity|]. right. simpl. lia.
  - destruct (proj2 (Hr 1%Z ltac:(intros q [<-|[]]; reflexivity) eq_refl))
      as (p' & E & _ & Ht & _); [simpl; lia|].
    exists p'. split; [exact E|exact Ht].
Defined.

(** X5: after deletePlaylist the key resolves to nothing, deleting again
    changes nothing, and any other key resolves to the first playlist that
    matched it among those not matching the deleted key. *)
Theorem delete_then_get (key : string) (f f1 : file) (lists : list Playlist) :
  loadPlaylists f = Lists lists ->
  deletePlaylist key f = (f1, Normal tt) ->
  getPlaylist key f1 = Normal None
  /\ deletePlaylist key f1 = (f1, Normal tt)
  /\ (forall k,
        getPlaylist k f1
        = Normal (find (fun p => negb (matches key p) && matches k p) lists)).
Proof.
  intros Hl E. unfold deletePlaylist in E. rewrite Hl in E. simpl in E.
  injection E as <-.
  rewrite (filter_ext _ _ (keep_is_not_match key)).
  split; [|split].
  - unfold getPlaylist, savePlaylists. simpl. f_equal.
    apply find_none_iff. intros x Hx. apply filter_In in Hx.
    destruct Hx as [_ Hx]. now apply negb_true_iff in Hx.
  - unfold deletePlaylist, savePlaylists. simpl.
    rewrite (filter_ext _ _ (keep_is_not_match key)).
    do 3 f_equal. apply filter_all_kept.
    intros x Hx. apply filter_In in Hx. tauto.
  - intro k. unfold getPlaylist, savePlaylists. simpl.
    now rewrite find_filter.
Qed.

Lemma delete_then_get_witness :
  getPlaylist "rock" (fst (deletePlaylist "rock" Samples.shelf)) = Normal None.
Proof.
  apply (delete_then_get "rock" Samples.shelf _
           [Samples.jazz; Samples.roadTrip; Samples.rock2] eq_refl eq_refl).
Defined.

(** X6: createPlaylist appends the new playlist after the stored ones and
    does not look at their names: every lookup that found a playlist before
    finds the same one afterwards, so the new playlist is read back under
    its name (or id) only when no older playlist has that name or id as its
    own id or name; otherwise the older one is returned. *)
Theorem create_then_get (now : Z) (createdAt name : string) (f f' : file)
    (lists : list Playlist) (p : Playlist) :
  loadPlaylists f = Lists lists ->
  createPlaylist now createdAt name f = (f', Normal p) ->
  loadPlaylists f' = Lists (lists ++ [p])
  /\ (forall k q, getPlaylist k f = Normal (Some q) ->
                  getPlaylist k f' = Normal (Some q))
  /\ getPlaylist name f'
     = Normal (Some (match find (matches name) lists with
                     | Some q => q
                     | None => p
                     end))
  /\ getPlaylist (p_id p) f'
     = Normal (Some (match find (matches (p_id p)) lists with
                     | Some q => q
                     | None => p
                     end)).
Proof.
  intros Hl E. unfold createPlaylist in E. rewrite Hl in E. simpl in E.
  injection E as <- <-.
  split; [reflexivity|]. split; [|split].
  - intros k q. unfold getPlaylist, savePlaylists. rewrite Hl. simpl.
    intro E. injection E as E. f_equal. now apply find_kept.
  - unfold getPlaylist, savePlaylists. simpl. f_equal. apply find_appended.
    unfold matches. simpl. rewrite String.eqb_refl. apply orb_true_r.
  - unfold getPlaylist, savePlaylists. simpl. f_equal. apply find_appended.
    unfold matches. simpl. now rewrite String.eqb_refl.
Qed.

Lemma create_then_get_witness :
  getPlaylist "rock"
    (fst (createPlaylist 1730548800000 "c" "rock" Samples.shelf))
  = Normal (Some Samples.rock2).
Proof.
  apply (create_then_get 1730548800000 "c" "rock" Samples.shelf _
           [Samples.jazz; Samples.roadTrip; Samples.rock2] _ eq_refl eq_refl).
Defined.

Lemma performAll_stuck (bad : file) (message : StoreCalls.call -> string)
    (cs : list StoreCalls.call) :
  (forall c, StoreCalls.perform c bad = (bad, Throw (message c))) ->
  StoreCalls.performAll cs bad
  = (bad, map (fun c => Throw (message c)) cs).
Proof.
  intro Hstuck. induction cs as [|c cs IH]; [reflexivity|].
  cbn [StoreCalls.performAll map]. now rewrite Hstuck, IH.
Qed.

(** X7: the program never repairs a playlists file that holds a value
    other than an array.  Whatever calls of the store are made one after
    the other on such a file, each of them throws the TypeError of the
    array method it calls first ([push] for a creation, [find] for a
    lookup, [findIndex] for an addition or a removal, [filter] for a
    deletion) and the file is left as it is; the same with a file that
    holds [null].  A file that cannot be read or parsed is taken for an
    empty list: lookups, additions and removals find nothing and leave it
    unreadable, and the first creation or deletion writes a list. *)
Theorem damaged_store (cs : list StoreCalls.call) :
  StoreCalls.performAll cs (Holds NotAnArray)
  = (Holds NotAnArray,
     map (fun c =>
            Throw
              match c with
              | StoreCalls.Create _ _ _ => "lists.push is not a function"
              | StoreCalls.Get _ => "lists.find is not a function"
              | StoreCalls.Add _ _ _ => "lists.findIndex is not a function"
              | StoreCalls.Remove _ _ => "lists.findIndex is not a function"
              | StoreCalls.Delete _ => "lists.filter is not a function"
              end) cs)
  /\ StoreCalls.performAll cs (Holds Null)
     = (Holds Null,
        map (fun c =>
               Throw
                 match c with
                 | StoreCalls.Create _ _ _ =>
                     "Cannot read properties of null (reading 'push')"
                 | StoreCalls.Get _ =>
                     "Cannot read properties of null (reading 'find')"
                 | StoreCalls.Add _ _ _ =>
                     "Cannot read properties of null (reading 'findIndex')"
                 | StoreCalls.Remove _ _ =>
                     "Cannot read properties of null (reading 'findIndex')"
                 | StoreCalls.Delete _ =>
                     "Cannot read properties of null (reading 'filter')"
                 end) cs)
  /\ ((forall c, In c cs -> StoreCalls.rewrites c = false) ->
      StoreCalls.performAll cs Unreadable
      = (Unreadable,
         map (fun c =>
                match c with
                | StoreCalls.Get _ => Normal tt
                | _ => Throw "Playlist not found"
                end) cs))
  /\ (forall c rest,
        StoreCalls.rewrites c = true ->
        exists lists,
          StoreCalls.performAll (c :: rest) Unreadable
          = (let '(f, rs) := StoreCalls.performAll rest (Holds (Lists lists))
             in (f, Normal tt :: rs))
          /\ length lists <= 1).
Proof.
  split; [|split; [|split]].
  - apply performAll_stuck. now intros [].
  - apply performAll_stuck. now intros [].
  - induction cs as [|c cs IH]; intro Hn; [reflexivity|].
    assert (Hc : StoreCalls.rewrites c = false) by (apply Hn; now left).
    cbn [StoreCalls.performAll map].
    destruct c; try discriminate; cbn; rewrite IH;
      try reflexivity; intros c' Hc'; apply Hn; now right.
  - intros c rest Hc. destruct c; try discriminate.
    + eexists [_]. cbn. split; [reflexivity|lia].
    + exists []. cbn. split; [reflexivity|lia].
Qed.

End StoreEdges.

Lemma damaged_store_witness :
  StoreCalls.performAll
    [StoreCalls.Get "rock"; StoreCalls.Add "t9" "rock" Samples.trackA;
     StoreCalls.Remove "rock" 0]
    Playlists.Unreadable
  = (Playlists.Unreadable,
     [Normal tt; Throw "Playlist not found"; Throw "Playlist not found"]).
Proof.
  apply (proj1 (proj2 (proj2 (damaged_store
                                [StoreCalls.Get "rock";
                                 StoreCalls.Add "t9" "rock" Samples.trackA;
                                 StoreCalls.Remove "rock" 0])))).
  intros c [<-|[<-|[<-|[]]]]; reflexivity.
Defined.

(* ================================================================== *)
(** * Further properties of discovery and of playAndAwait *)

Section DiscoveryShape.
Import Runtime Ytdlp Laws.
Local Open Scope mon_scope.
Context {W child : Type} (H : Host W child).

Lemma detectLoop_step_pending (player : string) (rest : list string)
    (w w1 : W) (e : list (effect child)) :
  probe H player w = (w1, e, Pending) ->
  detectLoop H (player :: rest) w = (w1, [versionCheck player], Pending).
Proof.
  intro E. pose proof (probe_effects H player w) as Heff.
  rewrite E in Heff. simpl in Heff. subst e.
  cbn [detectLoop]. unfold tryCatch.
  now rewrite (bind_pending _ _ _ _ _ E).
Qed.

Lemma detectLoop_shape (candidates : list string) (w : W) :
  exists k,
    effectsOf (detectLoop H candidates w)
    = map versionCheck (firstn k candidates)
    /\ k <= length candidates
    /\ (forall c, snd (detectLoop H candidates w) = Normal (Some c) ->
          exists j, k = S j /\ nth_error candidates j = Some c)
    /\ (snd (detectLoop H candidates w) = Normal None ->
        k = length candidates).
Proof.
  revert w; induction candidates as [|player rest IH]; intro w.
  - exists 0. simpl. repeat split; auto. discriminate.
  - destruct (probe H player w) as [[w1 e] [found| msg|]] eqn:Hp.
    + rewrite (detectLoop_step_found H _ _ rest _ _ _ Hp).
      exists 1. simpl. repeat split; try lia.
      * intros c E. injection E as <-. now exists 0.
      * discriminate.
    + rewrite (detectLoop_step_rejected H _ _ rest _ _ _ Hp).
      destruct (IH w1) as (k & Hk & Hle & Hsome & Hnone).
      unfold effectsOf in *.
      destruct (detectLoop H rest w1) as [[w2 e2] r2]. simpl in *.
      exists (S k). simpl. rewrite Hk. repeat split; try lia.
      * intros c E. destruct (Hsome c E) as (j & -> & Hj).
        now exists (S j).
      * intro E. now rewrite (Hnone E).
    + rewrite (detectLoop_step_pending _ rest _ _ _ Hp).
      exists 1. simpl. repeat split; try lia; discriminate.
Qed.

Lemma availablePlayers_known (p : platform) (c : string) :
  In c (availablePlayers p) -> In c knownPlayers.
Proof.
  unfold knownPlayers. destruct p; simpl; intuition.
Qed.

Lemma detect_returns_known (w w1 : W) (e1 : list (effect child)) (c : string) :
  detectAudioPlayer H w = (w1, e1, Normal (Some c)) ->
  In c (availablePlayers (os_platform H w)).
Proof.
  rewrite detectAudioPlayer_run. intro E.
  destruct (detectLoop_shape (availablePlayers (os_platform H w)) w)
    as (k & _ & _ & Hsome & _).
  destruct (detectLoop H (availablePlayers (os_platform H w)) w)
    as [[w2 e2] r2]. injection E as _ _ ->.
  destruct (Hsome c eq_refl) as (j & _ & Hj).
  eapply nth_error_In. exact Hj.
Qed.

(** X8: on every host, the version checks of one discovery are the
    candidates of the platform taken in order from the first one, each
    checked once and at most three in all; a returned player is the
    candidate checked last and one of afplay, cvlc, mpv and aplay; null is
    returned only after all candidates were checked. *)
Theorem detection_probes_a_prefix (w : W) :
  let candidates := availablePlayers (os_platform H w) in
  exists k,
    effectsOf (detectAudioPlayer H w)
    = DetectCalled :: map versionCheck (firstn k candidates)
    /\ k <= length candidates /\ length candidates <= 3
    /\ (forall c, snd (detectAudioPlayer H w) = Normal (Some c) ->
          (exists j, k = S j /\ nth_error candidates j = Some c)
          /\ In c knownPlayers)
    /\ (snd (detectAudioPlayer H w) = Normal None -> k = length candidates).
Proof.
  intro candidates. unfold candidates. rewrite detectAudioPlayer_run.
  destruct (detectLoop_shape (availablePlayers (os_platform H w)) w)
    as (k & Hk & Hle & Hsome & Hnone).
  unfold effectsOf in *.
  destruct (detectLoop H (availablePlayers (os_platform H w)) w)
    as [[w2 e2] r2]. simpl in *.
  exists k. rewrite Hk. repeat split; auto.
  - destruct (os_platform H w); simpl; lia.
  - destruct (Hsome c H0) as (j & _ & Hj).
    eapply availablePlayers_known, nth_error_In. exact Hj.
Qed.

End DiscoveryShape.

Lemma detection_probes_a_prefix_witness :
  In "mpv" Laws.knownPlayers
  /\ 2 = length (Ytdlp.availablePlayers Runtime.Win32).
Proof.
  split.
  - destruct (detection_probes_a_prefix
                (Samples.host Samples.onlyMpv Samples.quiet Playlists.Unreadable)
                0) as (k & _ & _ & _ & Hsome & _).
    apply (Hsome "mpv" eq_refl).
  - destruct (detection_probes_a_prefix
                (Runtime.mkHost (fun _ : nat => Runtime.Win32)
                   (fun w cmd _ _ => (S w, inl cmd))
                   (fun w (c : string) => (S w, [Runtime.OnError "ENOENT"]))
                   (fun w id => (w, Pending)) (fun _ => 0)
                   (fun _ => Playlists.Unreadable))
                0) as (k & Hk & _ & _ & _ & Hnone).
    specialize (Hnone eq_refl). subst k. reflexivity.
Defined.

Section PlayerChoice.
Import Runtime Play Laws.
Local Open Scope mon_scope.
Context {W child : Type} (H : Host W child).

(** X9: when discovery selects aplay the stream URL reaches no process:
    playAndAwait spawns "aplay -f cd" and behaves the same for any two URLs,
    and so does the playback stage of the playlist loop. *)
Theorem aplay_never_sees_the_url (url1 url2 title1 title2 : string) (w w1 : W)
    (e1 : list (effect child)) :
  Ytdlp.detectAudioPlayer H w = (w1, e1, Normal (Some "aplay")) ->
  playAndAwait H url1 title1 w = playAndAwait H url2 title2 w
  /\ (exists e2,
        effectsOf (playAndAwait H url1 title1 w)
        = e1 ++ Spawn "aplay" ["-f"; "cd"] PipeIgnorePipe :: e2)
  /\ (forall track st,
        PlaylistCmd.playTrack H track "aplay" url1 st
        = PlaylistCmd.playTrack H track "aplay" url2 st).
Proof.
  intro Hd. split; [|split].
  - unfold playAndAwait, tryCatch.
    now rewrite !(bind_run _ _ _ _ _ _ Hd).
  - unfold playAndAwait, tryCatch, effectsOf.
    rewrite (bind_run _ _ _ _ _ _ Hd).
    unfold bind, spawnChild, awaitOutcome. cbn [spawnRequest String.eqb].
    simpl.
    destruct (spawn H w1 "aplay" ["-f"; "cd"] PipeIgnorePipe) as [w2 [c|err]].
    + destruct (events H w2 c) as [w3 evs].
      destruct (dispatch evs) as [st out].
      destruct (outcome st); simpl; eexists; reflexivity.
    + simpl. rewrite <- app_assoc. eexists. reflexivity.
  - intros track st. reflexivity.
Qed.

(** X10: playAndAwait answers true only when a player was found and
    spawned and the first event of its process was an end (exit or close)
    with code 0. *)
Theorem played_means_exit_code_zero (url title : string) (w : W) :
  snd (playAndAwait H url title w) = Normal true ->
  exists player w1 e1 w2 c w3 ev evs,
    Ytdlp.detectAudioPlayer H w = (w1, e1, Normal (Some player))
    /\ (let '(cmd, args, io) := spawnRequest player url in
        spawn H w1 cmd args io = (w2, inl c))
    /\ events H w2 c = (w3, ev :: evs)
    /\ (ev = OnClose (Some 0%Z) \/ ev = OnExit (Some 0%Z)).
Proof.
  intro E.
  destruct (Ytdlp.detectAudioPlayer H w) as [[w1 e1] [[player|]|msg|]] eqn:Hd.
  - destruct (spawnRequest player url) as [[cmd args] io] eqn:Hrq.
    destruct (spawn H w1 cmd args io) as [w2 [c|err]] eqn:Hs.
    + destruct (events H w2 c) as [w3 [|ev evs]] eqn:He.
      * assert (Hs' : let '(cmd, args, io) := spawnRequest player url in
                      spawn H w1 cmd args io = (w2, inl c))
          by now rewrite Hrq.
        rewrite (playAndAwait_spawned H _ title _ _ _ _ _ _ _ _ Hd Hs' He) in E.
        discriminate.
      * assert (Hs' : let '(cmd, args, io) := spawnRequest player url in
                      spawn H w1 cmd args io = (w2, inl c))
          by now rewrite Hrq.
        rewrite (playAndAwait_spawned H _ title _ _ _ _ _ _ _ _ Hd Hs' He) in E.
        rewrite dispatch_first in E. simpl in E. injection E as E.
        exists player, w1, e1, w2, c, w3, ev, evs.
        rewrite Hrq. repeat split; auto.
        destruct ev as [m|[[| |]|]|[[| |]|]]; simpl in E;
          try discriminate; auto.
    + assert (Hs' : let '(cmd, args, io) := spawnRequest player url in
                    spawn H w1 cmd args io = (w2, inr err))
        by now rewrite Hrq.
      rewrite (playAndAwait_spawn_throws H _ title _ _ _ _ _ _ Hd Hs') in E.
      discriminate.
  - rewrite (playAndAwait_no_player H _ title _ _ _ Hd) in E. discriminate.
  - exfalso. pose proof (detectAudioPlayer_run H w) as Hr. rewrite Hd in Hr.
    pose proof (detectLoop_never_throws H
                  (Ytdlp.availablePlayers (os_platform H w)) w msg) as Hn.
    destruct (Ytdlp.detectLoop H (Ytdlp.availablePlayers (os_platform H w)) w)
      as [[w2 e2] r2]. injection Hr as _ _ <-. now apply Hn.
  - unfold playAndAwait, tryCatch in E.
    rewrite (bind_pending _ _ _ _ _ Hd) in E. discriminate.
Qed.

End PlayerChoice.

Lemma aplay_never_sees_the_url_witness :
  let H := Samples.host Samples.onlyAplay Samples.quiet Playlists.Unreadable in
  Play.playAndAwait H "https://cdn/a" "A" 0
  = Play.playAndAwait H "https://cdn/c" "C" 0.
Proof.
  intro H.
  apply (aplay_never_sees_the_url H "https://cdn/a" "https://cdn/c" "A" "C"
           0 _ _ eq_refl).
Defined.

Lemma played_means_exit_code_zero_witness :
  exists player, In player Laws.knownPlayers
  /\ fst (fst (Play.spawnRequest player "https://cdn/a")) = "mpv".
Proof.
  destruct (played_means_exit_code_zero
              (Samples.host Samples.onlyMpv Samples.quiet Playlists.Unreadable)
              "https://cdn/a" "A" 0 eq_refl)
    as (player & w1 & e1 & w2 & c & w3 & ev & evs & Hd & _).
  exists player. injection Hd as _ _ <-. split; [simpl; auto|reflexivity].
Defined.

(* ================================================================== *)
(** * What never throws *)

Section NeverThrows.
Import Runtime Laws.
Context {child St : Type}.

Lemma neverThrows_ret {A} (a : A) : neverThrows (@ret child St A a).
Proof. intros s msg. discriminate. Qed.

Lemma neverThrows_emit (e : effect child) : neverThrows (@emit child St e).
Proof. intros s msg. discriminate. Qed.

Lemma neverThrows_bind {A B} (m : Mon child St A) (k : A -> Mon child St B) :
  neverThrows m -> (forall a, neverThrows (k a)) -> neverThrows (bind m k).
Proof.
  intros Hm Hk s msg. specialize (Hm s). unfold bind.
  destruct (m s) as [[s1 e1] [a|m1|]]; simpl in *.
  - specialize (Hk a s1 msg). destruct (k a s1) as [[s2 e2] r2]. exact Hk.
  - now elim (Hm m1).
  - discriminate.
Qed.

Lemma neverThrows_tryCatch {A} (m : Mon child St A)
    (h : string -> Mon child St A) :
  (forall msg, neverThrows (h msg)) -> neverThrows (tryCatch m h).
Proof.
  intros Hh s msg. apply tryCatch_no_throw. intros m1 s1 m2. apply Hh.
Qed.

Lemma neverThrows_finally {A} (m : Mon child St A) (fin : Mon child St unit) :
  neverThrows m -> neverThrows fin -> neverThrows (finally m fin).
Proof.
  intros Hm Hf s msg. specialize (Hm s). unfold finally.
  destruct (m s) as [[s1 e1] r]. simpl in *.
  destruct r as [a|m1|]; try discriminate.
  - specialize (Hf s1). destruct (fin s1) as [[s2 e2] [[]|m2|]]; simpl in *;
      try discriminate. now elim (Hf m2).
  - now elim (Hm m1).
Qed.

End NeverThrows.

Section ContinuationFailures.
Import Runtime Playlists Play Laws.
Local Open Scope mon_scope.
Context {W child : Type} (H : Host W child).

Lemma neverThrows_playAndAwait (url title : string) :
  neverThrows (playAndAwait H url title).
Proof. intros w msg. apply playAndAwait_never_throws. Qed.

Lemma neverThrows_continueTrack (t : StoredTrack) :
  neverThrows (continueTrack H t).
Proof.
  unfold continueTrack. apply neverThrows_bind.
  - destruct (toResolve t) as [id|]; [|apply neverThrows_ret].
    apply neverThrows_tryCatch. intro msg.
    apply neverThrows_bind; [apply neverThrows_emit|].
    intros _. apply neverThrows_ret.
  - intros [[u|]|]; try apply neverThrows_emit; [|apply neverThrows_ret].
    destruct (Js.truthy (Some u)); [|apply neverThrows_emit].
    apply neverThrows_bind; [apply neverThrows_playAndAwait|].
    intros _. apply neverThrows_ret.
Qed.

Lemma neverThrows_continueOver (ts : list StoredTrack) :
  neverThrows (continueOver H ts).
Proof.
  induction ts as [|t ts IH]; cbn [continueOver].
  - apply neverThrows_ret.
  - apply neverThrows_bind; [apply neverThrows_continueTrack|].
    intros _. exact IH.
Qed.

Lemma neverThrows_continueLoop (tracks : list StoredTrack) (fuel i : nat) :
  neverThrows (continueLoop H tracks fuel i).
Proof.
  revert i; induction fuel as [|fuel IH]; intro i; cbn [continueLoop].
  - apply neverThrows_ret.
  - destruct (nth_error tracks i); [|apply neverThrows_ret].
    apply neverThrows_bind; [apply neverThrows_continueTrack|].
    intros _. apply IH.
Qed.

(** X11: no track of a continuation can make it throw: going through the
    tracks never throws, whatever the resolver, the discovery and the
    player do.  When the playlists file cannot be read, or holds a list of
    playlists, the continuation as a whole does not throw either.  When
    the file holds a value without array methods, or [null], the
    continuation throws the TypeError of [playlists.find] before anything
    is looked up or played. *)
Theorem continuation_never_throws_on_a_list_of_playlists
    (selectedId : string) (w : W) :
  (forall ts w' msg, snd (continueOver H ts w') <> Throw msg)
  /\ (forall lists msg,
        loadPlaylists (playlistsFile H w) = Lists lists ->
        snd (continuation H selectedId w) <> Throw msg)
  /\ (playlistsFile H w = Holds NotAnArray ->
      continuation H selectedId w
      = (w, [], Throw "playlists.find is not a function"))
  /\ (playlistsFile H w = Holds Null ->
      continuation H selectedId w
      = (w, [], Throw "Cannot read properties of null (reading 'find')")).
Proof.
  split; [intros ts w' msg; apply neverThrows_continueOver|].
  split; [|split].
  - intros lists msg Hl E.
    rewrite (continuation_run H selectedId w lists Hl) in E.
    destruct (find (hasTrack selectedId) lists) as [pl|]; [|discriminate].
    destruct (Js.findIndex _ (p_tracks pl)) as [idx|]; [|discriminate].
    destruct (Z.of_nat idx <? Z.of_nat (length (p_tracks pl)) - 1)%Z;
      [|discriminate].
    revert E. apply neverThrows_bind; [apply neverThrows_emit|].
    intros _. apply neverThrows_bind; [apply neverThrows_continueLoop|].
    intros _. apply neverThrows_emit.
  - apply continuation_not_an_array.
  - apply continuation_null.
Qed.

End ContinuationFailures.

Lemma continuation_never_throws_on_a_list_of_playlists_witness :
  snd (Play.continuation
         (Samples.host Samples.onlyMpv Samples.quiet Samples.shelf) "v2" 0)
  <> Throw "playlists.find is not a function"
  /\ Play.continuation
       (Samples.host Samples.onlyMpv Samples.quiet
          (Playlists.Holds Playlists.NotAnArray)) "v2" 0
     = (0, [], Throw "playlists.find is not a function").
Proof.
  split.
  - apply (proj1 (proj2 (continuation_never_throws_on_a_list_of_playlists
                           (Samples.host Samples.onlyMpv Samples.quiet
                              Samples.shelf) "v2" 0))
             [Samples.jazz; Samples.roadTrip; Samples.rock2]).
    reflexivity.
  - apply (proj1 (proj2 (proj2
             (continuation_never_throws_on_a_list_of_playlists
                (Samples.host Samples.onlyMpv Samples.quiet
                   (Playlists.Holds Playlists.NotAnArray)) "v2" 0)))).
    reflexivity.
Defined.

(* ================================================================== *)
(** * The two sequencers when no player can be found, and exceptions *)

Section SequencersCompared.
Import Runtime Playlists Play PlaylistCmd Laws.
Local Open Scope mon_scope.
Context {W child : Type} (H : Host W child).

Lemma truthy_some (o : option string) :
  Js.truthy o = true -> exists u, o = Some u /\ (u =? EmptyString) = false.
Proof.
  destruct o as [u|]; simpl; [|discriminate].
  intro E. exists u. split; [reflexivity|]. now apply negb_true_iff.
Qed.

Lemma toResolve_with_url (t : StoredTrack) :
  Js.truthy (t_url t) = true -> toResolve t = None.
Proof. intro E. unfold toResolve. now rewrite E. Qed.

Lemma continueOver_with_url (x : StoredTrack) (u : string)
    (rest : list StoredTrack) (w : W) :
  t_url x = Some u -> (u =? EmptyString) = false ->
  continueOver H (x :: rest) w
  = (_ <- playAndAwait H u (t_title x) ;; continueOver H rest) w.
Proof.
  intros Hu Hne. cbn [continueOver]. unfold continueTrack, toResolve.
  rewrite Hu. unfold Js.truthy. rewrite Hne. cbn [negb andb].
  unfold bind, ret. cbn [Js.truthy]. rewrite Hne. cbn [negb].
  destruct (playAndAwait H u (t_title x) w) as [[w1 e1] [b|m|]];
    simpl; rewrite ?app_nil_r; reflexivity.
Qed.

Lemma detect_reports_no_error (w : W) :
  filter isNoPlayerError (effectsOf (Ytdlp.detectAudioPlayer H w)) = [].
Proof.
  rewrite detectAudioPlayer_run.
  destruct (detectLoop_shape H (Ytdlp.availablePlayers (os_platform H w)) w)
    as (k & Hk & _).
  unfold effectsOf in *.
  destruct (Ytdlp.detectLoop H (Ytdlp.availablePlayers (os_platform H w)) w)
    as [[w1 e1] r]. simpl in *. rewrite Hk. clear Hk.
  induction (firstn k (Ytdlp.availablePlayers (os_platform H w)))
    as [|c l IH]; [reflexivity|exact IH].
Qed.

Section NoPlayer.
Hypothesis no_player :
  forall w, snd (Ytdlp.detectAudioPlayer H w) = Normal None.

Lemma detect_no_player (w : W) :
  exists w1 checks,
    Ytdlp.detectAudioPlayer H w = (w1, DetectCalled :: checks, Normal None)
    /\ detections checks = 0 /\ announced checks = []
    /\ filter isNoUrlNotice checks = [].
Proof.
  pose proof (no_player w) as Hr.
  pose proof (atMost_detectAudioPlayer H isDetect only_detect w) as Hd.
  pose proof (atMost_detectAudioPlayer H isAnnounce only_announce w) as Ha.
  destruct (detectLoop_shape H (Ytdlp.availablePlayers (os_platform H w)) w)
    as (k & Hk & _).
  rewrite detectAudioPlayer_run in *. unfold effectsOf in *.
  destruct (Ytdlp.detectLoop H (Ytdlp.availablePlayers (os_platform H w)) w)
    as [[w1 checks] r].
  cbn [fst snd] in *. subst r. exists w1, checks.
  split; [reflexivity|]. split; [|split].
  - unfold detections. cbn in Hd. lia.
  - apply announced_none. exact Ha.
  - rewrite Hk. clear.
    induction (firstn k (Ytdlp.availablePlayers (os_platform H w)))
      as [|c l IH]; [reflexivity|exact IH].
Qed.

(** One iteration: it either hands over without having called discovery, or
    calls it once, gets no player, prints the notice and returns. *)
Lemma iteration_no_player (total i : nat) (track : StoredTrack)
    (st : W * session child) :
  (detections (effectsOf (iteration H total i track st)) = 0
   /\ snd (iteration H total i track st) <> Normal Return)
  \/ (snd (iteration H total i track st) = Normal Return
      /\ exists before after,
           effectsOf (iteration H total i track st)
           = before ++ DetectCalled :: after
             ++ [ConsoleLog NoAudioPlayerOnSystem]
           /\ detections before = 0 /\ detections after = 0
           /\ announced before = [i + 1] /\ announced after = []).
Proof.
  pose proof (atMost_obtainUrl H isDetect only_detect eq_refl track st) as Hod.
  pose proof (atMost_obtainUrl H isAnnounce only_announce eq_refl track st)
    as Hoa.
  unfold effectsOf in Hod, Hoa.
  destruct (obtainUrl H track st) as [[[w' s'] e1] [[url|]|msg|]] eqn:Ho;
    cbn [fst snd] in Hod, Hoa.
  - rewrite (iteration_run H total i track st (w', s') e1 (Some url) Ho).
    destruct (Js.truthy url) eqn:Hu.
    + destruct (truthy_some _ Hu) as (u & -> & Hne).
      destruct (detect_no_player w') as (w1 & checks & Hdet & Hcd & Hca & _).
      rewrite (afterUrl_no_player H track u w' w1 s' _ Hu Hdet).
      right. split; [reflexivity|].
      exists (ConsoleLog (NowPlaying (i + 1) total (t_title track)) :: e1),
        (checks ++ snd (deliver (sigints H w1) s')).
      unfold effectsOf. cbn [fst snd app]. split.
      { rewrite <- !app_assoc. reflexivity. }
      assert (Hsd : detections (snd (deliver (sigints H w1) s')) = 0).
      { unfold detections. now rewrite deliver_filter. }
      assert (Hsa : announced (snd (deliver (sigints H w1) s')) = []).
      { apply announced_none. now rewrite deliver_filter. }
      rewrite detections_app, announced_app, Hcd, Hca, Hsd, Hsa.
      cbn. rewrite (announced_none e1 Hoa).
      repeat split; try reflexivity. unfold detections in *. cbn. lia.
    + rewrite (afterUrl_no_url H track url (w', s') Hu).
      left. unfold effectsOf. cbn [fst snd]. split; [|discriminate].
      unfold detections in *. cbn. rewrite filter_app, length_app. cbn. lia.
  - rewrite (iteration_run H total i track st (w', s') e1 None Ho).
    left. unfold effectsOf. cbn [fst snd]. split; [|discriminate].
    unfold detections in *. cbn. rewrite filter_app, length_app. cbn. lia.
  - left. unfold iteration, bind, emit, effectsOf. rewrite Ho.
    cbn [fst snd]. split; [|discriminate].
    unfold detections in *. cbn. lia.
  - left. unfold iteration, bind, emit, effectsOf. rewrite Ho.
    cbn [fst snd]. split; [|discriminate].
    unfold detections in *. cbn. lia.
Qed.

Lemma playLoop_no_player (tracks : list StoredTrack) (fuel k : nat)
    (st : W * session child) :
  (detections (effectsOf (playLoop H tracks fuel k st)) = 0
   /\ snd (playLoop H tracks fuel k st) <> Normal Returned)
  \/ (snd (playLoop H tracks fuel k st) = Normal Returned
      /\ exists before after n,
           effectsOf (playLoop H tracks fuel k st)
           = before ++ DetectCalled :: after
             ++ [ConsoleLog NoAudioPlayerOnSystem]
           /\ detections before = 0 /\ detections after = 0
           /\ announced before = seq (k + 1) (S n)
           /\ announced after = []
           /\ k + n < length tracks).
Proof.
  revert k st; induction fuel as [|fuel IH]; intros k st.
  - left. split; [reflexivity|discriminate].
  - destruct (nth_error tracks k) as [track|] eqn:Ht.
    2:{ left. cbn [playLoop]. rewrite Ht. split; [reflexivity|discriminate]. }
    assert (Hk : k < length tracks)
      by (apply nth_error_Some; rewrite Ht; discriminate).
    destruct st as [w s]. destruct (stopRequested s) eqn:Hs.
    + rewrite (playLoop_stopped H tracks (S fuel) k w s Hs).
      left. split; [reflexivity|discriminate].
    + rewrite (playLoop_step H tracks fuel k track (w, s) Ht Hs).
      pose proof (iteration_announces H (length tracks) k track (w, s)) as Ha.
      pose proof (iteration_no_player (length tracks) k track (w, s)) as Hi.
      unfold effectsOf in Ha, Hi.
      destruct (iteration H (length tracks) k track (w, s))
        as [[st1 e1] [[|]|msg|]]; cbn [fst snd] in Ha, Hi.
      * destruct Hi as [[Hd _]|[Hr _]]; [|discriminate].
        specialize (IH (S k) st1). unfold effectsOf in *.
        destruct (playLoop H tracks fuel (S k) st1) as [[st2 e2] r2].
        cbn [fst snd] in *.
        destruct IH as [[Hd2 Hr2]|(Hr2 & before & after & n & -> & Hb & Haf
                                   & Han & Haa & Hn)].
        -- left. split; [|exact Hr2]. rewrite detections_app. lia.
        -- right. split; [exact Hr2|].
           exists (e1 ++ before), after, (S n).
           rewrite <- app_assoc, detections_app, announced_app, Ha, Han.
           repeat split; try assumption; try lia.
      * destruct Hi as [[_ Hr]|(_ & before & after & -> & Hb & Haf & Han
                                & Haa)]; [now elim Hr|].
        right. split; [reflexivity|].
        exists before, after, 0. cbn [fst snd]. rewrite app_nil_r.
        repeat split; try assumption; lia.
      * destruct Hi as [[Hd _]|[Hr _]]; [|discriminate].
        left. split; [exact Hd|discriminate].
      * destruct Hi as [[Hd _]|[Hr _]]; [|discriminate].
        left. split; [exact Hd|discriminate].
Qed.

(** Tracks that have neither a URL nor an id are announced and skipped; the
    first track with a URL that follows them calls discovery and ends the
    loop. *)
Lemma playLoop_skips_to_no_player (tracks : list StoredTrack) (j : nat) :
  forall (k fuel : nat) (track : StoredTrack) (w : W) (s : session child),
    stopRequested s = false ->
    j < fuel ->
    (forall i, i < j ->
       exists t, nth_error tracks (k + i) = Some t
                 /\ Js.truthy (t_url t) = false
                 /\ Js.truthy (t_id t) = false) ->
    nth_error tracks (k + j) = Some track ->
    Js.truthy (t_url track) = true ->
    exists e,
      playLoop H tracks fuel k (w, s)
      = ((fst (fst (Ytdlp.detectAudioPlayer H w)),
          fst (deliver (sigints H (fst (fst (Ytdlp.detectAudioPlayer H w))))
                 s)),
         e ++ [ConsoleLog NoAudioPlayerOnSystem], Normal Returned)
      /\ announced e = seq (k + 1) (S j)
      /\ length (filter isNoUrlNotice e) = j.
Proof.
  induction j as [|j IH]; intros k fuel track w s Hs Hf Hbare Ht Hurl;
    (destruct fuel as [|fuel]; [lia|]).
  - rewrite Nat.add_0_r in Ht.
    rewrite (playLoop_step H tracks fuel k track (w, s) Ht Hs).
    rewrite (iteration_run H _ _ _ _ _ _ _
               (obtainUrl_stored H track (w, s)
                  (toResolve_with_url track Hurl))).
    destruct (truthy_some _ Hurl) as (u & Hu & Hne). rewrite Hu.
    destruct (detect_no_player w) as (w1 & checks & Hdet & Hcd & Hca & Hcn).
    assert (Htr : Js.truthy (Some u) = true) by (simpl; now rewrite Hne).
    rewrite (afterUrl_no_player H track u w w1 s _ Htr Hdet).
    rewrite Hdet. cbn [fst snd app]. rewrite app_nil_r.
    exists (ConsoleLog (NowPlaying (k + 1) (length tracks) (t_title track))
            :: DetectCalled :: checks ++ snd (deliver (sigints H w1) s)).
    split; [cbn [app]; now rewrite <- !app_assoc|].
    split.
    + assert (Hsa : announced (snd (deliver (sigints H w1) s)) = []).
      { apply announced_none. now rewrite deliver_filter. }
      cbn [announced]. now rewrite announced_app, Hca, Hsa.
    + cbn. rewrite filter_app, length_app.
      rewrite Hcn, deliver_filter; reflexivity.
  - destruct (Hbare 0 ltac:(lia)) as (t & Ht0 & Hu0 & Hi0).
    rewrite Nat.add_0_r in Ht0.
    rewrite (playLoop_step H tracks fuel k t (w, s) Ht0 Hs).
    assert (Hres : Play.toResolve t = None).
    { unfold Play.toResolve. now rewrite Hi0, andb_false_r. }
    rewrite (iteration_run H _ _ _ _ _ _ _
               (obtainUrl_stored H t (w, s) Hres)).
    rewrite (afterUrl_no_url H t (t_url t) (w, s) Hu0).
    destruct (IH (S k) fuel track w s Hs ltac:(lia)) as (e & He & Hea & Hen).
    { intros i Hi. destruct (Hbare (S i) ltac:(lia)) as (t' & Ht' & Hrest).
      exists t'. split; [|exact Hrest].
      now replace (S k + i) with (k + S i) by lia. }
    { now replace (S k + j) with (k + S j) by lia. }
    { exact Hurl. }
    rewrite He.
    exists (ConsoleLog (NowPlaying (k + 1) (length tracks) (t_title t))
            :: ConsoleLog (NoPlayableUrl (t_title t)) :: e).
    split; [reflexivity|]. split.
    + cbn. rewrite Hea. replace (S k + 1) with (S (k + 1)) by lia.
      reflexivity.
    + cbn. now rewrite Hen.
Qed.

End NoPlayer.

(** X12: with no player on the machine the two sequencers part ways.  The
    continuation after a single track goes on: for a list of tracks with
    URLs it ends normally having reported "No audio player found" once per
    track.  The play action of the playlist command, for every list of
    tracks and every start, calls discovery at most once: either it never
    gets that far, or the run ends normally at the first track that reaches
    discovery, with the notice "No audio player found on system" as its last
    effect and nothing announced after the call.  The tracks announced up
    to there are the consecutive ones from the start; in particular, when
    the tracks from the start have neither URL nor id up to one with a URL,
    each of them is announced and reported "No playable URL", and the track
    with the URL is the last one announced. *)
Theorem missing_player_stops_only_the_playlist_loop :
  (forall w, snd (Ytdlp.detectAudioPlayer H w) = Normal None) ->
  (forall ts w,
     (forall t, In t ts -> Js.truthy (t_url t) = true) ->
     snd (continueOver H ts w) = Normal tt
     /\ length (filter isNoPlayerError (effectsOf (continueOver H ts w)))
        = length ts)
  /\ (forall tracks start w,
        let r := handlePlaylistCommand H tracks start w in
        detections (effectsOf r) = 0
        \/ (snd r = Normal tt
            /\ exists before after n,
                 effectsOf r
                 = before ++ DetectCalled :: after
                   ++ [ConsoleLog NoAudioPlayerOnSystem]
                 /\ detections before = 0 /\ detections after = 0
                 /\ announced before = seq (start + 1) (S n)
                 /\ announced after = []
                 /\ start + n < length tracks))
  /\ (forall tracks start j track w,
        (forall i, i < j ->
           exists t, nth_error tracks (start + i) = Some t
                     /\ Js.truthy (t_url t) = false
                     /\ Js.truthy (t_id t) = false) ->
        nth_error tracks (start + j) = Some track ->
        Js.truthy (t_url track) = true ->
        snd (handlePlaylistCommand H tracks start w) = Normal tt
        /\ announced (effectsOf (handlePlaylistCommand H tracks start w))
           = seq (start + 1) (S j)
        /\ exists e,
             effectsOf (handlePlaylistCommand H tracks start w)
             = e ++ [ConsoleLog NoAudioPlayerOnSystem]
             /\ length (filter isNoUrlNotice e) = j).
Proof.
  intro Hnone. split; [|split].
  - induction ts as [|t ts IH]; intros w Hurl; [now split|].
    destruct (truthy_some _ (Hurl t (or_introl eq_refl))) as (u & Hu & Hne).
    rewrite (continueOver_with_url t u ts w Hu Hne).
    pose proof (Hnone w) as Hd. pose proof (detect_reports_no_error w) as Hq.
    destruct (Ytdlp.detectAudioPlayer H w) as [[w1 e1] r] eqn:Hdet.
    simpl in Hd. subst r. unfold effectsOf in Hq. simpl in Hq.
    unfold bind. rewrite (playAndAwait_no_player H u (t_title t) w w1 e1 Hdet).
    destruct (IH w1) as [Hr Hc]; [intros t' Ht'; apply Hurl; now right|].
    unfold effectsOf in *.
    destruct (continueOver H ts w1) as [[w2 e2] r2]. simpl in *.
    split; [exact Hr|].
    rewrite !filter_app, !length_app, Hq, Hc. simpl. lia.
  - intros tracks start w r. unfold r. clear r. rewrite run_unfold.
    pose proof (playLoop_no_player Hnone tracks (length tracks - start) start
                  (w, initial)) as Hl.
    unfold effectsOf in *.
    destruct (playLoop H tracks (length tracks - start) start (w, initial))
      as [[st1 e1] [[|]|msg|]]; cbn [fst snd] in *.
    + destruct Hl as [[Hd _]|[Hr _]]; [|discriminate].
      left. rewrite detections_app, Hd. reflexivity.
    + destruct Hl as [[_ Hr]|(_ & before & after & n & -> & Hrest)];
        [now elim Hr|].
      right. split; [reflexivity|].
      exists before, after, n. rewrite app_nil_r. split; [reflexivity|].
      exact Hrest.
    + destruct Hl as [[Hd _]|[Hr _]]; [|discriminate]. now left.
    + destruct Hl as [[Hd _]|[Hr _]]; [|discriminate]. now left.
  - intros tracks start j track w Hbare Ht Hurl.
    assert (Hlen : start + j < length tracks)
      by (apply nth_error_Some; rewrite Ht; discriminate).
    rewrite run_unfold.
    destruct (playLoop_skips_to_no_player Hnone tracks j start
                (length tracks - start) track w initial eq_refl
                ltac:(lia) Hbare Ht Hurl) as (e & -> & Hea & Hen).
    unfold effectsOf. cbn [fst snd]. rewrite app_nil_r.
    split; [reflexivity|]. split.
    + rewrite announced_app, Hea. cbn. now rewrite app_nil_r.
    + now exists e.
Qed.

End SequencersCompared.

Lemma missing_player_stops_only_the_playlist_loop_witness :
  let H := Samples.host Samples.nothing Samples.quiet Playlists.Unreadable in
  snd (Play.continueOver H [Samples.trackA; Samples.trackC] 0) = Normal tt
  /\ PlaylistCmd.announced
       (Runtime.effectsOf
          (PlaylistCmd.handlePlaylistCommand H
             [Samples.trackA; Samples.trackC] 0 0)) = [1]
  /\ PlaylistCmd.announced
       (Runtime.effectsOf
          (PlaylistCmd.handlePlaylistCommand H
             [Samples.trackBare; Samples.trackA; Samples.trackC] 0 0))
     = [1; 2].
Proof.
  intro H.
  assert (Hnone : forall w, snd (Ytdlp.detectAudioPlayer H w) = Normal None)
    by (intro w; reflexivity).
  destruct (missing_player_stops_only_the_playlist_loop H Hnone)
    as (Hc & _ & Hp).
  split; [|split].
  - apply Hc. intros t [<-|[<-|[]]]; reflexivity.
  - apply (Hp [Samples.trackA; Samples.trackC] 0 0 Samples.trackA 0).
    + intros i Hi. inversion Hi.
    + reflexivity.
    + reflexivity.
  - apply (Hp [Samples.trackBare; Samples.trackA; Samples.trackC] 0 1
              Samples.trackA 0).
    + intros i Hi. exists Samples.trackBare.
      assert (i = 0) as -> by lia. repeat split.
    + reflexivity.
    + reflexivity.
Defined.

Section SequencerSafety.
Import Runtime Playlists PlaylistCmd Laws SessionLaws.
Local Open Scope mon_scope.
Context {W child : Type} (H : Host W child).

Lemma neverThrows_awaitS {A} (m : M W child A) :
  neverThrows m -> neverThrows (awaitS H m).
Proof.
  intros Hm [w s] msg. specialize (Hm w msg). unfold awaitS.
  destruct (m w) as [[w1 e1] r].
  destruct (deliver (sigints H w1) s) as [s1 e2]. exact Hm.
Qed.

Lemma neverThrows_setCurrentChild (c : option child) :
  neverThrows (@setCurrentChild W child c).
Proof. intros [w s] msg. discriminate. Qed.

Lemma neverThrows_detectAudioPlayer : neverThrows (Ytdlp.detectAudioPlayer H).
Proof.
  intros w msg. rewrite detectAudioPlayer_run.
  pose proof (detectLoop_never_throws H
                (Ytdlp.availablePlayers (os_platform H w)) w msg) as Hn.
  destruct (Ytdlp.detectLoop H (Ytdlp.availablePlayers (os_platform H w)) w)
    as [[w1 e1] r]. exact Hn.
Qed.

Lemma neverThrows_obtainUrl (track : StoredTrack) :
  neverThrows (obtainUrl H track).
Proof.
  unfold obtainUrl.
  destruct (Play.toResolve track); [|apply neverThrows_ret].
  apply neverThrows_tryCatch. intro msg.
  apply neverThrows_bind; [apply neverThrows_emit|].
  intros _; apply neverThrows_ret.
Qed.

Lemma neverThrows_playTrack (track : StoredTrack) (player u : string) :
  neverThrows (playTrack H track player u).
Proof.
  unfold playTrack.
  apply neverThrows_finally; [|apply neverThrows_setCurrentChild].
  apply neverThrows_tryCatch. intro msg. apply neverThrows_emit.
Qed.

Lemma neverThrows_afterUrl (track : StoredTrack) (url : option string) :
  neverThrows (afterUrl H track url).
Proof.
  unfold afterUrl.
  assert (Hno : neverThrows
                  (emit (ConsoleLog (NoPlayableUrl (t_title track))) ;;
                   @ret child (W * session child) control Next)).
  { apply neverThrows_bind; [apply neverThrows_emit|].
    intros _; apply neverThrows_ret. }
  destruct url as [u|]; [|exact Hno].
  destruct (Js.truthy (Some u)); [|exact Hno].
  apply neverThrows_bind.
  - apply neverThrows_awaitS, neverThrows_detectAudioPlayer.
  - intros [player|]; apply neverThrows_bind;
      try apply neverThrows_playTrack; try apply neverThrows_emit;
      intros _; apply neverThrows_ret.
Qed.

Lemma neverThrows_iteration (total i : nat) (track : StoredTrack) :
  neverThrows (iteration H total i track).
Proof.
  unfold iteration.
  apply neverThrows_bind; [apply neverThrows_emit|]. intros _.
  apply neverThrows_bind; [apply neverThrows_obtainUrl|].
  intros [url|]; [apply neverThrows_afterUrl|apply neverThrows_ret].
Qed.

Lemma neverThrows_playLoop (tracks : list StoredTrack) (fuel i : nat) :
  neverThrows (playLoop H tracks fuel i).
Proof.
  revert i; induction fuel as [|fuel IH]; intro i; cbn [playLoop].
  - apply neverThrows_ret.
  - destruct (nth_error tracks i) as [track|]; [|apply neverThrows_ret].
    intros st msg. destruct (stopRequested (snd st)); [discriminate|].
    revert st msg. apply neverThrows_bind; [apply neverThrows_iteration|].
    intros [|]; [apply IH|apply neverThrows_ret].
Qed.

(** X13: the play action of the playlist command never rejects: whatever
    the resolver, the discovery, spawn and the player processes do, for any
    playlist and start index its run ends normally or is still waiting for
    a process or for the resolver. *)
Theorem play_action_never_rejects (tracks : list StoredTrack) (start : nat)
    (w : W) :
  (forall msg, snd (handlePlaylistCommand H tracks start w) <> Throw msg)
  /\ (snd (handlePlaylistCommand H tracks start w) = Normal tt
      \/ snd (handlePlaylistCommand H tracks start w) = Pending).
Proof.
  assert (Hn : forall msg,
             snd (handlePlaylistCommand H tracks start w) <> Throw msg).
  { intro msg. unfold handlePlaylistCommand, playFrom.
    apply neverThrows_bind; [apply neverThrows_playLoop|].
    intros [|]; [apply neverThrows_emit|apply neverThrows_ret]. }
  split; [exact Hn|].
  destruct (snd (handlePlaylistCommand H tracks start w)) as [[]|msg|];
    auto. now elim (Hn msg).
Qed.

End SequencerSafety.

(* ================================================================== *)
(** * The current child *)

Section CurrentChild.
Import Runtime Playlists PlaylistCmd Laws SessionLaws.
Local Open Scope mon_scope.
Context {W child : Type} (H : Host W child).

Lemma keepsChild_ret {A} (a : A) :
  keepsChild (@ret child (W * session child) A a).
Proof. intro st. reflexivity. Qed.

Lemma keepsChild_emit (e : effect child) :
  keepsChild (@emit child (W * session child) e).
Proof. intro st. reflexivity. Qed.

Lemma keepsChild_bind {A B} (m : @MS W child A) (k : A -> @MS W child B) :
  keepsChild m -> (forall a, keepsChild (k a)) -> keepsChild (bind m k).
Proof.
  intros Hm Hk st. specialize (Hm st). unfold bind.
  destruct (m st) as [[st1 e1] [a|msg|]]; simpl in *; auto.
  specialize (Hk a st1). destruct (k a st1) as [[st2 e2] r2]. simpl in *.
  congruence.
Qed.

Lemma keepsChild_tryCatch {A} (m : @MS W child A)
    (h : string -> @MS W child A) :
  keepsChild m -> (forall msg, keepsChild (h msg)) -> keepsChild (tryCatch m h).
Proof.
  intros Hm Hh st. specialize (Hm st). unfold tryCatch.
  destruct (m st) as [[st1 e1] [a|msg|]]; simpl in *; auto.
  specialize (Hh msg st1). destruct (h msg st1) as [[st2 e2] r2]. simpl in *.
  congruence.
Qed.

Lemma keepsChild_awaitS {A} (m : M W child A) : keepsChild (awaitS H m).
Proof.
  intros [w s]. unfold awaitS. destruct (m w) as [[w1 e1] r].
  pose proof (deliver_child (sigints H w1) s) as Hd.
  destruct (deliver (sigints H w1) s) as [s1 e2]. exact Hd.
Qed.

Lemma keepsChild_obtainUrl (track : StoredTrack) :
  keepsChild (obtainUrl H track).
Proof.
  unfold obtainUrl.
  destruct (Play.toResolve track); [|apply keepsChild_ret].
  apply keepsChild_tryCatch.
  - apply keepsChild_bind; [apply keepsChild_awaitS|].
    intro; apply keepsChild_ret.
  - intro msg. apply keepsChild_bind; [apply keepsChild_emit|].
    intro; apply keepsChild_ret.
Qed.

Lemma clearsChild_of_keeps {A} (m : @MS W child A) :
  keepsChild m -> clearsChild m.
Proof. intros Hm st Hs _. now rewrite Hm. Qed.

Lemma clearsChild_bind {A B} (m : @MS W child A) (k : A -> @MS W child B) :
  clearsChild m -> (forall a, clearsChild (k a)) -> clearsChild (bind m k).
Proof.
  intros Hm Hk st Hs. specialize (Hm st Hs). unfold bind.
  destruct (m st) as [[st1 e1] [a|msg|]]; simpl in *.
  - specialize (Hk a st1). destruct (k a st1) as [[st2 e2] r2]. simpl in *.
    intro Hr. apply Hk; [apply Hm; discriminate|exact Hr].
  - intros _. apply Hm. discriminate.
  - intro F. now elim F.
Qed.

Lemma playTrack_clears (track : StoredTrack) (player u : string)
    (st : W * session child) :
  snd (playTrack H track player u st) <> Pending ->
  currentChild (snd (fst (fst (playTrack H track player u st)))) = None.
Proof.
  destruct st as [w s].
  unfold playTrack, finally, tryCatch, bind, sync, Play.spawnChild,
    setCurrentChild, awaitS, awaitAnyEvent.
  destruct (spawn H w player (playerArgs player u) (playerStdio player))
    as [w1 [c|err]]; cbn.
  - destruct (events H w1 c) as [w2 evs].
    destruct (deliver (sigints H w2) (mkSession (Some c) (stopRequested s)))
      as [s1 e2].
    destruct evs as [|ev evs]; cbn; [intro F; now elim F|reflexivity].
  - reflexivity.
Qed.

Lemma playTrack_starts_with_spawn (track : StoredTrack) (player u : string)
    (st : W * session child) :
  exists tail,
    effectsOf (playTrack H track player u st) = playerSpawn player u :: tail.
Proof.
  destruct st as [w s].
  unfold playTrack, finally, tryCatch, bind, sync, Play.spawnChild,
    setCurrentChild, awaitS, awaitAnyEvent, effectsOf, playerSpawn.
  destruct (spawn H w player (playerArgs player u) (playerStdio player))
    as [w1 [c|err]]; cbn.
  - destruct (events H w1 c) as [w2 evs].
    destruct (deliver (sigints H w2) (mkSession (Some c) (stopRequested s)))
      as [s1 e2].
    destruct evs as [|ev evs]; cbn; eexists; reflexivity.
  - eexists. reflexivity.
Qed.

Lemma clearsChild_afterUrl (track : StoredTrack) (url : option string) :
  clearsChild (afterUrl H track url).
Proof.
  unfold afterUrl.
  assert (Hno : clearsChild
                  (emit (ConsoleLog (NoPlayableUrl (t_title track))) ;;
                   @ret child (W * session child) control Next)).
  { apply clearsChild_of_keeps, keepsChild_bind; [apply keepsChild_emit|].
    intro; apply keepsChild_ret. }
  destruct url as [u|]; [|exact Hno].
  destruct (Js.truthy (Some u)); [|exact Hno].
  apply clearsChild_bind.
  - apply clearsChild_of_keeps, keepsChild_awaitS.
  - intros [player|].
    + apply clearsChild_bind.
      * intros st _. apply playTrack_clears.
      * intro; apply clearsChild_of_keeps, keepsChild_ret.
    + apply clearsChild_of_keeps, keepsChild_bind; [apply keepsChild_emit|].
      intro; apply keepsChild_ret.
Qed.

Lemma clearsChild_iteration (total i : nat) (track : StoredTrack) :
  clearsChild (iteration H total i track).
Proof.
  unfold iteration.
  apply clearsChild_bind; [apply clearsChild_of_keeps, keepsChild_emit|].
  intros _. apply clearsChild_bind.
  - apply clearsChild_of_keeps, keepsChild_obtainUrl.
  - intros [url|]; [apply clearsChild_afterUrl|].
    apply clearsChild_of_keeps, keepsChild_ret.
Qed.

Lemma clearsChild_playLoop (tracks : list StoredTrack) (fuel i : nat) :
  clearsChild (playLoop H tracks fuel i).
Proof.
  revert i; induction fuel as [|fuel IH]; intro i; cbn [playLoop].
  - apply clearsChild_of_keeps, keepsChild_ret.
  - destruct (nth_error tracks i) as [track|];
      [|apply clearsChild_of_keeps, keepsChild_ret].
    intros st Hs. destruct (stopRequested (snd st)); [intros _; exact Hs|].
    revert st Hs. apply clearsChild_bind; [apply clearsChild_iteration|].
    intros [|]; [apply IH|apply clearsChild_of_keeps, keepsChild_ret].
Qed.

(** Signals that arrive while no child is current kill nothing. *)
Lemma awaitS_kills_nothing {A} (m : M W child A) :
  (forall w, filter isKill (effectsOf (m w)) = []) ->
  killsNothing (awaitS H m).
Proof.
  intros Hm [w [c b]] Hs. simpl in Hs. subst c. specialize (Hm w).
  unfold awaitS, effectsOf in *. destruct (m w) as [[w1 e1] r].
  pose proof (@deliver_idle child (sigints H w1) b) as Hd.
  destruct (deliver (sigints H w1) (mkSession None b)) as [s1 e2].
  simpl in *. rewrite filter_app, Hm, Hd. simpl.
  clear. induction (sigints H w1) as [|n IH]; [reflexivity|exact IH].
Qed.

Lemma resolver_kills_nothing (id : string) (w : W) :
  filter isKill (effectsOf (Ytdlp.getYouTubeAudioStream H id w)) = [].
Proof.
  unfold Ytdlp.getYouTubeAudioStream, effectsOf.
  destruct (resolveStream H w id) as [w1 r]. reflexivity.
Qed.

Lemma detect_kills_nothing (w : W) :
  filter isKill (effectsOf (Ytdlp.detectAudioPlayer H w)) = [].
Proof.
  rewrite detectAudioPlayer_run.
  destruct (detectLoop_shape H (Ytdlp.availablePlayers (os_platform H w)) w)
    as (k & Hk & _).
  unfold effectsOf in *.
  destruct (Ytdlp.detectLoop H (Ytdlp.availablePlayers (os_platform H w)) w)
    as [[w1 e1] r]. simpl in *. rewrite Hk. clear Hk.
  induction (firstn k (Ytdlp.availablePlayers (os_platform H w)))
    as [|c l IH]; [reflexivity|exact IH].
Qed.

Lemma obtainUrl_kills_nothing (track : StoredTrack) :
  killsNothing (obtainUrl H track).
Proof.
  intros st Hs. unfold obtainUrl.
  destruct (Play.toResolve track) as [id|]; [|reflexivity].
  pose proof (awaitS_kills_nothing (Ytdlp.getYouTubeAudioStream H id)
                (resolver_kills_nothing id) st Hs) as Hk.
  unfold tryCatch, bind, effectsOf in *.
  destruct (awaitS H (Ytdlp.getYouTubeAudioStream H id) st)
    as [[st1 e1] [u|msg|]]; simpl in *;
    rewrite ?filter_app, ?Hk; reflexivity.
Qed.

End CurrentChild.

(** ** Argument vectors *)

Section Arguments.
Import Runtime.

Lemma spawnRequest_command (player url : string) :
  fst (fst (Play.spawnRequest player url)) = player.
Proof.
  unfold Play.spawnRequest.
  destruct (String.eqb_spec player "aplay") as [->|_]; [reflexivity|].
  destruct (player =? "cvlc"); [reflexivity|].
  destruct (player =? "mpv"); [reflexivity|].
  destruct (player =? "afplay"); reflexivity.
Qed.

Lemma spawnRequest_stdio (player url : string) :
  snd (Play.spawnRequest player url) = PlaylistCmd.playerStdio player.
Proof.
  unfold Play.spawnRequest, PlaylistCmd.playerStdio.
  destruct (player =? "aplay"); [reflexivity|].
  destruct (player =? "cvlc"); [reflexivity|].
  destruct (player =? "mpv"); [reflexivity|].
  destruct (player =? "afplay"); reflexivity.
Qed.

(** C7: the argument vector built for each player, in playAndAwait and in
    the playlist "play" loop, and the stdio option of the aplay branch; and
    that this vector, with the player as command, is what both hand to
    [spawn]: once discovery has returned a player, the next thing
    playAndAwait and the loop do is to spawn it with these arguments, and
    the process they then wait for is the one this call of [spawn]
    returned. *)
Theorem player_argument_shaping (url player : string) :
  let args p := snd (fst (Play.spawnRequest p url)) in
  (args "cvlc" = [url; "--intf"; "dummy"; "--play-and-exit"]
   /\ args "mpv" = [url; "--no-video"; "--really-quiet"]
   /\ args "afplay" = [url]
   /\ args "aplay" = ["-f"; "cd"]
   /\ snd (Play.spawnRequest "aplay" url) = PipeIgnorePipe)
  /\ (PlaylistCmd.playerArgs "cvlc" url
        = [url; "--intf"; "dummy"; "--play-and-exit"]
      /\ PlaylistCmd.playerArgs "mpv" url = [url; "--no-video"; "--really-quiet"]
      /\ PlaylistCmd.playerArgs "afplay" url = [url]
      /\ PlaylistCmd.playerArgs "aplay" url = ["-f"; "cd"]
      /\ PlaylistCmd.playerStdio "aplay" = PipeIgnorePipe)
  /\ (player <> "cvlc" -> player <> "mpv" -> player <> "afplay" ->
      player <> "aplay" ->
      args player = [url] /\ PlaylistCmd.playerArgs player url = [url])
  /\ (forall (W child : Type) (H : Host W child) (w : W),
        snd (fst (Play.spawnChild H (Play.spawnRequest player url) w))
        = [Spawn (fst (fst (Play.spawnRequest player url))) (args player)
                 (snd (Play.spawnRequest player url))])
  /\ (args player = PlaylistCmd.playerArgs player url
      /\ fst (fst (Play.spawnRequest player url)) = player
      /\ snd (Play.spawnRequest player url) = PlaylistCmd.playerStdio player
      /\ (player <> "aplay" -> PlaylistCmd.playerStdio player = IgnoreAll))
  /\ (forall (W child : Type) (H : Host W child) (title : string)
             (w w1 : W) (e1 : list (effect child)),
        Ytdlp.detectAudioPlayer H w = (w1, e1, Normal (Some player)) ->
        let vector := PlaylistCmd.playerArgs player url in
        let io := PlaylistCmd.playerStdio player in
        (exists rest,
           effectsOf (Play.playAndAwait H url title w)
           = e1 ++ Spawn player vector io :: rest)
        /\ (forall w2 c w3 evs,
              spawn H w1 player vector io = (w2, inl c) ->
              events H w2 c = (w3, evs) ->
              Play.playAndAwait H url title w
              = (w3,
                 e1 ++ Spawn player vector io :: snd (Play.dispatch evs),
                 match Play.outcome (fst (@Play.dispatch child evs)) with
                 | Some b => Normal b
                 | None => Pending
                 end))
        /\ (forall w2 err,
              spawn H w1 player vector io = (w2, inr err) ->
              Play.playAndAwait H url title w
              = (w2,
                 e1 ++ [Spawn player vector io;
                        ConsoleError (PlaybackErrorMsg err)],
                 Normal false)))
  /\ (forall (W child : Type) (H : Host W child) (track : Playlists.StoredTrack)
             (w w1 : W) (s : PlaylistCmd.session child)
             (e1 : list (effect child)),
        url <> EmptyString ->
        Ytdlp.detectAudioPlayer H w = (w1, e1, Normal (Some player)) ->
        let vector := PlaylistCmd.playerArgs player url in
        let io := PlaylistCmd.playerStdio player in
        let signals := PlaylistCmd.deliver (sigints H w1) s in
        (exists rest,
           effectsOf (PlaylistCmd.afterUrl H track (Some url) (w, s))
           = e1 ++ snd signals ++ Spawn player vector io :: rest)
        /\ (forall w2 c w3 e evs,
              spawn H w1 player vector io = (w2, inl c) ->
              events H w2 c = (w3, e :: evs) ->
              PlaylistCmd.afterUrl H track (Some url) (w, s)
              = ((w3,
                  PlaylistCmd.mkSession None
                    (PlaylistCmd.stopRequested (fst signals)
                     || (0 <? sigints H w3)%nat)),
                 e1 ++ snd signals
                 ++ Spawn player vector io
                 :: PlaylistCmd.killed (sigints H w3) c,
                 Normal PlaylistCmd.Next)))
  /\ (forall (W child : Type) (H : Host W child)
             (tracks : list Playlists.StoredTrack) (fuel k : nat)
             (track : Playlists.StoredTrack)
             (w w1 w2 w3 : W) (s : PlaylistCmd.session child)
             (e1 : list (effect child)) (c : child) (e : childEvent)
             (evs : list childEvent),
        url <> EmptyString ->
        nth_error tracks k = Some track ->
        Playlists.t_url track = Some url ->
        PlaylistCmd.stopRequested s = false ->
        Ytdlp.detectAudioPlayer H w = (w1, e1, Normal (Some player)) ->
        let vector := PlaylistCmd.playerArgs player url in
        let io := PlaylistCmd.playerStdio player in
        let signals := PlaylistCmd.deliver (sigints H w1) s in
        spawn H w1 player vector io = (w2, inl c) ->
        events H w2 c = (w3, e :: evs) ->
        PlaylistCmd.playLoop H tracks (S fuel) k (w, s)
        = (let '(st', later, r) :=
             PlaylistCmd.playLoop H tracks fuel (S k)
               (w3,
                PlaylistCmd.mkSession None
                  (PlaylistCmd.stopRequested (fst signals)
                   || (0 <? sigints H w3)%nat)) in
           (st',
            (ConsoleLog
               (NowPlaying (k + 1) (length tracks) (Playlists.t_title track))
             :: e1 ++ snd signals
             ++ Spawn player vector io
             :: PlaylistCmd.killed (sigints H w3) c)
            ++ later,
            r))).
Proof.
  intro args. unfold args.
  split; [repeat split; reflexivity|].
  split; [repeat split; reflexivity|].
  assert (Hafter : forall (W child : Type) (H : Host W child)
              (track : Playlists.StoredTrack) (w w1 : W)
              (s : PlaylistCmd.session child) (e1 : list (effect child)),
            url <> EmptyString ->
            Ytdlp.detectAudioPlayer H w = (w1, e1, Normal (Some player)) ->
            PlaylistCmd.afterUrl H track (Some url) (w, s)
            = (let '(st2, e2, r2) :=
                 PlaylistCmd.playTrack H track player url
                   (w1, fst (PlaylistCmd.deliver (sigints H w1) s)) in
               (st2,
                e1 ++ snd (PlaylistCmd.deliver (sigints H w1) s) ++ e2,
                match r2 with
                | Normal _ => Normal PlaylistCmd.Next
                | Throw m => Throw m
                | Pending => Pending
                end))).
  { intros W child H track w w1 s e1 Hne Hd.
    apply String.eqb_neq in Hne.
    unfold PlaylistCmd.afterUrl. cbn [Js.truthy]. rewrite Hne. cbn [negb].
    unfold bind at 1. unfold PlaylistCmd.awaitS. rewrite Hd.
    destruct (PlaylistCmd.deliver (sigints H w1) s) as [s1 sig].
    cbn [fst snd]. unfold bind, ret.
    destruct (PlaylistCmd.playTrack H track player url (w1, s1))
      as [[st2 e2] [[]|m|]]; cbn [app];
      rewrite <- ?app_assoc, ?app_nil_r; reflexivity. }
  split; [|split; [|split; [|split; [|split]]]].
  - intros N1 N2 N3 N4.
    apply String.eqb_neq in N1, N2, N3, N4.
    unfold Play.spawnRequest, PlaylistCmd.playerArgs.
    now rewrite N1, N2, N3, N4.
  - intros W child H w. unfold Play.spawnChild.
    destruct (Play.spawnRequest player url) as [[cmd a] io].
    destruct (spawn H w cmd a io) as [w1 r]. reflexivity.
  - split; [|split; [apply spawnRequest_command|
                     split; [apply spawnRequest_stdio|]]].
    + unfold Play.spawnRequest, PlaylistCmd.playerArgs.
      destruct (player =? "aplay") eqn:Ea.
      * destruct (String.eqb_spec player "cvlc") as [->|_]; [discriminate|].
        destruct (String.eqb_spec player "mpv") as [->|_]; [discriminate|].
        destruct (String.eqb_spec player "afplay") as [->|_];
          [discriminate|reflexivity].
      * destruct (player =? "cvlc"); [reflexivity|].
        destruct (player =? "mpv"); [reflexivity|].
        destruct (player =? "afplay"); reflexivity.
    + intro Hn. apply String.eqb_neq in Hn.
      unfold PlaylistCmd.playerStdio. now rewrite Hn.
  - intros W child H title w w1 e1 Hd.
    set (vector := PlaylistCmd.playerArgs player url).
    set (io := PlaylistCmd.playerStdio player).
    assert (Hrq : Play.spawnRequest player url = (player, vector, io)).
    { pose proof (spawnRequest_command player url) as Hc.
      pose proof (spawnRequest_stdio player url) as Hio.
      assert (Hv : snd (fst (Play.spawnRequest player url)) = vector).
      { unfold vector, Play.spawnRequest, PlaylistCmd.playerArgs.
        destruct (player =? "aplay") eqn:Ea.
        - destruct (String.eqb_spec player "cvlc") as [->|_];
            [discriminate|].
          destruct (String.eqb_spec player "mpv") as [->|_];
            [discriminate|].
          destruct (String.eqb_spec player "afplay") as [->|_];
            [discriminate|reflexivity].
        - destruct (player =? "cvlc"); [reflexivity|].
          destruct (player =? "mpv"); [reflexivity|].
          destruct (player =? "afplay"); reflexivity. }
      destruct (Play.spawnRequest player url) as [[cmd a] io'].
      cbn in Hc, Hio, Hv. now subst. }
    assert (Hok : forall w2 c w3 evs,
               spawn H w1 player vector io = (w2, inl c) ->
               events H w2 c = (w3, evs) ->
               Play.playAndAwait H url title w
               = (w3,
                  e1 ++ Spawn player vector io :: snd (Play.dispatch evs),
                  match Play.outcome (fst (@Play.dispatch child evs)) with
                  | Some b => Normal b
                  | None => Pending
                  end)).
    { intros w2 c w3 evs Hs He.
      rewrite (playAndAwait_spawned H url title player w w1 w2 w3 e1 c evs
                 Hd ltac:(now rewrite Hrq) He).
      now rewrite Hrq. }
    assert (Hko : forall w2 err,
               spawn H w1 player vector io = (w2, inr err) ->
               Play.playAndAwait H url title w
               = (w2,
                  e1 ++ [Spawn player vector io;
                         ConsoleError (PlaybackErrorMsg err)],
                  Normal false)).
    { intros w2 err Hs.
      rewrite (playAndAwait_spawn_throws H url title player err w w1 w2 e1
                 Hd ltac:(now rewrite Hrq)).
      rewrite Hrq. now rewrite <- app_assoc. }
    split; [|split; assumption].
    destruct (spawn H w1 player vector io) as [w2 [c|err]] eqn:Hs.
    + destruct (events H w2 c) as [w3 evs] eqn:He.
      rewrite (Hok _ _ _ _ eq_refl He). now eexists.
    + rewrite (Hko _ _ eq_refl). now eexists.
  - intros W child H track w w1 s e1 Hne Hd.
    set (vector := PlaylistCmd.playerArgs player url).
    set (io := PlaylistCmd.playerStdio player).
    set (signals := PlaylistCmd.deliver (sigints H w1) s).
    pose proof (Hafter W child H track w w1 s e1 Hne Hd) as Hrun.
    fold signals in Hrun.
    split.
    + rewrite Hrun.
      destruct (playTrack_starts_with_spawn H track player url
                  (w1, fst signals)) as (tail & Htail).
      unfold effectsOf in *.
      destruct (PlaylistCmd.playTrack H track player url (w1, fst signals))
        as [[st2 e2] r2]. cbn [fst snd] in *. subst e2.
      now exists tail.
    + intros w2 c w3 e evs Hs He. rewrite Hrun.
      rewrite (playTrack_run H track player url w1 w2 w3 (fst signals) c e
                 evs Hs He).
      reflexivity.
  - intros W child H tracks fuel k track w w1 w2 w3 s e1 c e evs
      Hne Hk Hu Hstop Hd.
    set (vector := PlaylistCmd.playerArgs player url).
    set (io := PlaylistCmd.playerStdio player).
    set (signals := PlaylistCmd.deliver (sigints H w1) s).
    intros Hs He.
    rewrite (playLoop_step H tracks fuel k track (w, s) Hk Hstop).
    assert (Htr : Play.toResolve track = None).
    { apply toResolve_with_url. rewrite Hu. cbn.
      apply negb_true_iff. now apply String.eqb_neq. }
    rewrite (iteration_run H (length tracks) k track (w, s) (w, s) []
               (Some (Playlists.t_url track))
               (obtainUrl_stored H track (w, s) Htr)).
    rewrite Hu, (Hafter W child H track w w1 s e1 Hne Hd).
    fold signals.
    rewrite (playTrack_run H track player url w1 w2 w3 (fst signals) c e
               evs Hs He).
    cbn [app].
    destruct (PlaylistCmd.playLoop H tracks fuel (S k)
                (w3,
                 PlaylistCmd.mkSession None
                   (PlaylistCmd.stopRequested (fst signals)
                    || (0 <? sigints H w3)%nat)))
      as [[st' later] r].
    reflexivity.
Qed.

Lemma player_argument_shaping_witness :
  (snd (fst (Play.spawnRequest "ffplay" "X")) = ["X"]
   /\ PlaylistCmd.playerArgs "ffplay" "X" = ["X"])
  /\ Play.playAndAwait
       (Samples.host Samples.onlyMpv Samples.quiet Playlists.Unreadable)
       "X" "T" 0
     = (6,
        [DetectCalled; Ytdlp.versionCheck "cvlc"; Ytdlp.versionCheck "mpv";
         Spawn "mpv" ["X"; "--no-video"; "--really-quiet"] IgnoreAll],
        Normal true).
Proof.
  split.
  - apply (player_argument_shaping "X" "ffplay"); discriminate.
  - pose proof (player_argument_shaping "X" "mpv")
      as (_ & _ & _ & _ & _ & Hplay & _).
    destruct (Hplay nat string
                (Samples.host Samples.onlyMpv Samples.quiet
                   Playlists.Unreadable)
                "T" 0 4
                [DetectCalled; Ytdlp.versionCheck "cvlc";
                 Ytdlp.versionCheck "mpv"] eq_refl)
      as (_ & Hok & _).
    rewrite (Hok 5 "mpv" 6 [OnExit (Some 0%Z); OnClose (Some 0%Z)]
               eq_refl eq_refl).
    reflexivity.
Defined.

End Arguments.

Section KillsReachThePlayer.
Import Runtime Playlists PlaylistCmd Laws SessionLaws.
Local Open Scope mon_scope.
Context {W child : Type} (H : Host W child).

(** After the URL is known: what is logged before a player is spawned holds
    no signal, and what follows, if anything, starts with the spawn. *)
Lemma afterUrl_kill_shape (track : StoredTrack) (url : option string)
    (st : W * session child) :
  currentChild (snd st) = None ->
  exists pre suffix,
    effectsOf (afterUrl H track url st) = pre ++ suffix
    /\ filter isKill pre = []
    /\ (suffix = []
        \/ exists player u tail, suffix = playerSpawn player u :: tail).
Proof.
  intro Hs. unfold afterUrl.
  assert (Hno : exists pre suffix,
             effectsOf ((emit (ConsoleLog (NoPlayableUrl (t_title track))) ;;
                         @ret child (W * session child) control Next) st)
             = pre ++ suffix
             /\ filter isKill pre = []
             /\ (suffix = []
                 \/ exists player u tail,
                      suffix = @playerSpawn child player u :: tail)).
  { exists [ConsoleLog (NoPlayableUrl (t_title track))], [].
    repeat split; auto. }
  destruct url as [u|]; [|exact Hno].
  destruct (Js.truthy (Some u)); [|exact Hno]. clear Hno.
  pose proof (awaitS_kills_nothing H (Ytdlp.detectAudioPlayer H)
                (detect_kills_nothing H) st Hs) as Hk.
  pose proof (keepsChild_awaitS H (Ytdlp.detectAudioPlayer H) st) as Hc.
  unfold bind at 1. unfold effectsOf in *.
  destruct (awaitS H (Ytdlp.detectAudioPlayer H) st)
    as [[st1 e1] [[player|]|msg|]]; simpl in *.
  - destruct (playTrack_starts_with_spawn H track player u st1) as (tail & Ht).
    unfold bind, effectsOf in *.
    destruct (playTrack H track player u st1) as [[st2 e2] [[]|m2|]];
      simpl in *; subst e2.
    + exists e1, (playerSpawn player u :: tail ++ []).
      repeat split; auto. right. now exists player, u, (tail ++ []).
    + exists e1, (playerSpawn player u :: tail).
      repeat split; auto. right. now exists player, u, tail.
    + exists e1, (playerSpawn player u :: tail).
      repeat split; auto. right. now exists player, u, tail.
  - exists (e1 ++ [ConsoleLog NoAudioPlayerOnSystem]), [].
    rewrite app_nil_r, filter_app, Hk. repeat split; auto.
  - exists e1, []. rewrite app_nil_r. repeat split; auto.
  - exists e1, []. rewrite app_nil_r. repeat split; auto.
Qed.

Lemma iteration_kill_shape (total i : nat) (track : StoredTrack)
    (st : W * session child) :
  currentChild (snd st) = None ->
  exists pre suffix,
    effectsOf (iteration H total i track st)
    = ConsoleLog (NowPlaying (i + 1) total (t_title track)) :: pre ++ suffix
    /\ filter isKill pre = []
    /\ (suffix = []
        \/ exists player u tail, suffix = playerSpawn player u :: tail).
Proof.
  intro Hs. unfold iteration. unfold bind at 1. unfold emit at 1.
  pose proof (obtainUrl_kills_nothing H track st Hs) as Hk.
  pose proof (keepsChild_obtainUrl H track st) as Hc. rewrite Hs in Hc.
  unfold bind, effectsOf in *.
  destruct (obtainUrl H track st) as [[st1 e1] [[url|]|msg|]]; simpl in *.
  - destruct (afterUrl_kill_shape track url st1 Hc)
      as (pre & suffix & He & Hpre & Hsuf).
    unfold effectsOf in He.
    destruct (afterUrl H track url st1) as [[st2 e2] r2]. simpl in *.
    subst e2. exists (e1 ++ pre), suffix.
    rewrite app_assoc, filter_app, Hk, Hpre. auto.
  - exists e1, []. auto.
  - exists e1, []. rewrite app_nil_r. auto.
  - exists e1, []. rewrite app_nil_r. auto.
Qed.

(** Within an iteration, a signal is sent only after the player of that
    iteration was spawned. *)
Lemma iteration_kill_after_spawn (total i : nat) (track : StoredTrack)
    (st : W * session child) (tr1 tr2 : list (effect child)) (c : child)
    (sg : string) :
  currentChild (snd st) = None ->
  effectsOf (iteration H total i track st) = tr1 ++ Kill c sg :: tr2 ->
  exists t1 t2 player u,
    tr1 = t1 ++ playerSpawn player u :: t2 /\ announced t2 = [].
Proof.
  intros Hs E.
  pose proof (iteration_announces H total i track st) as Ha.
  destruct (iteration_kill_shape total i track st Hs)
    as (pre & suffix & He & Hpre & Hsuf).
  rewrite He in E, Ha. rewrite E in Ha.
  destruct tr1 as [|x tr1]; [discriminate|].
  injection E as <- E. simpl in Ha. injection Ha as Ha.
  apply app_eq_app in E. destruct E as (l & [[E1 E2]|[E1 E2]]).
  - exfalso. destruct l as [|y l]; simpl in E2.
    + destruct Hsuf as [->|(player & u & tail & ->)]; discriminate.
    + injection E2 as <- _. subst pre. rewrite filter_app in Hpre.
      apply app_eq_nil in Hpre. destruct Hpre as [_ Hpre]. discriminate.
  - destruct Hsuf as [->|(player & u & tail & ->)].
    + now apply app_cons_not_nil in E2.
    + destruct l as [|y l]; simpl in E2; [discriminate|].
      injection E2 as <- E2. subst tr1.
      exists (ConsoleLog (NowPlaying (i + 1) total (t_title track)) :: pre),
        l, player, u.
      split; [reflexivity|].
      rewrite <- app_assoc, !announced_app in Ha.
      apply app_eq_nil in Ha. destruct Ha as [_ Ha].
      simpl in Ha. apply app_eq_nil in Ha. exact (proj1 Ha).
Qed.

Lemma playLoop_kill_after_spawn (tracks : list StoredTrack) (fuel i : nat)
    (st : W * session child) (tr1 tr2 : list (effect child)) (c : child)
    (sg : string) :
  currentChild (snd st) = None ->
  effectsOf (playLoop H tracks fuel i st) = tr1 ++ Kill c sg :: tr2 ->
  exists t1 t2 player u,
    tr1 = t1 ++ playerSpawn player u :: t2 /\ announced t2 = [].
Proof.
  revert i st tr1; induction fuel as [|fuel IH]; intros i st tr1 Hs E.
  - simpl in E. now apply app_cons_not_nil in E.
  - destruct (nth_error tracks i) as [track|] eqn:Ht.
    2:{ cbn [playLoop] in E. rewrite Ht in E.
        now apply app_cons_not_nil in E. }
    destruct st as [w s]. destruct (stopRequested s) eqn:Hstop.
    { rewrite (playLoop_stopped H tracks (S fuel) i w s Hstop) in E.
      now apply app_cons_not_nil in E. }
    rewrite (playLoop_step H tracks fuel i track (w, s) Ht Hstop) in E.
    pose proof (iteration_kill_after_spawn (length tracks) i track (w, s))
      as Hit.
    pose proof (clearsChild_iteration H (length tracks) i track (w, s) Hs)
      as Hclr.
    unfold effectsOf in *.
    destruct (iteration H (length tracks) i track (w, s))
      as [[st1 e1] [[|]|msg|]]; simpl in *;
      rewrite ?app_nil_r in E; try (eapply Hit; eassumption).
    pose proof (IH (S i) st1) as IH'.
    destruct (playLoop H tracks fuel (S i) st1) as [[st2 e2] r2].
    simpl in *. symmetry in E. apply app_eq_app in E.
    destruct E as (l & [[E1 E2]|[E1 E2]]).
    + destruct (IH' l (Hclr ltac:(discriminate)) E2)
        as (t1 & t2 & player & u & -> & Hq).
      exists (e1 ++ t1), t2, player, u. rewrite E1, <- app_assoc. auto.
    + destruct l as [|x l].
      * simpl in E2. rewrite app_nil_r in E1. subst e1.
        destruct (IH' [] (Hclr ltac:(discriminate)) (eq_sym E2))
          as (t1 & t2 & player & u & F & _).
        now apply app_cons_not_nil in F.
      * injection E2 as <- E2. eapply Hit; eauto.
Qed.

(** X14: the slot of the current child is empty whenever the loop of the
    play action is left, and a SIGINT sent to a process always follows the
    spawn of a player in the same iteration: signals that arrive while a
    URL is being resolved or a player is being looked up reach no
    process. *)
Theorem kills_follow_the_spawn_of_the_track (tracks : list StoredTrack)
    (start : nat) (w : W) :
  (forall fuel i w0 b,
     snd (playLoop H tracks fuel i (w0, mkSession None b)) <> Pending ->
     currentChild
       (snd (fst (fst (playLoop H tracks fuel i (w0, mkSession None b)))))
     = None)
  /\ (forall track st,
        currentChild (snd st) = None ->
        filter isKill (effectsOf (obtainUrl H track st)) = []
        /\ filter isKill
             (effectsOf (awaitS H (Ytdlp.detectAudioPlayer H) st)) = [])
  /\ (forall tr1 tr2 c sg,
        effectsOf (handlePlaylistCommand H tracks start w)
        = tr1 ++ Kill c sg :: tr2 ->
        exists t1 t2 player u,
          tr1 = t1 ++ playerSpawn player u :: t2 /\ announced t2 = []).
Proof.
  split; [|split].
  - intros fuel i w0 b Hp. now apply clearsChild_playLoop.
  - intros track st Hs. split.
    + now apply obtainUrl_kills_nothing.
    + apply awaitS_kills_nothing; [apply detect_kills_nothing|exact Hs].
  - intros tr1 tr2 c sg. rewrite run_unfold.
    pose proof (fun a b => playLoop_kill_after_spawn tracks
                  (length tracks - start) start (w, initial) a b c sg eq_refl)
      as Hq.
    unfold effectsOf in *.
    destruct (playLoop H tracks (length tracks - start) start (w, initial))
      as [[stl el] [[|]|msg|]]; simpl in *; rewrite ?app_nil_r;
      try (apply Hq).
    intro E. apply app_eq_app in E.
    destruct E as (l & [[E1 E2]|[E1 E2]]).
    + destruct l as [|x l]; simpl in E2; [discriminate|].
      injection E2 as <- E2. eapply Hq. exact E1.
    + destruct l as [|x l]; simpl in E2; [discriminate|].
      injection E2 as _ E2. now apply app_cons_not_nil in E2.
Qed.

End KillsReachThePlayer.

Lemma kills_follow_the_spawn_of_the_track_witness :
  exists t1 t2 player u,
    [Runtime.ConsoleLog (Runtime.NowPlaying 1 2 "A");
     Runtime.DetectCalled;
     Ytdlp.versionCheck "cvlc"; Ytdlp.versionCheck "mpv";
     Runtime.Spawn "mpv" ["https://cdn/a"; "--no-video"; "--really-quiet"]
       Runtime.IgnoreAll]
    = t1 ++ @SessionLaws.playerSpawn string player u :: t2
    /\ @PlaylistCmd.announced string t2 = [].
Proof.
  apply (proj2 (proj2 (kills_follow_the_spawn_of_the_track
                         (Samples.host Samples.onlyMpv Samples.ctrlC
                            Playlists.Unreadable)
                         [Samples.trackA; Samples.trackC] 0 0))
           _ [Runtime.ConsoleLog Runtime.StoppingPlayback;
              Runtime.ConsoleLog Runtime.PlaylistFinishedOrStopped]
           "mpv" "SIGINT").
  reflexivity.
Defined.

(* ================================================================== *)
(** * The "add" action *)

Section AddAction.
Import Runtime Playlists JsNumber Actions.

Context {W child : Type} (H : Host W child).
Variable clock : W -> string.
Variable searchYouTube : W -> string -> Z -> W * completion (list YouTubeVideo).

Lemma resolved_app (a b : list (event child)) :
  resolved (a ++ b) = resolved a ++ resolved b.
Proof.
  induction a as [|[l|q l|[m|m| |id|c ar io|c sg]] a IH]; simpl;
    now rewrite ?IH.
Qed.

Lemma searches_app (a b : list (event child)) :
  searches (a ++ b) = searches a ++ searches b.
Proof.
  induction a as [|[l|q l|e] a IH]; simpl; now rewrite ?IH.
Qed.

(** One turn: the resolver is asked once, the turn never throws, the
    counters tell what happened to the file. *)
Lemma addOne_run (name : string) (r : YouTubeVideo) (w : W) (f : file) :
  exists w1 f1 ev res,
    addOne H clock name r (w, f) = ((w1, f1), ev, res)
    /\ resolved ev = [v_id r]
    /\ searches ev = []
    /\ (forall msg, res <> Throw msg)
    /\ (res = Normal false -> f1 = f)
    /\ (res = Normal true ->
        exists url p',
          addTrackToPlaylist (clock w1) name
            (mkTrack (Some (v_id r)) (v_title r) (Some url) (clock w1)) f
          = (f1, Normal p')).
Proof.
  unfold addOne, Ytdlp.getYouTubeAudioStream.
  destruct (resolveStream H w (v_id r)) as [w1 [url|msg|]].
  - destruct (addTrackToPlaylist (clock w1) name _ f) as [f1 [p'|msg|]] eqn:E.
    + eexists _, _, _, _. split; [reflexivity|].
      repeat split; try discriminate. intros _. now exists url, p'.
    + eexists _, _, _, _. split; [reflexivity|].
      repeat split; try discriminate. intros _.
      unfold addTrackToPlaylist in E.
      destruct (arrayFor "lists" "findIndex" (loadPlaylists f))
        as [lists|m|]; [|now injection E|discriminate].
      destruct (Js.findIndex (matches name) lists) as [idx|];
        [|now injection E].
      destruct (nth_error lists idx); [discriminate|now injection E].
    + eexists _, _, _, _. split; [reflexivity|].
      repeat split; discriminate.
  - eexists _, _, _, _. split; [reflexivity|]. repeat split; discriminate.
  - eexists _, _, _, _. split; [reflexivity|]. repeat split; discriminate.
Qed.

Lemma addLoop_step (name : string) (r : YouTubeVideo)
    (rest : list YouTubeVideo) (a s : nat) (st : W * file) :
  addLoop H clock name (r :: rest) a s st
  = (let '(st1, e1, res) := addOne H clock name r st in
     match res with
     | Normal true =>
         let '(st2, e2, res2) := addLoop H clock name rest (S a) s st1 in
         (st2, e1 ++ e2, res2)
     | Normal false =>
         let '(st2, e2, res2) := addLoop H clock name rest a (S s) st1 in
         (st2, e1 ++ e2, res2)
     | Throw msg => (st1, e1, Throw msg)
     | Pending => (st1, e1, Pending)
     end).
Proof. reflexivity. Qed.

Lemma addLoop_never_throws (name : string) (results : list YouTubeVideo) :
  forall a s st msg, snd (addLoop H clock name results a s st) <> Throw msg.
Proof.
  induction results as [|r rest IH]; intros a s [w f] msg.
  - discriminate.
  - rewrite addLoop_step.
    destruct (addOne_run name r w f)
      as (w1 & f1 & ev & res & -> & _ & _ & Hn & _).
    destruct res as [[|]|m|].
    + specialize (IH (S a) s (w1, f1) msg).
      destruct (addLoop H clock name rest (S a) s (w1, f1)) as [[? ?] ?].
      exact IH.
    + specialize (IH a (S s) (w1, f1) msg).
      destruct (addLoop H clock name rest a (S s) (w1, f1)) as [[? ?] ?].
      exact IH.
    + now destruct (Hn m).
    + discriminate.
Qed.

Lemma addLoop_searches (name : string) (results : list YouTubeVideo) :
  forall a s st,
    searches (snd (fst (addLoop H clock name results a s st))) = [].
Proof.
  induction results as [|r rest IH]; intros a s [w f].
  - reflexivity.
  - rewrite addLoop_step.
    destruct (addOne_run name r w f)
      as (w1 & f1 & ev & res & -> & _ & Hs & _).
    destruct res as [[|]|m|]; try exact Hs.
    + specialize (IH (S a) s (w1, f1)).
      destruct (addLoop H clock name rest (S a) s (w1, f1)) as [[? ?] ?].
      cbn [fst snd] in *. now rewrite searches_app, Hs, IH.
    + specialize (IH a (S s) (w1, f1)).
      destruct (addLoop H clock name rest a (S s) (w1, f1)) as [[? ?] ?].
      cbn [fst snd] in *. now rewrite searches_app, Hs, IH.
Qed.

Lemma addLoop_tally (name : string) (results : list YouTubeVideo) :
  forall a s st st' ev a' s',
    addLoop H clock name results a s st = (st', ev, Normal (a', s')) ->
    a' + s' = a + s + length results
    /\ a <= a' /\ s <= s'
    /\ resolved ev = map v_id results
    /\ searches ev = [].
Proof.
  induction results as [|r rest IH]; intros a s [w f] st' ev a' s' E.
  - injection E as <- <- <- <-. simpl. repeat split; lia.
  - rewrite addLoop_step in E.
    destruct (addOne_run name r w f)
      as (w1 & f1 & e1 & res & E1 & Hr & Hs & _).
    rewrite E1 in E. destruct res as [[|]|m|]; try discriminate.
    + destruct (addLoop H clock name rest (S a) s (w1, f1))
        as [[st2 e2] r2] eqn:E2.
      injection E as <- <- ->. apply IH in E2.
      destruct E2 as (T & La & Ls & R & S0).
      rewrite resolved_app, searches_app, Hr, Hs, R, S0. simpl.
      repeat split; lia.
    + destruct (addLoop H clock name rest a (S s) (w1, f1))
        as [[st2 e2] r2] eqn:E2.
      injection E as <- <- ->. apply IH in E2.
      destruct E2 as (T & La & Ls & R & S0).
      rewrite resolved_app, searches_app, Hr, Hs, R, S0. simpl.
      repeat split; lia.
Qed.

(** X15: the "add" action asks the search once, for between 1 and 50
    results: for the number typed when it lies in that range, for 5 when
    the answer is empty, is not a number or is 0, for 1 when it is negative
    and for 50 when it is larger. *)
Theorem add_asks_for_one_to_fifty (name query limitInput : string)
    (st : W * file) :
  let limit := addLimit limitInput in
  let answer := if limitInput =? EmptyString then "5" else limitInput in
  (1 <= limit <= 50)%Z
  /\ (forall z, parseInt10 answer = Fin z -> (1 <= z <= 50)%Z -> limit = z)
  /\ (parseInt10 answer = NaN \/ parseInt10 answer = Fin 0 -> limit = 5%Z)
  /\ (forall z, parseInt10 answer = Fin z -> (z < 0)%Z -> limit = 1%Z)
  /\ (forall z, parseInt10 answer = Fin z -> (50 < z)%Z -> limit = 50%Z)
  /\ searches (snd (fst (addAction H clock searchYouTube
                           name query limitInput st)))
     = [(query, limit)].
Proof.
  intros limit answer. repeat split.
  - unfold limit, addLimit. lia.
  - unfold limit, addLimit. lia.
  - intros z E Hz. unfold limit, addLimit. fold answer. rewrite E.
    destruct z; simpl; lia.
  - intros [E|E]; unfold limit, addLimit; fold answer; rewrite E; reflexivity.
  - intros z E Hz. unfold limit, addLimit. fold answer. rewrite E.
    destruct z; simpl; lia.
  - intros z E Hz. unfold limit, addLimit. fold answer. rewrite E.
    destruct z; simpl; lia.
  - destruct st as [w f]. unfold addAction. fold limit.
    destruct (searchYouTube w query limit) as [w1 [[|r rest]|msg|]];
      try reflexivity.
    pose proof (addLoop_searches name (r :: rest) 0 0 (w1, f)) as S0.
    destruct (addLoop H clock name (r :: rest) 0 0 (w1, f))
      as [[st2 e2] [[a s]|msg|]];
      cbn [fst snd searches] in *; rewrite ?searches_app, S0; reflexivity.
Qed.


(** X16: the "add" action rejects only when the search does: a result
    whose stream cannot be resolved, or that cannot be stored, is counted
    as skipped and the loop goes on.  When the action completes, the
    resolver was asked once for every search result, in order, and the two
    counters of the closing line add up to the number of results. *)
Theorem add_accounts_for_every_result (name query limitInput : string)
    (w : W) (f : file) (st' : W * file) (ev : list (event child))
    (r : completion unit) :
  addAction H clock searchYouTube name query limitInput (w, f)
  = (st', ev, r) ->
  let limit := addLimit limitInput in
  (forall msg, r = Throw msg -> snd (searchYouTube w query limit) = Throw msg)
  /\ (forall results,
        snd (searchYouTube w query limit) = Normal results ->
        results <> [] ->
        r = Normal tt ->
        exists a s body,
          ev = AskSearch query limit
               :: Say (AddingResults (length results) name)
               :: body ++ [Say (Done a s)]
          /\ a + s = length results
          /\ resolved body = map v_id results).
Proof.
  intros E limit. unfold addAction in E. fold limit in E.
  destruct (searchYouTube w query limit) as [w1 [[|x rest]|msg|]];
    cbn [snd].
  - injection E as <- <- <-. split; [discriminate|].
    intros results [= <-] Hne. now destruct Hne.
  - pose proof (addLoop_never_throws name (x :: rest) 0 0 (w1, f)) as Hn.
    destruct (addLoop H clock name (x :: rest) 0 0 (w1, f))
      as [[st2 e2] [[a s]|msg|]] eqn:E2.
    + injection E as <- <- <-. split; [discriminate|].
      intros results [= <-] _ _. apply addLoop_tally in E2.
      destruct E2 as (T & _ & _ & R & _).
      exists a, s, e2. repeat split; [simpl in *; lia|exact R].
    + now destruct (Hn msg).
    + injection E as <- <- <-. split; discriminate.
  - injection E as <- <- <-. split; [now intros m [= ->]|discriminate].
  - injection E as <- <- <-. split; discriminate.
Qed.

Lemma addLoop_unknown (name : string) (f : file)
    (results : list YouTubeVideo) :
  getPlaylist name f = Normal None ->
  forall a s w st' ev a' s',
    addLoop H clock name results a s (w, f) = (st', ev, Normal (a', s')) ->
    a' = a /\ snd st' = f.
Proof.
  intro Hg.
  assert (Hadd : forall ts t,
             addTrackToPlaylist ts name t f = (f, Throw "Playlist not found")).
  { intros ts t. unfold getPlaylist in Hg. unfold addTrackToPlaylist.
    destruct (loadPlaylists f) as [lists| |]; try discriminate.
    cbn [arrayFor] in *. injection Hg as Hg.
    pose proof (proj1 (find_none_iff _ _) Hg) as Hall.
    now rewrite (proj2 (findIndex_none _ _) Hall). }
  induction results as [|r rest IH]; intros a s w st' ev a' s' E.
  - now injection E as <- <- <- <-.
  - rewrite addLoop_step in E.
    destruct (addOne_run name r w f)
      as (w1 & f1 & e1 & res & E1 & _ & _ & _ & Hf & Ht).
    rewrite E1 in E. destruct res as [[|]|m|]; try discriminate.
    + destruct (Ht eq_refl) as (url & p' & Ha). rewrite Hadd in Ha.
      discriminate.
    + rewrite (Hf eq_refl) in E.
      destruct (addLoop H clock name rest a (S s) (w1, f))
        as [[st2 e2] r2] eqn:E2.
      injection E as <- <- ->. now apply IH in E2.
Qed.

(** X17: adding to a playlist that does not exist still asks the resolver
    for every search result; each one is then reported as failed, nothing
    is written, and the closing line counts 0 added and all skipped. *)
Theorem add_to_unknown_playlist (name query limitInput : string)
    (w : W) (f : file) (st' : W * file) (ev : list (event child))
    (results : list YouTubeVideo) :
  getPlaylist name f = Normal None ->
  snd (searchYouTube w query (addLimit limitInput))
  = Normal results ->
  results <> [] ->
  addAction H clock searchYouTube name query limitInput (w, f)
  = (st', ev, Normal tt) ->
  snd st' = f
  /\ resolved ev = map v_id results
  /\ last ev (Say NoResultsFound) = Say (Done 0 (length results)).
Proof.
  intros Hg Hs Hne E. unfold addAction in E.
  destruct (searchYouTube w query (addLimit limitInput))
    as [w1 found]. cbn [snd] in Hs. subst found.
  destruct results as [|x rest]; [now destruct Hne|].
  destruct (addLoop H clock name (x :: rest) 0 0 (w1, f))
    as [[st2 e2] [[a s]|msg|]] eqn:E2; try discriminate.
  injection E as <- <-.
  destruct (addLoop_unknown name f (x :: rest) Hg _ _ _ _ _ _ _ E2)
    as [-> Hf].
  apply addLoop_tally in E2. destruct E2 as (T & _ & _ & R & _).
  repeat split.
  - exact Hf.
  - cbn [resolved]. rewrite resolved_app, R. simpl. now rewrite app_nil_r.
  - rewrite !app_comm_cons, last_last. do 2 f_equal. simpl in *. lia.
Qed.

Lemma find_split {A} (g : A -> bool) (l : list A) (x : A) :
  find g l = Some x ->
  exists before after,
    l = before ++ x :: after
    /\ (forall y, In y before -> g y = false) /\ g x = true.
Proof.
  induction l as [|y l IH]; simpl; [discriminate|].
  destruct (g y) eqn:Hy.
  - intros [= ->]. exists [], l. repeat split; auto. intros z [].
  - intro E. destruct (IH E) as (b & a & -> & Hb & Hx).
    exists (y :: b), a. repeat split; auto. intros z [<-|Hz]; auto.
Qed.

Lemma addTrack_found (ts name : string) (t : StoredTrack)
    (before : list Playlist) (p : Playlist) (after : list Playlist) :
  (forall q, In q before -> matches name q = false) ->
  matches name p = true ->
  addTrackToPlaylist ts name t (Holds (Lists (before ++ p :: after)))
  = (Holds (Lists (before ++ pushTrack (stamp t ts) p :: after)),
     Normal (pushTrack (stamp t ts) p)).
Proof.
  intros Hb Hp. unfold addTrackToPlaylist. simpl.
  rewrite findIndex_first by assumption.
  now rewrite nth_error_middle, updateAt_middle.
Qed.

(** The loop on a playlist that exists: the tracks built from the results
    whose stream was resolved are appended, in order. *)
Lemma addLoop_appends (name : string) (before after : list Playlist)
    (results : list YouTubeVideo) :
  (forall q, In q before -> matches name q = false) ->
  forall p a s w w' f' ev a' s',
    matches name p = true ->
    addLoop H clock name results a s
            (w, Holds (Lists (before ++ p :: after)))
    = ((w', f'), ev, Normal (a', s')) ->
    f' = Holds (Lists (before
                         ++ mkPlaylist (p_id p) (p_name p)
                              (p_tracks p ++ resolvedTracks H clock results w)
                              (p_createdAt p)
                         :: after))
    /\ a' = a + length (resolvedTracks H clock results w).
Proof.
  intro Hb.
  induction results as [|r rest IH]; intros p a s w w' f' ev a' s' Hp E.
  - injection E as <- <- <- <- <-. cbn [resolvedTracks length].
    rewrite app_nil_r. destruct p. split; [reflexivity|lia].
  - rewrite addLoop_step in E. unfold addOne in E.
    unfold Ytdlp.getYouTubeAudioStream in E. cbn [resolvedTracks].
    destruct (resolveStream H w (v_id r)) as [w1 [url|msg|]];
      [| |discriminate].
    + rewrite addTrack_found in E by assumption.
      destruct (addLoop H clock name rest (S a) s _)
        as [[[w2 f2] e2] r2] eqn:E2.
      injection E as <- <- <- ->.
      apply IH in E2; [|now rewrite matches_pushTrack].
      destruct E2 as [-> ->].
      cbn [pushTrack p_id p_name p_tracks p_createdAt length].
      rewrite <- app_assoc. split; [reflexivity|lia].
    + destruct (addLoop H clock name rest a (S s) _)
        as [[[w2 f2] e2] r2] eqn:E2.
      injection E as <- <- <- ->.
      now apply IH in E2.
Qed.

Lemma resolvedTracks_origin (results : list YouTubeVideo) :
  forall w,
    Forall (fun t =>
              exists r url w0 w1,
                In r results
                /\ resolveStream H w0 (v_id r) = (w1, Normal url)
                /\ t = mkTrack (Some (v_id r)) (v_title r) (Some url)
                               (clock w1))
           (resolvedTracks H clock results w).
Proof.
  induction results as [|r rest IH]; intro w; cbn [resolvedTracks];
    [constructor|].
  assert (Hrest : forall w1,
             Forall (fun t =>
                       exists r0 url w0 w2,
                         In r0 (r :: rest)
                         /\ resolveStream H w0 (v_id r0) = (w2, Normal url)
                         /\ t = mkTrack (Some (v_id r0)) (v_title r0)
                                        (Some url) (clock w2))
                    (resolvedTracks H clock rest w1)).
  { intro w1. eapply Forall_impl; [|apply IH].
    intros t (r0 & url & w0 & w2 & Hin & Hr & Ht).
    exists r0, url, w0, w2. split; [now right|]. now split. }
  destruct (resolveStream H w (v_id r)) as [w1 [url|msg|]] eqn:Hr.
  - constructor; [|apply Hrest].
    exists r, url, w, w1. split; [now left|]. split; [exact Hr|reflexivity].
  - apply Hrest.
  - constructor.
Qed.

Lemma resolvedTracks_all (results : list YouTubeVideo) :
  forall w,
    (forall w0 r, In r results ->
                  exists url, snd (resolveStream H w0 (v_id r)) = Normal url) ->
    map (fun t => (t_id t, t_title t)) (resolvedTracks H clock results w)
    = map (fun r => (Some (v_id r), v_title r)) results.
Proof.
  induction results as [|r rest IH]; intros w Hall; [reflexivity|].
  cbn [resolvedTracks].
  destruct (Hall w r (or_introl eq_refl)) as (url & Hu).
  destruct (resolveStream H w (v_id r)) as [w1 res]. cbn [snd] in Hu.
  subst res. cbn [map stamp t_id t_title]. f_equal.
  apply IH. intros w0 r0 Hin. apply Hall. now right.
Qed.

Lemma resolvedTracks_none (results : list YouTubeVideo) :
  forall w,
    (forall w0 r, In r results ->
                  exists msg, snd (resolveStream H w0 (v_id r)) = Throw msg) ->
    resolvedTracks H clock results w = [].
Proof.
  induction results as [|r rest IH]; intros w Hall; [reflexivity|].
  cbn [resolvedTracks].
  destruct (Hall w r (or_introl eq_refl)) as (msg & Hu).
  destruct (resolveStream H w (v_id r)) as [w1 res]. cbn [snd] in Hu.
  subst res. apply IH. intros w0 r0 Hin. apply Hall. now right.
Qed.

(** X18: adding to a playlist that exists appends to it, in the order of
    the search results, exactly the tracks [resolvedTracks] reads off the
    resolver: one for each result whose stream was resolved, with the id
    and the title of that result and with the URL the resolver returned
    for its id, none for a result whose resolution failed.  The playlist
    keeps its place in the file, its id, its name and the tracks it had,
    the other playlists are untouched, and the closing line counts the
    appended tracks as added and the other results as skipped.  When every
    resolution succeeds there is a track for every result; when every one
    fails the playlist is unchanged. *)
Theorem add_appends_the_resolved_results (name query limitInput : string)
    (w : W) (f : file) (st' : W * file) (ev : list (event child))
    (p : Playlist) (results : list YouTubeVideo) :
  getPlaylist name f = Normal (Some p) ->
  snd (searchYouTube w query (addLimit limitInput))
  = Normal results ->
  results <> [] ->
  addAction H clock searchYouTube name query limitInput (w, f)
  = (st', ev, Normal tt) ->
  let new :=
    resolvedTracks H clock results
      (fst (searchYouTube w query (addLimit limitInput))) in
  let p' :=
    mkPlaylist (p_id p) (p_name p) (p_tracks p ++ new) (p_createdAt p) in
  getPlaylist name (snd st') = Normal (Some p')
  /\ (exists before after,
        f = Holds (Lists (before ++ p :: after))
        /\ snd st' = Holds (Lists (before ++ p' :: after)))
  /\ last ev (Say NoResultsFound)
     = Say (Done (length new) (length results - length new))
  /\ Forall (fun t =>
               exists r url w0 w1,
                 In r results
                 /\ resolveStream H w0 (v_id r) = (w1, Normal url)
                 /\ t = mkTrack (Some (v_id r)) (v_title r) (Some url)
                                (clock w1))
            new
  /\ ((forall w0 r, In r results ->
         exists url, snd (resolveStream H w0 (v_id r)) = Normal url) ->
      map (fun t => (t_id t, t_title t)) new
      = map (fun r => (Some (v_id r), v_title r)) results)
  /\ ((forall w0 r, In r results ->
         exists msg, snd (resolveStream H w0 (v_id r)) = Throw msg) ->
      new = [] /\ snd st' = f).
Proof.
  intros Hg Hs Hne E new p'. unfold addAction in E.
  unfold new in *. clear new.
  destruct (searchYouTube w query (addLimit limitInput))
    as [w1 found]. cbn [fst snd] in *. subst found.
  destruct results as [|x rest]; [now destruct Hne|].
  unfold getPlaylist in Hg.
  destruct f as [|[lists| |]]; simpl in Hg; try discriminate.
  injection Hg as Hg.
  destruct (find_split _ _ _ Hg) as (before & after & -> & Hb & Hp).
  destruct (addLoop H clock name (x :: rest) 0 0 _)
    as [[[w2 f2] e2] [[a s]|msg|]] eqn:E2; try discriminate.
  injection E as <- <-.
  pose proof (addLoop_tally _ _ _ _ _ _ _ _ _ E2) as (T & _).
  destruct (addLoop_appends name before after (x :: rest) Hb
              _ _ _ _ _ _ _ _ _ Hp E2) as [-> ->].
  fold p'. cbn [fst snd].
  split; [|split; [|split; [|split; [|split]]]].
  - unfold getPlaylist. cbn [loadPlaylists arrayFor].
    rewrite find_first; [reflexivity|exact Hb|]. exact Hp.
  - now exists before, after.
  - rewrite !app_comm_cons, last_last. do 2 f_equal. lia.
  - apply resolvedTracks_origin.
  - apply resolvedTracks_all.
  - intro Hall. unfold p'.
    rewrite (resolvedTracks_none (x :: rest) w1 Hall), app_nil_r.
    split; [reflexivity|]. now destruct p.
Qed.

End AddAction.

Lemma add_asks_for_one_to_fifty_witness :
  Actions.addLimit "12 songs" = 12%Z /\ Actions.addLimit "many" = 5%Z.
Proof.
  pose proof (add_asks_for_one_to_fifty
                (Samples.host Samples.onlyMpv Samples.quiet
                   Playlists.Unreadable)
                ActionSamples.clock ActionSamples.searchYouTube
                "jazz" "miles") as T.
  split.
  - apply (proj1 (proj2 (T "12 songs" (0, Samples.shelf))) 12%Z);
      [reflexivity|lia].
  - apply (proj1 (proj2 (proj2 (T "many" (0, Samples.shelf))))).
    left. reflexivity.
Defined.

Lemma add_accounts_for_every_result_witness :
  exists a s body,
    [Actions.AskSearch "miles" 2; Actions.Say (Actions.AddingResults 2 "jazz");
     Actions.Playing (Runtime.ResolverCalled "v7");
     Actions.Say (Actions.Added "Blue in Green");
     Actions.Playing (Runtime.ResolverCalled "gone");
     Actions.Say
       (Actions.FailedToAdd "Lost Tape"
          "This video is not available for streaming.");
     Actions.Say (Actions.Done 1 1)]
    = Actions.AskSearch "miles" 2
      :: Actions.Say (Actions.AddingResults 2 "jazz")
      :: body ++ [@Actions.Say string (Actions.Done a s)]
    /\ a + s = 2
    /\ Actions.resolved body = ["v7"; "gone"].
Proof.
  apply (proj2 (add_accounts_for_every_result
                  (Samples.host Samples.onlyMpv Samples.quiet
                     Playlists.Unreadable)
                  ActionSamples.clock ActionSamples.searchYouTube
                  "jazz" "miles" "2" 0 Samples.shelf _ _ _ eq_refl)
           [ActionSamples.blue; ActionSamples.lost]);
    [reflexivity|discriminate|reflexivity].
Defined.

Lemma add_to_unknown_playlist_witness :
  snd (fst (fst (Actions.addAction
                   (Samples.host Samples.onlyMpv Samples.quiet
                      Playlists.Unreadable)
                   ActionSamples.clock ActionSamples.searchYouTube
                   "blues" "miles" "  7 or so" (0, Samples.shelf))))
  = Samples.shelf
  /\ Actions.resolved
       (snd (fst (Actions.addAction
                    (Samples.host Samples.onlyMpv Samples.quiet
                       Playlists.Unreadable)
                    ActionSamples.clock ActionSamples.searchYouTube
                    "blues" "miles" "  7 or so" (0, Samples.shelf))))
     = ["v7"; "gone"; "v9"]
  /\ last
       (snd (fst (Actions.addAction
                    (Samples.host Samples.onlyMpv Samples.quiet
                       Playlists.Unreadable)
                    ActionSamples.clock ActionSamples.searchYouTube
                    "blues" "miles" "  7 or so" (0, Samples.shelf))))
       (Actions.Say Actions.NoResultsFound)
     = Actions.Say (Actions.Done 0 3).
Proof.
  apply (add_to_unknown_playlist
           (Samples.host Samples.onlyMpv Samples.quiet Playlists.Unreadable)
           ActionSamples.clock ActionSamples.searchYouTube
           "blues" "miles" "  7 or so" 0 Samples.shelf _ _
           [ActionSamples.blue; ActionSamples.lost; ActionSamples.soWhat]);
    [reflexivity|reflexivity|discriminate|reflexivity].
Defined.

Lemma add_appends_the_resolved_results_witness :
  Playlists.getPlaylist "jazz"
    (snd (fst (fst (Actions.addAction
                      (Samples.host Samples.onlyMpv Samples.quiet
                         Playlists.Unreadable)
                      ActionSamples.clock ActionSamples.searchYouTube
                      "jazz" "miles" "2" (0, Samples.shelf)))))
  = Normal
      (Some (Playlists.mkPlaylist "m3042o01" "jazz"
               [Playlists.mkTrack (Some "v7") "Blue in Green"
                  (Some "https://stream/v7") "2024-05-01T10:00:00.000Z"]
               "c"))
  /\ last
       (snd (fst (Actions.addAction
                    (Samples.host Samples.onlyMpv Samples.quiet
                       Playlists.Unreadable)
                    ActionSamples.clock ActionSamples.searchYouTube
                    "jazz" "miles" "2" (0, Samples.shelf))))
       (Actions.Say Actions.NoResultsFound)
     = Actions.Say (Actions.Done 1 1).
Proof.
  destruct (add_appends_the_resolved_results
              (Samples.host Samples.onlyMpv Samples.quiet
                 Playlists.Unreadable)
              ActionSamples.clock ActionSamples.searchYouTube
              "jazz" "miles" "2" 0 Samples.shelf _ _ Samples.jazz
              [ActionSamples.blue; ActionSamples.lost]
              eq_refl eq_refl ltac:(discriminate) eq_refl)
    as (Hstored & _ & Hline & _).
  split; [exact Hstored|exact Hline].
Defined.

(* ================================================================== *)
(** * The "play", "remove" and "delete" actions *)

Section OtherActions.
Import Runtime Playlists JsNumber PlaylistCmd Actions.
Local Open Scope mon_scope.

Context {W child : Type} (H : Host W child).

Lemma run_past_the_end (tracks : list StoredTrack) (start : nat) (w : W) :
  length tracks <= start ->
  handlePlaylistCommand H tracks start w
  = ((w, @initial child), [ConsoleLog PlaylistFinishedOrStopped], Normal tt).
Proof.
  intro Hs. unfold handlePlaylistCommand, playFrom.
  replace (length tracks - start) with 0 by lia. reflexivity.
Qed.

Lemma run_starts_with (tracks : list StoredTrack) (start : nat) (w : W)
    (t : StoredTrack) :
  nth_error tracks start = Some t ->
  exists rest,
    snd (fst (handlePlaylistCommand H tracks start w))
    = ConsoleLog (NowPlaying (start + 1) (length tracks) (t_title t)) :: rest.
Proof.
  intro Ht. rewrite run_unfold.
  assert (Hlt : start < length tracks)
    by (apply nth_error_Some; now rewrite Ht).
  replace (length tracks - start) with (S (length tracks - start - 1)) by lia.
  rewrite (playLoop_step H tracks _ start t) by (auto; reflexivity).
  unfold iteration. unfold bind at 1. unfold emit at 1.
  match goal with
  | |- context [bind ?m ?k (w, initial)] =>
      destruct (bind m k (w, initial)) as [[st1 e1] [[|]|msg|]]
  end; cbn [app].
  - destruct (playLoop H tracks _ (S start) st1) as [[st2 e2] [[|]|msg|]];
      cbn [fst snd app]; eexists; reflexivity.
  - cbn [fst snd app]. eexists; reflexivity.
  - cbn [fst snd]. eexists; reflexivity.
  - cbn [fst snd]. eexists; reflexivity.
Qed.

(** X19: the answer to "Start at track" of the "play" action.  No answer,
    or a number up to 1 (negative ones too), starts at the first track; a
    number from 1 to the number of tracks starts by announcing that
    track; an answer that is not a number, or a number past the last
    track, plays nothing and still prints "Playlist finished or stopped.".
    The playlists file is never written. *)
Theorem play_start_answer (name startInput : string) (w : W) (f : file)
    (p : Playlist) (st' : W * file) (ev : list (event child))
    (r : completion unit) :
  getPlaylist name f = Normal (Some p) ->
  p_tracks p <> [] ->
  playAction H name startInput (w, f) = (st', ev, r) ->
  let tracks := p_tracks p in
  snd st' = f
  /\ exists played,
       ev = trackLines 0 tracks ++ map Playing played
       /\ (startInput = EmptyString
           \/ (exists z, parseInt10 startInput = Fin z /\ (z <= 1)%Z) ->
           played = snd (fst (handlePlaylistCommand H tracks 0 w))
           /\ r = snd (handlePlaylistCommand H tracks 0 w))
       /\ (forall z t,
             startInput <> EmptyString ->
             parseInt10 startInput = Fin z -> (1 <= z)%Z ->
             nth_error tracks (Z.to_nat (z - 1)) = Some t ->
             exists rest,
               played
               = ConsoleLog (NowPlaying (Z.to_nat z) (length tracks)
                               (t_title t)) :: rest)
       /\ (startInput <> EmptyString ->
           parseInt10 startInput = NaN
           \/ (exists z, parseInt10 startInput = Fin z
                         /\ (Z.of_nat (length tracks) < z)%Z) ->
           played = [ConsoleLog PlaylistFinishedOrStopped]
           /\ r = Normal tt /\ fst st' = w).
Proof.
  intros Hg Hne E tracks. unfold playAction in E. rewrite Hg in E.
  fold tracks in E, Hne.
  destruct tracks as [|t0 ts] eqn:Ht; [now destruct Hne|]. rewrite <- Ht in *.
  unfold startIndex in E.
  destruct (String.eqb_spec startInput EmptyString) as [->|Hin].
  - (* no answer *)
    change (Z.to_nat 0) with 0 in E.
    destruct (handlePlaylistCommand H tracks 0 w) as [[st1 e1] r1] eqn:E1.
    injection E as <- <- <-. split; [reflexivity|].
    exists e1. split; [reflexivity|]. split; [|split].
    + intros _. now split.
    + intros z t Hn. now destruct Hn.
    + intros Hn. now destruct Hn.
  - destruct (parseInt10 startInput) as [|z] eqn:Hp.
    + (* not a number *)
      injection E as <- <- <-. split; [reflexivity|].
      exists [ConsoleLog PlaylistFinishedOrStopped].
      split; [reflexivity|]. split; [|split].
      * intros [->|(z & [=] & _)]. now destruct Hin.
      * intros z t _ [=].
      * intros _ _. now repeat split.
    + destruct (handlePlaylistCommand H tracks (Z.to_nat (Z.max 0 (z - 1))) w)
        as [[st1 e1] r1] eqn:E1.
      injection E as <- <- <-. split; [reflexivity|].
      exists e1. split; [reflexivity|]. split; [|split].
      * intros [->|(z' & [= <-] & Hz)]; [now destruct Hin|].
        replace (Z.to_nat (Z.max 0 (z - 1))) with 0 in E1 by lia.
        rewrite E1. now split.
      * intros z' t _ [= <-] Hz Hn.
        replace (Z.to_nat (Z.max 0 (z - 1))) with (Z.to_nat (z - 1)) in E1
          by lia.
        destruct (run_starts_with tracks _ w t Hn) as (rest & Hr).
        rewrite E1 in Hr. cbn [fst snd] in Hr.
        replace (Z.to_nat (z - 1) + 1) with (Z.to_nat z) in Hr by lia.
        now exists rest.
      * intros _ [[=]|(z' & [= <-] & Hz)].
        rewrite run_past_the_end in E1 by lia.
        injection E1 as <- <- <-. now repeat split.
Qed.



(** X21: the "delete" action on a name no stored playlist has still
    prints "Playlist deleted", and writes back the lists as they were read
    (so that a file that could not be read becomes a file with an empty
    list). *)
Theorem delete_action_reports_success_for_an_unknown_name (name : string)
    (f : file) (lists : list Playlist) :
  loadPlaylists f = Lists lists ->
  getPlaylist name f = Normal None ->
  @deleteAction child name f
  = (Holds (Lists lists), [Say PlaylistDeleted], Normal tt).
Proof.
  intros Hl Hg. unfold getPlaylist in Hg. rewrite Hl in Hg. simpl in Hg.
  injection Hg as Hg. pose proof (proj1 (find_none_iff _ _) Hg) as Hall.
  unfold deleteAction, deletePlaylist. rewrite Hl. simpl.
  rewrite filter_all_kept; [reflexivity|].
  intros q Hq. rewrite keep_is_not_match. now rewrite (Hall q Hq).
Qed.

End OtherActions.

Lemma play_start_answer_witness :
  exists played rest,
    snd (fst (Actions.playAction
                (Samples.host Samples.onlyMpv Samples.quiet
                   Playlists.Unreadable)
                "road-trip" "2" (0, Samples.shelf)))
    = Actions.trackLines 0 [Samples.trackA; Samples.trackB; Samples.trackC]
      ++ map Actions.Playing played
    /\ played = Runtime.ConsoleLog (Runtime.NowPlaying 2 3 "B") :: rest.
Proof.
  destruct (play_start_answer
              (Samples.host Samples.onlyMpv Samples.quiet
                 Playlists.Unreadable)
              "road-trip" "2" 0 Samples.shelf Samples.roadTrip _ _ _
              eq_refl ltac:(discriminate) eq_refl)
    as (_ & played & Hev & _ & Hstart & _).
  destruct (Hstart 2%Z Samples.trackB ltac:(discriminate) eq_refl
              ltac:(lia) eq_refl) as (rest & Hrest).
  exists played, rest. split; [exact Hev|exact Hrest].
Defined.


Lemma delete_action_reports_success_for_an_unknown_name_witness :
  @Actions.deleteAction string "blues" Samples.shelf
  = (Samples.shelf, [Actions.Say Actions.PlaylistDeleted], Normal tt).
Proof.
  apply (delete_action_reports_success_for_an_unknown_name (child:=string)
           "blues"
           Samples.shelf [Samples.jazz; Samples.roadTrip; Samples.rock2]
           eq_refl eq_refl).
Defined.

(* ================================================================== *)
(** * The stream resolver *)

Section Substrings.
Import Resolver.

Lemma prefix_iff (t s : string) :
  prefix t s = true <-> exists post, s = String.append t post.
Proof.
  revert s; induction t as [|c t IH]; intro s.
  - split; [intros _; now exists s|intros _; now destruct s].
  - destruct s as [|d s]; simpl.
    + split; [discriminate|intros (post & [=])].
    + destruct (ascii_dec c d) as [->|Hcd].
      * rewrite IH. split.
        -- intros (post & ->). now exists post.
        -- intros (post & [= ->]). now exists post.
      * split; [discriminate|]. intros (post & [= <- _]). now destruct Hcd.
Qed.

Lemma append_assoc (a b c : string) :
  String.append (String.append a b) c = String.append a (String.append b c).
Proof. induction a as [|x a IH]; simpl; now rewrite ?IH. Qed.

Lemma includes_iff (s t : string) :
  includes s t = true
  <-> exists pre post, s = String.append pre (String.append t post).
Proof.
  induction s as [|c s IH].
  - cbn [includes]. rewrite prefix_iff. split.
    + intros (post & E). now exists EmptyString, post.
    + intros ([|x pre] & post & E); [now exists post|discriminate].
  - cbn [includes]. rewrite orb_true_iff, prefix_iff, IH. split.
    + intros [(post & E)|(pre & post & ->)].
      * now exists EmptyString, post.
      * now exists (String c pre), post.
    + intros ([|x pre] & post & E).
      * left. now exists post.
      * right. injection E as _ ->. now exists pre, post.
Qed.

Lemma includes_end_of_needle (s a b : string) :
  includes s (String.append a b) = true -> includes s b = true.
Proof.
  rewrite !includes_iff. intros (pre & post & ->).
  exists (String.append pre a), post. now rewrite !append_assoc.
Qed.

Lemma includes_after (head s t : string) :
  includes s t = true -> includes (String.append head s) t = true.
Proof.
  rewrite !includes_iff. intros (pre & post & ->).
  exists (String.append head pre), post. now rewrite !append_assoc.
Qed.

End Substrings.

Section StableSort.
Import Resolver.

Context {A : Type} (compare : A -> A -> comparison).

Hypothesis compare_trans :
  forall a b c, compare a b <> Gt -> compare b c <> Gt -> compare a c <> Gt.
Hypothesis compare_trans_strict :
  forall a b c, compare a b <> Gt -> compare c b = Gt -> compare a c <> Gt.

Lemma insert_not_nil (x : A) (l : list A) : insert compare x l <> [].
Proof. destruct l as [|y t]; simpl; [|destruct (compare x y)]; discriminate. Qed.

Lemma sort_nil (l : list A) : sort compare l = [] -> l = [].
Proof.
  destruct l as [|x l]; [reflexivity|]. simpl. intro E.
  now apply insert_not_nil in E.
Qed.

(** The head of the sorted list: elements before it in the input are
    strictly after it in the order, no element follows it that goes
    before it. *)
Lemma sort_head (l : list A) :
  forall f rest,
    sort compare l = f :: rest ->
    exists pre post,
      l = pre ++ f :: post
      /\ (forall g, In g pre -> compare g f = Gt)
      /\ (forall g, In g post -> compare f g <> Gt).
Proof.
  induction l as [|x l IH]; intros f rest E; [discriminate|].
  simpl in E. destruct (sort compare l) as [|y t] eqn:Es.
  - apply sort_nil in Es. subst l. injection E as <- <-.
    exists [], []. repeat split; intros g [].
  - destruct (IH y t eq_refl) as (pre & post & -> & Hpre & Hpost).
    simpl in E. destruct (compare x y) eqn:Hxy.
    + injection E as <- <-. exists [], (pre ++ y :: post).
      repeat split; [intros g []|]. intros g Hg.
      apply in_app_or in Hg. destruct Hg as [Hg|[<-|Hg]].
      * apply (compare_trans_strict x y g); [congruence|now apply Hpre].
      * congruence.
      * apply (compare_trans x y g); [congruence|now apply Hpost].
    + injection E as <- <-. exists [], (pre ++ y :: post).
      repeat split; [intros g []|]. intros g Hg.
      apply in_app_or in Hg. destruct Hg as [Hg|[<-|Hg]].
      * apply (compare_trans_strict x y g); [congruence|now apply Hpre].
      * congruence.
      * apply (compare_trans x y g); [congruence|now apply Hpost].
    + injection E as <- <-. exists (x :: pre), post.
      repeat split; [|exact Hpost]. intros g [<-|Hg]; [exact Hxy|].
      now apply Hpre.
Qed.

End StableSort.

Section FormatOrder.
Import Resolver QArith_base Lqa.

Lemma compareFormats_le (a b : VideoFormat) :
  compareFormats a b <> Gt
  <-> orZero (f_quality b) < orZero (f_quality a)
      \/ (orZero (f_quality b) == orZero (f_quality a)
          /\ orZero (f_abr b) <= orZero (f_abr a)).
Proof.
  unfold compareFormats.
  destruct (Qcompare_spec (orZero (f_quality b)) (orZero (f_quality a)))
    as [Hq|Hq|Hq].
  - rewrite <- Qle_alt. split; [now right|].
    intros [Hlt|[_ Hle]]; [lra|exact Hle].
  - split; [now left|discriminate].
  - split; [intro Hn; now destruct Hn|]. intros [Hlt|[Heq _]]; lra.
Qed.

Lemma compareFormats_gt (a b : VideoFormat) :
  compareFormats a b = Gt
  <-> orZero (f_quality a) < orZero (f_quality b)
      \/ (orZero (f_quality a) == orZero (f_quality b)
          /\ orZero (f_abr a) < orZero (f_abr b)).
Proof.
  unfold compareFormats.
  destruct (Qcompare_spec (orZero (f_quality b)) (orZero (f_quality a)))
    as [Hq|Hq|Hq].
  - rewrite <- Qgt_alt. split; [intro; right; split; [lra|assumption]|].
    intros [Hlt|[_ Hle]]; [lra|exact Hle].
  - split; [discriminate|]. intros [Hlt|[Heq _]]; lra.
  - split; [now left|reflexivity].
Qed.

Lemma compareFormats_trans (a b c : VideoFormat) :
  compareFormats a b <> Gt -> compareFormats b c <> Gt ->
  compareFormats a c <> Gt.
Proof.
  rewrite !compareFormats_le.
  intros [H1|[H1 H1']] [H2|[H2 H2']]; try (left; lra). right. split; lra.
Qed.

Lemma compareFormats_trans_strict (a b c : VideoFormat) :
  compareFormats a b <> Gt -> compareFormats c b = Gt ->
  compareFormats a c <> Gt.
Proof.
  rewrite !compareFormats_le, compareFormats_gt.
  intros [H1|[H1 H1']] [H2|[H2 H2']]; try (left; lra). right. split; lra.
Qed.

End FormatOrder.

Section GetAudioStream.
Import Resolver.

Variable W : Type.
Variable getInfoAsync : W -> string -> W * completion VideoInfo.

Lemma strictEq_video (t : option string) :
  negb (Js.truthy t) || negb (Js.strictEq t "video") = false
  <-> t = Some "video".
Proof.
  destruct t as [s|]; simpl.
  - destruct (String.eqb_spec s "video") as [->|Hs]; simpl.
    + now split.
    + rewrite orb_true_r. split; [discriminate|]. intros [= ->].
      now destruct Hs.
  - split; discriminate.
Qed.

(** X22: a stream URL that getAudioStream returns is the URL of an
    audio-only format (audio codec other than "none", video codec
    "none") of a "video" info: the one of highest quality, among those of
    that quality the one of highest bitrate, and among those the first in
    the order of the info; a missing quality or bitrate counts as 0.  The
    error "No suitable audio format found" is never thrown. *)
Theorem audio_stream_is_the_first_best_audio_only_format (videoId : string)
    (w w1 : W) (u : string) :
  getAudioStream W getInfoAsync videoId w = (w1, Normal u) ->
  (exists info formats pre f post,
     getInfoAsync w
       (String.append "https://www.youtube.com/watch?v=" videoId)
     = (w1, Normal info)
     /\ i_type info = Some "video"
     /\ i_formats info = Some formats
     /\ filter audioOnly formats = pre ++ f :: post
     /\ f_url f = u
     /\ (forall g, In g pre ->
           QArith_base.Qlt (orZero (f_quality g)) (orZero (f_quality f))
           \/ (QArith_base.Qeq (orZero (f_quality g)) (orZero (f_quality f))
               /\ QArith_base.Qlt (orZero (f_abr g)) (orZero (f_abr f))))
     /\ (forall g, In g post ->
           QArith_base.Qlt (orZero (f_quality g)) (orZero (f_quality f))
           \/ (QArith_base.Qeq (orZero (f_quality g)) (orZero (f_quality f))
               /\ QArith_base.Qle (orZero (f_abr g)) (orZero (f_abr f)))))
  /\ forall info, pickFormat info <> Throw "No suitable audio format found".
Proof.
  intro E. split.
  - unfold getAudioStream in E.
    destruct (getInfoAsync w _) as [w' [info|m|]] eqn:Eg;
      [|discriminate|discriminate].
    unfold pickFormat in E.
    destruct (negb (Js.truthy (i_type info))
              || negb (Js.strictEq (i_type info) "video")) eqn:Ht;
      [discriminate|].
    apply strictEq_video in Ht.
    destruct (i_formats info) as [formats|] eqn:Ef; [|discriminate].
    destruct (length (filter audioOnly formats) =? 0)%nat; [discriminate|].
    destruct (sort compareFormats (filter audioOnly formats))
      as [|f rest] eqn:Es; [discriminate|].
    injection E as <- <-.
    destruct (sort_head compareFormats compareFormats_trans
                compareFormats_trans_strict _ _ _ Es)
      as (pre & post & Hsplit & Hpre & Hpost).
    exists info, formats, pre, f, post. repeat split; auto.
    + intros g Hg. apply compareFormats_gt. now apply Hpre.
    + intros g Hg. apply compareFormats_le. now apply Hpost.
  - intro info. unfold pickFormat.
    destruct (negb (Js.truthy (i_type info))
              || negb (Js.strictEq (i_type info) "video"));
      [discriminate|].
    destruct (i_formats info) as [formats|]; [|discriminate].
    destruct (filter audioOnly formats) as [|x l] eqn:Ef; [discriminate|].
    cbn [length Nat.eqb].
    destruct (sort compareFormats (x :: l)) as [|f rest] eqn:Es;
      [|discriminate].
    now apply sort_nil in Es.
Qed.

(** X23: the errors of getYouTubeAudioStream.  The failures getAudioStream
    finds itself (an info that is not a "video", no audio-only format)
    come out as "Stream extraction error: Failed to get audio stream: ...".
    An error of the extraction is classified by its message alone, the
    wrapping of getAudioStream changing nothing: a message containing
    "functions" gives the extraction-failed text whatever else it contains
    (so the test for "Could not extract functions" never decides), then
    "Sign in to confirm", "Video unavailable" and "Private video" are
    tried in this order, and any other message is passed on after
    "Stream extraction error: Failed to get audio stream: ". *)
Theorem resolver_failures (videoId : string) (w w1 : W) :
  let url := String.append "https://www.youtube.com/watch?v=" videoId in
  let result := getYouTubeAudioStream W getInfoAsync videoId w in
  (forall info,
     getInfoAsync w url = (w1, Normal info) ->
     i_type info <> Some "video" ->
     result
     = (w1, Throw "Stream extraction error: Failed to get audio stream: Invalid video information received"))
  /\ (forall info formats,
        getInfoAsync w url = (w1, Normal info) ->
        i_type info = Some "video" ->
        i_formats info = Some formats ->
        (forall g, In g formats -> audioOnly g = false) ->
        result
        = (w1, Throw "Stream extraction error: Failed to get audio stream: No audio-only formats found"))
  /\ (forall m,
        getInfoAsync w url = (w1, Throw m) ->
        (includes m "Could not extract functions" = true ->
         includes m "functions" = true)
        /\ (includes m "functions" = true ->
            result
            = (w1, Throw "YouTube stream extraction failed. This may be due to YouTube updates. Try updating ytdl-core or use a different video."))
        /\ (includes m "functions" = false ->
            (includes m "Sign in to confirm" = true ->
             result
             = (w1, Throw "YouTube requires sign-in verification. Try using a VPN or different IP address."))
            /\ (includes m "Sign in to confirm" = false ->
                (includes m "Video unavailable" = true ->
                 result
                 = (w1, Throw "This video is not available for streaming."))
                /\ (includes m "Video unavailable" = false ->
                    (includes m "Private video" = true ->
                     result
                     = (w1, Throw "This is a private video and cannot be streamed."))
                    /\ (includes m "Private video" = false ->
                        result
                        = (w1,
                           Throw
                             (String.append
                                "Stream extraction error: Failed to get audio stream: "
                                m))))))).
Proof.
  intros url result. unfold result, getYouTubeAudioStream, getAudioStream.
  fold url. split; [|split].
  - intros info -> Ht. unfold pickFormat.
    destruct (negb (Js.truthy (i_type info))
              || negb (Js.strictEq (i_type info) "video")) eqn:E.
    + reflexivity.
    + apply strictEq_video in E. contradiction.
  - intros info formats -> Ht Hf Hnone. unfold pickFormat.
    rewrite (proj2 (strictEq_video _) Ht), Hf.
    replace (filter audioOnly formats) with (@nil VideoFormat);
      [reflexivity|].
    symmetry. clear Hf. induction formats as [|g l IH]; [reflexivity|].
    simpl. rewrite (Hnone g) by now left.
    apply IH. intros h Hh. apply Hnone. now right.
  - intros m ->.
    assert (Hredundant : includes m "Could not extract functions" = true ->
                         includes m "functions" = true)
      by apply (includes_end_of_needle m "Could not extract " "functions").
    split; [exact Hredundant|].
    unfold rethrown.
    change (includes (String.append "Failed to get audio stream: " m)
              "Could not extract functions")
      with (includes m "Could not extract functions").
    change (includes (String.append "Failed to get audio stream: " m)
              "functions")
      with (includes m "functions").
    change (includes (String.append "Failed to get audio stream: " m)
              "Sign in to confirm")
      with (includes m "Sign in to confirm").
    change (includes (String.append "Failed to get audio stream: " m)
              "Video unavailable")
      with (includes m "Video unavailable").
    change (includes (String.append "Failed to get audio stream: " m)
              "Private video")
      with (includes m "Private video").
    split.
    + intros ->. now rewrite orb_true_r.
    + intros Hf.
      destruct (includes m "Could not extract functions") eqn:Hc;
        [now rewrite Hredundant in Hf|].
      rewrite Hf. cbn [orb]. split; [now intros ->|]. intros ->.
      split; [now intros ->|]. intros ->.
      split; [now intros ->|]. now intros ->.
Qed.

End GetAudioStream.

Lemma audio_stream_is_the_first_best_audio_only_format_witness :
  exists info formats pre f post,
    ResolverSamples.getInfoAsync 0 "https://www.youtube.com/watch?v=v7"
    = (1, Normal info)
    /\ Resolver.i_type info = Some "video"
    /\ Resolver.i_formats info = Some formats
    /\ filter Resolver.audioOnly formats = pre ++ f :: post
    /\ Resolver.f_url f = "https://cdn/m4a"
    /\ (forall g, In g pre ->
          QArith_base.Qlt (Resolver.orZero (Resolver.f_quality g))
            (Resolver.orZero (Resolver.f_quality f))
          \/ (QArith_base.Qeq (Resolver.orZero (Resolver.f_quality g))
                (Resolver.orZero (Resolver.f_quality f))
              /\ QArith_base.Qlt (Resolver.orZero (Resolver.f_abr g))
                   (Resolver.orZero (Resolver.f_abr f))))
    /\ (forall g, In g post ->
          QArith_base.Qlt (Resolver.orZero (Resolver.f_quality g))
            (Resolver.orZero (Resolver.f_quality f))
          \/ (QArith_base.Qeq (Resolver.orZero (Resolver.f_quality g))
                (Resolver.orZero (Resolver.f_quality f))
              /\ QArith_base.Qle (Resolver.orZero (Resolver.f_abr g))
                   (Resolver.orZero (Resolver.f_abr f)))).
Proof.
  apply (proj1 (audio_stream_is_the_first_best_audio_only_format
                  nat ResolverSamples.getInfoAsync "v7" 0 1
                  "https://cdn/m4a" eq_refl)).
Defined.

Lemma resolver_failures_witness :
  Resolver.getYouTubeAudioStream nat ResolverSamples.getInfoAsync "gone" 0
  = (1, Throw "This video is not available for streaming.")
  /\ Resolver.getYouTubeAudioStream nat ResolverSamples.getInfoAsync "mix" 0
     = (1, Throw "Stream extraction error: Failed to get audio stream: Invalid video information received").
Proof.
  split.
  - apply (proj2 (proj2 (resolver_failures nat ResolverSamples.getInfoAsync
                           "gone" 0 1))
             "ERROR: [youtube] gone: Video unavailable" eq_refl);
      reflexivity.
  - apply (proj1 (resolver_failures nat ResolverSamples.getInfoAsync
                    "mix" 0 1)
             (Resolver.mkInfo (Some "playlist") None) eq_refl).
    discriminate.
Defined.

(* ================================================================== *)
(** * Durations *)

Section DecimalStrings.
Import JsNumber JsText.

Lemma code_digit (d : N) :
  (d < 10)%N -> code (ascii_of_N (48 + d)) = (48 + d)%N.
Proof. intro Hd. unfold code. apply N_ascii_embedding. lia. Qed.

Lemma digitOf_digit (d : N) :
  (d < 10)%N -> digitOf (ascii_of_N (48 + d)) = Some (Z.of_N d).
Proof.
  intro Hd. unfold digitOf. rewrite code_digit by assumption.
  destruct (N.leb_spec 48 (48 + d)); [|lia].
  destruct (N.leb_spec (48 + d) 57); [|lia].
  cbn [andb]. f_equal. lia.
Qed.

Lemma digitOf_code (c : ascii) (d : Z) :
  digitOf c = Some d -> (48 <= code c <= 57)%N /\ (0 <= d <= 9)%Z.
Proof.
  unfold digitOf.
  destruct (N.leb_spec 48 (code c)); [|discriminate].
  destruct (N.leb_spec (code c) 57); [|discriminate].
  cbn [andb]. intros [= <-]. lia.
Qed.

Lemma valueFrom_app (s1 s2 : string) :
  forall a, valueFrom a (String.append s1 s2) = valueFrom (valueFrom a s1) s2.
Proof. induction s1 as [|c s1 IH]; intro a; simpl; [reflexivity|apply IH]. Qed.

Lemma allDigits_app (s1 s2 : string) :
  allDigits (String.append s1 s2) = allDigits s1 && allDigits s2.
Proof.
  induction s1 as [|c s1 IH]; simpl; [reflexivity|].
  destruct (digitOf c); [exact IH|reflexivity].
Qed.

Lemma digits10_acc (fuel : nat) :
  forall n acc,
    digits10 fuel n acc = String.append (digits10 fuel n EmptyString) acc.
Proof.
  induction fuel as [|fuel IH]; intros n acc; [reflexivity|].
  cbn [digits10]. destruct (n / 10 =? 0)%N; [reflexivity|].
  rewrite IH. rewrite (IH _ (String _ EmptyString)).
  now rewrite append_assoc.
Qed.

Lemma digits10_spec (fuel : nat) :
  forall n,
    0 < fuel -> (n < 10 ^ N.of_nat fuel)%N ->
    allDigits (digits10 fuel n EmptyString) = true
    /\ digits10 fuel n EmptyString <> EmptyString
    /\ valueFrom 0 (digits10 fuel n EmptyString) = Z.of_N n.
Proof.
  induction fuel as [|fuel IH]; intros n Hf Hn.
  - lia.
  - cbn [digits10].
    assert (Hd : (n mod 10 < 10)%N) by (apply N.mod_lt; discriminate).
    destruct (N.eqb_spec (n / 10) 0) as [Hz|Hnz].
    + cbn [allDigits valueFrom]. rewrite digitOf_digit by assumption.
      repeat split; [discriminate|].
      pose proof (N.div_mod n 10 ltac:(discriminate)). lia.
    + rewrite digits10_acc.
      assert (Hq : (n / 10 < 10 ^ N.of_nat fuel)%N).
      { rewrite Nat2N.inj_succ, N.pow_succ_r' in Hn.
        apply N.Div0.div_lt_upper_bound. lia. }
      assert (Hf' : 0 < fuel).
      { destruct fuel; [|lia].
        change (10 ^ N.of_nat 0)%N with 1%N in Hq.
        exfalso. apply Hnz. apply N.lt_1_r. exact Hq. }
      destruct (IH _ Hf' Hq) as (Ha & Hne & Hv).
      rewrite allDigits_app, valueFrom_app, Ha, Hv.
      cbn [allDigits valueFrom andb]. rewrite digitOf_digit by assumption.
      repeat split.
      * destruct (digits10 fuel (n / 10) EmptyString); [now destruct Hne|].
        discriminate.
      * pose proof (N.div_mod n 10 ltac:(discriminate)). lia.
Qed.

Lemma render10_spec (n : N) :
  allDigits (render10 n) = true
  /\ render10 n <> EmptyString
  /\ valueFrom 0 (render10 n) = Z.of_N n.
Proof.
  apply digits10_spec; [lia|].
  destruct (N.eq_dec n 0) as [->|Hn]; [reflexivity|].
  rewrite Nat2N.inj_succ, N2Nat.id.
  pose proof (N.log2_spec n ltac:(lia)) as [_ Hlt].
  eapply N.lt_le_trans; [exact Hlt|].
  apply N.pow_le_mono_l. lia.
Qed.

Lemma toString_nonneg (z : Z) :
  (0 <= z)%Z ->
  allDigits (toString z) = true
  /\ toString z <> EmptyString
  /\ valueFrom 0 (toString z) = z.
Proof.
  intro Hz. unfold toString. destruct (Z.ltb_spec z 0); [lia|].
  destruct (render10_spec (Z.abs_N z)) as (Ha & Hne & Hv).
  repeat split; auto. rewrite Hv. lia.
Qed.

Lemma readDigits_all (s : string) :
  forall a,
    allDigits s = true -> readDigits (Some a) s = Some (valueFrom a s).
Proof.
  induction s as [|c s IH]; intros a Hs; [reflexivity|].
  simpl in *. destruct (digitOf c) as [d|]; [|discriminate]. now apply IH.
Qed.

Lemma trimStart_digit (c : ascii) (r : string) (d : Z) :
  digitOf c = Some d -> trimStart (String c r) = String c r.
Proof.
  intro Hc. apply digitOf_code in Hc. destruct Hc as [Hc _].
  cbn [trimStart]. unfold isWhite, isWhite2, isWhite3.
  destruct (N.leb_spec 9 (code c)); [|lia].
  destruct (N.leb_spec (code c) 13); [lia|].
  destruct (N.eqb_spec (code c) 32); [lia|].
  destruct (N.eqb_spec (code c) 194); [lia|].
  destruct (N.eqb_spec (code c) 225); [lia|].
  destruct (N.eqb_spec (code c) 226); [lia|].
  destruct (N.eqb_spec (code c) 227); [lia|].
  destruct (N.eqb_spec (code c) 239); [lia|].
  cbn [andb orb]. destruct r as [|b [|c' r2]]; reflexivity.
Qed.

(** [parseInt] of a string of decimal digits is the number they write. *)
Lemma parseInt_digits (s : string) :
  allDigits s = true -> s <> EmptyString ->
  parseInt s = Fin (valueFrom 0 s).
Proof.
  intros Hs Hne. destruct s as [|c r]; [now destruct Hne|].
  cbn [allDigits] in Hs. destruct (digitOf c) as [d|] eqn:Hc; [|discriminate].
  unfold parseInt. rewrite (trimStart_digit c r d Hc).
  pose proof (digitOf_code c d Hc) as [Hcode _].
  unfold signed.
  destruct (N.eqb_spec (code c) 45); [lia|].
  destruct (N.eqb_spec (code c) 43); [lia|].
  assert (Hread : readDigits None (String c r) = Some (valueFrom 0 (String c r))).
  { cbn [readDigits valueFrom]. rewrite Hc. now apply readDigits_all. }
  destruct r as [|x r']; [now rewrite Hread|].
  cbn [allDigits] in Hs. destruct (digitOf x) as [dx|] eqn:Hx; [|discriminate].
  pose proof (digitOf_code x dx Hx) as [Hxc _].
  destruct (N.eqb_spec (code x) 120); [lia|].
  destruct (N.eqb_spec (code x) 88); [lia|].
  rewrite andb_false_r. now rewrite Hread.
Qed.

Lemma padStart2_digits (s : string) :
  allDigits s = true -> s <> EmptyString ->
  allDigits (padStart2 s) = true
  /\ padStart2 s <> EmptyString
  /\ valueFrom 0 (padStart2 s) = valueFrom 0 s.
Proof.
  intros Hs Hne. destruct s as [|c [|c' r]]; [now destruct Hne| |].
  - repeat split; [exact Hs|discriminate].
  - repeat split; [exact Hs|discriminate].
Qed.

Lemma split_digits (s : string) :
  allDigits s = true -> split ":" s = [s].
Proof.
  induction s as [|c s IH]; intro Hs; [reflexivity|].
  cbn [allDigits] in Hs. destruct (digitOf c) as [d|] eqn:Hc; [|discriminate].
  pose proof (digitOf_code c d Hc) as [Hcode _].
  cbn [split]. change (code ":") with 58%N.
  destruct (N.eqb_spec (code c) 58); [lia|]. now rewrite IH.
Qed.

Lemma split_digits_colon (s r : string) :
  allDigits s = true ->
  split ":" (String.append s (String ":" r)) = s :: split ":" r.
Proof.
  induction s as [|c s IH]; intro Hs; [reflexivity|].
  cbn [allDigits] in Hs. destruct (digitOf c) as [d|] eqn:Hc; [|discriminate].
  pose proof (digitOf_code c d Hc) as [Hcode _].
  cbn [split String.append]. change (code ":") with 58%N.
  destruct (N.eqb_spec (code c) 58); [lia|]. now rewrite IH.
Qed.

End DecimalStrings.

Section Durations.
Import JsNumber JsText TimeFormat.

(** X24: parseDuration reads back what formatTime wrote: for every whole
    number of seconds from 0 (below 2^53, where JavaScript numbers are
    exact), parseDuration(formatTime(n)) is n. *)
Theorem parseDuration_formatTime (n : Z) :
  (0 <= n < 2 ^ 53)%Z ->
  parseDuration (formatTime n) = Fin n.
Proof.
  intros [Hn _]. unfold formatTime.
  rewrite !Z.rem_mod_nonneg by lia.
  set (h := (n / 3600)%Z). set (m := (n mod 3600 / 60)%Z).
  set (s := (n mod 60)%Z).
  assert (Hm : (0 <= m)%Z) by (apply Z.div_pos; [apply Z.mod_pos_bound|]; lia).
  assert (Hs : (0 <= s)%Z) by (apply Z.mod_pos_bound; lia).
  assert (Hh : (0 <= h)%Z) by (apply Z.div_pos; lia).
  destruct (toString_nonneg h Hh) as (Ah & Nh & Vh).
  destruct (toString_nonneg m Hm) as (Am & Nm & Vm).
  destruct (toString_nonneg s Hs) as (As & Ns & Vs).
  destruct (padStart2_digits _ Am Nm) as (Am2 & Nm2 & Vm2).
  destruct (padStart2_digits _ As Ns) as (As2 & Ns2 & Vs2).
  assert (Hsum : (h * 3600 + m * 60 + s = n)%Z).
  { unfold h, m, s.
    pose proof (Z.div_mod n 3600 ltac:(lia)).
    pose proof (Z.div_mod (n mod 3600) 60 ltac:(lia)).
    assert ((n mod 3600) mod 60 = n mod 60)%Z
      by (apply Z.mod_mod_divide; now exists 60%Z).
    lia. }
  unfold parseDuration. destruct (Z.ltb_spec 0 h) as [Hpos|Hzero].
  - rewrite split_digits_colon by assumption.
    rewrite split_digits_colon by assumption.
    rewrite split_digits by assumption.
    rewrite !parseInt_digits by assumption.
    rewrite Vh, Vm2, Vm, Vs2, Vs. simpl. now rewrite Hsum.
  - rewrite split_digits_colon by assumption.
    rewrite split_digits by assumption.
    rewrite !parseInt_digits by assumption.
    rewrite Vm, Vs2, Vs. simpl. f_equal. lia.
Qed.

End Durations.

Section IsoDurations.
Import JsNumber JsText TimeFormat Iso8601.

Lemma spanDigits_digits (ds : string) (c : ascii) (rest : string) :
  allDigits ds = true -> digitOf c = None ->
  spanDigits (String.append ds (String c rest)) = (ds, String c rest).
Proof.
  intros Hd Hc. induction ds as [|d ds IH]; simpl.
  - now rewrite Hc.
  - simpl in Hd. destruct (digitOf d); [|discriminate]. now rewrite IH.
Qed.

Lemma group_hit (letter : ascii) (v : Z) (rest : string) :
  (0 <= v)%Z -> digitOf letter = None ->
  group letter (String.append (toString v) (String letter rest))
  = (Some (toString v), rest).
Proof.
  intros Hv Hl. destruct (toString_nonneg v Hv) as (Ha & Hne & _).
  unfold group. rewrite spanDigits_digits by assumption.
  destruct (toString v); [now destruct Hne|]. now rewrite N.eqb_refl.
Qed.

Lemma group_miss (letter other : ascii) (v : Z) (rest : string) :
  (0 <= v)%Z -> digitOf other = None -> code other <> code letter ->
  group letter (String.append (toString v) (String other rest))
  = (None, String.append (toString v) (String other rest)).
Proof.
  intros Hv Ho Hne. destruct (toString_nonneg v Hv) as (Ha & Hn & _).
  unfold group. rewrite spanDigits_digits by assumption.
  destruct (toString v); [reflexivity|].
  destruct (N.eqb_spec (code other) (code letter)); [contradiction|].
  reflexivity.
Qed.

Lemma parseInt_toString (v : Z) : (0 <= v)%Z -> parseInt (toString v) = Fin v.
Proof.
  intro Hv. destruct (toString_nonneg v Hv) as (Ha & Hn & Hval).
  now rewrite parseInt_digits, Hval.
Qed.

Lemma orZero_toString (v : Z) :
  (0 <= v)%Z -> orZero (Some (toString v)) = toString v.
Proof.
  intro Hv. destruct (toString_nonneg v Hv) as (_ & Hn & _).
  unfold orZero. destruct (toString v); [now destruct Hn|reflexivity].
Qed.

Lemma field_then (x : option Z) (letter : ascii) (rest : string) :
  String.append (field x letter) rest
  = match x with
    | Some v => String.append (toString v) (String letter rest)
    | None => rest
    end.
Proof.
  destruct x as [v|]; [|reflexivity]. unfold field.
  now rewrite append_assoc.
Qed.

Lemma formatTime_fields (h m s : Z) :
  (0 <= h)%Z -> (0 <= m < 60)%Z -> (0 <= s < 60)%Z ->
  formatTime (3600 * h + 60 * m + s)
  = if (0 <? h)%Z
    then String.append (toString h)
           (String ":"
              (String.append (padStart2 (toString m))
                 (String ":" (padStart2 (toString s)))))
    else String.append (toString m) (String ":" (padStart2 (toString s))).
Proof.
  intros Hh Hm Hs. unfold formatTime.
  rewrite !Z.rem_mod_nonneg by lia.
  assert (E1 : ((3600 * h + 60 * m + s) / 3600 = h)%Z)
    by (symmetry; apply (Z.div_unique _ _ _ (60 * m + s)); lia).
  assert (E2 : ((3600 * h + 60 * m + s) mod 3600 = 60 * m + s)%Z)
    by (symmetry; apply (Z.mod_unique _ _ h); lia).
  assert (E3 : ((60 * m + s) / 60 = m)%Z)
    by (symmetry; apply (Z.div_unique _ _ _ s); lia).
  assert (E4 : ((3600 * h + 60 * m + s) mod 60 = s)%Z)
    by (symmetry; apply (Z.mod_unique _ _ (60 * h + m)); lia).
  now rewrite E1, E2, E3, E4.
Qed.

(** X25: on an ISO 8601 duration of less than a day in its usual form
    (minutes and seconds below 60, any of the three fields left out),
    formatDuration prints what formatTime prints for the same number of
    seconds. *)
Theorem formatDuration_agrees_with_formatTime (h m s : option Z) :
  (0 <= amount h)%Z -> (0 <= amount m < 60)%Z -> (0 <= amount s < 60)%Z ->
  (seconds h m s < 2 ^ 53)%Z ->
  formatDuration (duration h m s) = formatTime (seconds h m s).
Proof.
  intros Hh Hm Hs _. unfold seconds.
  rewrite formatTime_fields by assumption.
  unfold formatDuration, duration.
  change (afterPT (String.append "PT" ?r)) with (Some r).
  rewrite !field_then.
  assert (HH : digitOf "H" = None) by reflexivity.
  assert (HM : digitOf "M" = None) by reflexivity.
  assert (HS : digitOf "S" = None) by reflexivity.
  assert (Hzero : parseInt "0" = Fin 0) by reflexivity.
  assert (Hnone : forall letter, group letter EmptyString = (None, EmptyString))
    by reflexivity.
  destruct Hm as [Hm _], Hs as [Hs _].
  destruct h as [h|], m as [m|], s as [s|]; cbn [amount field] in *;
    repeat first
      [ rewrite group_hit by assumption
      | rewrite (group_miss "H" "M") by (auto; discriminate)
      | rewrite (group_miss "H" "S") by (auto; discriminate)
      | rewrite (group_miss "M" "S") by (auto; discriminate)
      | rewrite Hnone
      | progress cbv beta iota ];
    rewrite ?orZero_toString by assumption; cbn [orZero];
    rewrite ?parseInt_toString by assumption;
    rewrite ?Hzero; cbn [positive show]; reflexivity.
Qed.

End IsoDurations.

Section UnknownDurations.
Import JsNumber JsText TimeFormat.

Lemma afterPT_none_iff (s : string) :
  afterPT s = None <-> Resolver.includes s "PT" = false.
Proof.
  induction s as [|c r IH]; [now split|].
  cbn [afterPT Resolver.includes prefix].
  change 80%N with (code "P"). change 84%N with (code "T").
  destruct (ascii_dec "P" c) as [<-|Hc].
  - rewrite N.eqb_refl. destruct r as [|d r']; [now split|].
    cbn [prefix]. destruct (ascii_dec "T" d) as [<-|Hd].
    + rewrite N.eqb_refl. destruct r'; now split.
    + cbn [orb]. destruct (N.eqb_spec (code d) (code "T")) as [E|_]; [|exact IH].
      apply (f_equal ascii_of_N) in E. unfold code in E.
      rewrite !ascii_N_embedding in E. now destruct Hd.
  - destruct (N.eqb_spec (code c) (code "P")) as [E|_]; [|exact IH].
    apply (f_equal ascii_of_N) in E. unfold code in E.
    rewrite !ascii_N_embedding in E. now destruct Hc.
Qed.

Lemma with_colon_not_unknown (x y : string) :
  String.append x (String ":" y) <> "Unknown".
Proof.
  intro E. apply (f_equal (fun s => Resolver.includes s ":")) in E.
  rewrite (proj2 (includes_iff _ _)) in E; [discriminate|].
  now exists x, y.
Qed.

(** X26: formatDuration answers "Unknown" exactly for the strings in which
    "PT" does not occur: the placeholder "Unknown" of the search, but also
    every duration of a day or more, which ISO 8601 writes "P1DT..."; any
    other string gives a text with a colon, whatever surrounds the "PT". *)
Theorem formatDuration_unknown (duration : string) :
  formatDuration duration = "Unknown"
  <-> Resolver.includes duration "PT" = false.
Proof.
  rewrite <- afterPT_none_iff. unfold formatDuration.
  destruct (afterPT duration) as [r|]; [|now split].
  split; [|discriminate]. intro E. exfalso. revert E.
  destruct (group "H" r) as [g1 r1], (group "M" r1) as [g2 r2],
    (group "S" r2) as [g3 r3].
  destruct (positive (parseInt (orZero g1))); apply with_colon_not_unknown.
Qed.

End UnknownDurations.

Lemma parseDuration_formatTime_witness :
  TimeFormat.parseDuration (TimeFormat.formatTime 3725) = JsNumber.Fin 3725.
Proof. apply (parseDuration_formatTime 3725). lia. Defined.

Lemma formatDuration_agrees_with_formatTime_witness :
  TimeFormat.formatDuration "PT1H5S" = TimeFormat.formatTime 3605.
Proof.
  apply (formatDuration_agrees_with_formatTime (Some 1%Z) None (Some 5%Z));
    cbv [Iso8601.seconds Iso8601.amount]; lia.
Defined.

(* ================================================================== *)
(** * The queue of the interactive player *)

Section QueueInterface.
Import QueueUI.

Variable initialQueue : list QueueItem.

Lemma itemAt_inside (items : list QueueItem) (i : Z) :
  (0 <= i < Z.of_nat (length items))%Z ->
  exists song, itemAt items i = Some song.
Proof.
  intros Hi. unfold itemAt. destruct (Z.ltb_spec i 0); [lia|].
  destruct (nth_error items (Z.to_nat i)) as [song|] eqn:E;
    [now exists song|].
  apply nth_error_None in E. lia.
Qed.

Lemma itemAt_outside (items : list QueueItem) :
  itemAt items (-1) = None.
Proof. reflexivity. Qed.

Lemma playNextSong_consistent (s : ui) :
  consistent initialQueue s ->
  exists s', playNextSong s = (s', Normal tt)
             /\ consistent initialQueue s'
             /\ queue s' = queue s
             /\ currentSongIndex s'
                = (if (currentSongIndex s <? Z.of_nat (length (queue s)) - 1)%Z
                   then currentSongIndex s + 1 else -1)%Z.
Proof.
  intros (Hi & Hq & Hb & Hs). unfold playNextSong.
  destruct (Z.ltb_spec (currentSongIndex s) (Z.of_nat (length (queue s)) - 1))
    as [Hlt|Hge].
  - destruct (itemAt_inside (queue s) (currentSongIndex s + 1) ltac:(lia))
      as (song & Hsong).
    rewrite Hsong. eexists. split; [reflexivity|].
    split; [|split; reflexivity].
    unfold consistent, updateQueueDisplay; cbn [queue currentSongIndex
      statusBox queueBox]. rewrite Hsong.
    repeat split; try lia; auto.
  - eexists. split; [reflexivity|]. split; [|split; reflexivity].
    unfold consistent, updateQueueDisplay; cbn [queue currentSongIndex
      statusBox queueBox]. rewrite itemAt_outside.
    repeat split; try lia; auto.
Qed.

Lemma itemAt_app (items more : list QueueItem) (i : Z) :
  (i < Z.of_nat (length items))%Z ->
  itemAt (items ++ more) i = itemAt items i.
Proof.
  intro Hi. unfold itemAt. destruct (Z.ltb_spec i 0); [reflexivity|].
  apply nth_error_app1. lia.
Qed.

Lemma addSong_consistent (s : ui) :
  consistent initialQueue s ->
  exists s',
    addSong (String.append "Song "
               (JsText.toString (Z.of_nat (length (queue s)) + 1))) s
    = (s', Normal tt)
    /\ consistent initialQueue s'
    /\ length (queue s') = S (length (queue s)).
Proof.
  intros (Hi & (added & Hq & Hadded) & Hb & Hs).
  set (title := String.append "Song " _).
  set (pushed := updateQueueDisplay
                   (mkUi (queue s ++ [mkItem EmptyString title EmptyString
                                        false])
                      (currentSongIndex s) (statusBox s) (queueBox s))).
  assert (Hp : consistent initialQueue pushed).
  { unfold consistent, pushed, updateQueueDisplay;
      cbn [queue currentSongIndex statusBox queueBox].
    rewrite length_app. cbn [length]. rewrite itemAt_app by lia.
    repeat split; try lia; auto.
    exists (added ++ [mkItem EmptyString title EmptyString false]).
    split; [now rewrite Hq, app_assoc|].
    intros j item Hj.
    destruct (Nat.lt_ge_cases j (length added)) as [Hlt|Hge].
    - rewrite nth_error_app1 in Hj by assumption. now apply Hadded.
    - rewrite nth_error_app2 in Hj by assumption.
      destruct (j - length added) as [|k] eqn:Hk;
        [|destruct k; discriminate].
      injection Hj as <-. unfold title. rewrite Hq, length_app.
      do 4 f_equal. lia. }
  unfold addSong. fold title. fold pushed.
  destruct ((currentSongIndex pushed =? -1)%Z
            && (length (queue pushed) =? 1)%nat)%bool.
  - destruct (playNextSong_consistent pushed Hp) as (s' & E & Hc & Hq' & _).
    exists s'. split; [exact E|]. split; [exact Hc|].
    rewrite Hq'. unfold pushed; cbn [queue updateQueueDisplay].
    rewrite length_app. cbn [length]. lia.
  - exists pushed. split; [reflexivity|]. split; [exact Hp|].
    unfold pushed; cbn [queue updateQueueDisplay].
    rewrite length_app. cbn [length]. lia.
Qed.

Lemma initial_consistent :
  consistent initialQueue (interactivePlayUI initialQueue).
Proof.
  unfold consistent, interactivePlayUI;
    cbn [queue currentSongIndex statusBox queueBox itemAt Z.ltb Z.compare].
  repeat split; try lia; auto.
  exists []. split; [now rewrite app_nil_r|]. intros [|j] item; discriminate.
Qed.

Lemma press_consistent (k : key) (s : ui) :
  consistent initialQueue s ->
  (forall s' message, press k s <> Crashed s' message)
  /\ consistent initialQueue (stateOf (press k s)).
Proof.
  intro Hc. destruct k; cbn [press].
  - destruct (addSong_consistent s Hc) as (s' & -> & Hc' & _).
    split; [discriminate|exact Hc'].
  - destruct (playNextSong_consistent s Hc) as (s' & -> & Hc' & _).
    split; [discriminate|exact Hc'].
  - split; [discriminate|exact Hc].
Qed.

(** X27: whatever keys are pressed, no key handler of the interactive
    queue throws, and between two keys the interface is consistent: the
    index of the current song is -1 or a position of the queue; the queue
    is the initial one followed by the songs added, named "Song k" after
    their position k; the queue box shows this queue with the marker on
    the current song; the status box names the current song when there is
    one and says idle or finished otherwise. *)
Theorem queue_interface_stays_consistent (keys : list key) :
  (forall s message,
     pressAll keys (interactivePlayUI initialQueue) <> Crashed s message)
  /\ consistent initialQueue
       (stateOf (pressAll keys (interactivePlayUI initialQueue))).
Proof.
  generalize (interactivePlayUI initialQueue) initial_consistent.
  induction keys as [|k keys IH]; intros s Hc.
  - split; [discriminate|exact Hc].
  - cbn [pressAll]. destruct (press_consistent k s Hc) as [Hn Hc'].
    destruct (press k s) as [s1|s1 code|s1 message].
    + apply IH. exact Hc'.
    + split; [discriminate|exact Hc'].
    + now destruct (Hn s1 message).
Qed.

Lemma p_steps (j : nat) :
  forall s,
    consistent initialQueue s ->
    (currentSongIndex s + Z.of_nat j < Z.of_nat (length (queue s)))%Z ->
    exists s',
      pressAll (repeat KeyP j) s = Running s'
      /\ consistent initialQueue s'
      /\ queue s' = queue s
      /\ currentSongIndex s' = (currentSongIndex s + Z.of_nat j)%Z.
Proof.
  induction j as [|j IH]; intros s Hc Hj.
  - exists s. split; [reflexivity|]. split; [exact Hc|].
    split; [reflexivity|lia].
  - cbn [repeat pressAll press].
    destruct (playNextSong_consistent s Hc) as (s1 & -> & Hc1 & Hq1 & Hi1).
    cbn [settle].
    destruct (Z.ltb_spec (currentSongIndex s)
                (Z.of_nat (length (queue s)) - 1)); [|lia].
    destruct (IH s1 Hc1 ltac:(rewrite Hq1, Hi1; lia))
      as (s' & E & Hc' & Hq' & Hi').
    exists s'. split; [exact E|]. split; [exact Hc'|].
    split; [congruence|lia].
Qed.

(** X28: the key "p" walks through the queue and wraps: from the start,
    j presses (j up to the length of the queue) leave the j-th song
    current, and one press more than there are songs ends on "Queue
    finished" with no current song, from where the walk starts again at
    the first song. *)
Theorem p_walks_the_queue_and_wraps (j : nat) :
  j <= length initialQueue ->
  (exists s,
     pressAll (repeat KeyP j) (interactivePlayUI initialQueue) = Running s
     /\ queue s = initialQueue
     /\ currentSongIndex s = (Z.of_nat j - 1)%Z)
  /\ (exists s,
        pressAll (repeat KeyP (S (length initialQueue)))
                 (interactivePlayUI initialQueue) = Running s
        /\ queue s = initialQueue
        /\ currentSongIndex s = (-1)%Z
        /\ statusBox s = QueueFinished
        /\ queueBox s = queueBox (interactivePlayUI initialQueue)).
Proof.
  intro Hj. split.
  - destruct (p_steps j (interactivePlayUI initialQueue) initial_consistent)
      as (s & E & _ & Hq & Hi);
      [cbn [queue currentSongIndex interactivePlayUI]; lia|].
    exists s. split; [exact E|]. split; [exact Hq|].
    rewrite Hi. cbn [currentSongIndex interactivePlayUI]. lia.
  - destruct (p_steps (length initialQueue) (interactivePlayUI initialQueue)
                initial_consistent)
      as (s & E & Hc & Hq & Hi);
      [cbn [queue currentSongIndex interactivePlayUI]; lia|].
    replace (S (length initialQueue)) with (length initialQueue + 1) by lia.
    rewrite repeat_app.
    assert (Happ : forall a b s0 s1,
               pressAll a s0 = Running s1 ->
               pressAll (a ++ b) s0 = pressAll b s1).
    { induction a as [|k a IHa]; intros b s0 s1 Ea; cbn [pressAll app] in *.
      - now injection Ea as ->.
      - destruct (press k s0); try discriminate. now apply IHa. }
    rewrite (Happ _ _ _ _ E). cbn [repeat pressAll press].
    unfold playNextSong. cbn [interactivePlayUI queue currentSongIndex] in *.
    rewrite Hq, Hi.
    destruct (Z.ltb_spec (-1 + Z.of_nat (length initialQueue))
                (Z.of_nat (length initialQueue) - 1)); [lia|].
    cbn [settle]. eexists. split; [reflexivity|].
    cbn [queue currentSongIndex statusBox queueBox updateQueueDisplay].
    now repeat split.
Qed.

(** X29: the key "n" appends a song and starts it only when it is the
    first song of an idle interface; with a queue that is not empty it
    changes neither the current song nor the status, so that a song added
    after the queue has finished is played only once "p" has gone through
    the queue again. *)
Theorem n_only_starts_the_first_song (s : ui) :
  consistent initialQueue s ->
  exists s' added,
    press KeyN s = Running s'
    /\ queue s' = queue s ++ [added]
    /\ (queue s <> [] ->
        currentSongIndex s' = currentSongIndex s
        /\ statusBox s' = statusBox s)
    /\ (queue s = [] ->
        currentSongIndex s' = 0%Z /\ statusBox s' = Playing "Song 1").
Proof.
  intros (Hi & _ & _ & _). cbn [press]. unfold addSong.
  cbn [updateQueueDisplay queue currentSongIndex statusBox queueBox].
  rewrite length_app. cbn [length].
  destruct (queue s) as [|x l] eqn:Hq.
  - cbn [length] in Hi. assert (E : currentSongIndex s = (-1)%Z) by lia.
    rewrite E. cbn [Z.eqb Pos.eqb Nat.add Nat.eqb andb length].
    unfold playNextSong.
    cbn [queue currentSongIndex statusBox queueBox length app Z.of_nat
         Z.ltb Z.compare Z.add Z.sub Z.opp Pos.of_succ_nat Z.pos_sub
         itemAt Z.to_nat nth_error q_title settle updateQueueDisplay].
    eexists _, _. split; [reflexivity|].
    cbn [updateQueueDisplay queue currentSongIndex statusBox].
    split; [reflexivity|]. split; [intro Hne; now destruct Hne|].
    intros _. now split.
  - replace (length (x :: l) + 1 =? 1)%nat with false
      by (symmetry; apply Nat.eqb_neq; cbn [length]; lia).
    rewrite andb_false_r. cbn [settle].
    eexists _, _. split; [reflexivity|].
    cbn [queue currentSongIndex statusBox].
    split; [reflexivity|]. split; [intros _; now split|discriminate].
Qed.

End QueueInterface.

Lemma p_walks_the_queue_and_wraps_witness :
  exists s,
    QueueUI.pressAll [QueueUI.KeyP; QueueUI.KeyP]
      (QueueUI.interactivePlayUI [QueueSamples.intro; QueueSamples.outro])
    = QueueUI.Running s
    /\ QueueUI.queue s = [QueueSamples.intro; QueueSamples.outro]
    /\ QueueUI.currentSongIndex s = 1%Z.
Proof.
  apply (proj1 (p_walks_the_queue_and_wraps
                  [QueueSamples.intro; QueueSamples.outro] 2
                  ltac:(simpl; lia))).
Defined.

Lemma n_only_starts_the_first_song_witness :
  exists s' added,
    QueueUI.press QueueUI.KeyN (QueueUI.interactivePlayUI [])
    = QueueUI.Running s'
    /\ QueueUI.queue s' = [] ++ [added]
    /\ ([] <> @nil QueueUI.QueueItem ->
        QueueUI.currentSongIndex s' = (-1)%Z
        /\ QueueUI.statusBox s' = QueueUI.Idle)
    /\ (@nil QueueUI.QueueItem = [] ->
        QueueUI.currentSongIndex s' = 0%Z
        /\ QueueUI.statusBox s' = QueueUI.Playing "Song 1").
Proof.
  apply (n_only_starts_the_first_song [] (QueueUI.interactivePlayUI [])).
  unfold QueueUI.consistent; simpl.
  split; [lia|]. split; [|split; [reflexivity|now left]].
  exists []. split; [reflexivity|]. intros [|j] item; discriminate.
Defined.

(* ================================================================== *)
(** * playAudioStream *)

Section PlayAudioStream.
Import Runtime AudioStream.

Context {W child : Type} (H : Host W child).
Variable input : W -> W * completion string.

Lemma unreserved_is_safe (c : ascii) :
  unreserved c = true -> breaksQuotes c = false.
Proof.
  destruct c as [[] [] [] [] [] [] [] []]; vm_compute;
    intros; congruence.
Qed.

Lemma hexChar_is_safe (c : ascii) :
  breaksQuotes (hexChar (JsNumber.code c / 16)) = false
  /\ breaksQuotes (hexChar (JsNumber.code c mod 16)) = false.
Proof. destruct c as [[] [] [] [] [] [] [] []]; vm_compute; now split. Qed.

Lemma encodeURIComponent_is_safe (s : string) :
  noneOf breaksQuotes (encodeURIComponent s) = true.
Proof.
  induction s as [|c s IH]; [reflexivity|]. cbn [encodeURIComponent].
  destruct (unreserved c) eqn:Hc.
  - cbn [noneOf]. now rewrite (unreserved_is_safe c Hc), IH.
  - destruct (hexChar_is_safe c) as [H1 H2].
    cbn [noneOf]. now rewrite H1, H2, IH.
Qed.

Lemma spawnedBy_app (a b : list (event child)) :
  spawnedBy (a ++ b) = spawnedBy a ++ spawnedBy b.
Proof.
  induction a as [|[n|c|[m|m| |id|c ar io|c sg]] a IH]; simpl;
    now rewrite ?IH.
Qed.

Lemma executed_app (a b : list (event child)) :
  executed (a ++ b) = executed a ++ executed b.
Proof. induction a as [|[n|c|e] a IH]; simpl; now rewrite ?IH. Qed.

Lemma spawns_app (a b : list (effect child)) :
  spawns (a ++ b) = spawns a ++ spawns b.
Proof.
  induction a as [|[m|m| |id|c ar io|c sg] a IH]; simpl; now rewrite ?IH.
Qed.

Lemma spawnedBy_Did (e : list (effect child)) :
  spawnedBy (map Did e) = spawns e.
Proof.
  induction e as [|[m|m| |id|c ar io|c sg] e IH]; simpl; now rewrite ?IH.
Qed.

Lemma executed_Did (e : list (effect child)) : executed (map Did e) = [].
Proof. induction e as [|x e IH]; simpl; auto. Qed.

Lemma dispatch_spawns_nothing (evs : list childEvent) :
  spawns (snd (@Play.dispatch child evs)) = [].
Proof.
  unfold Play.dispatch.
  assert (Hgen : forall acc,
             spawns (snd acc) = [] ->
             spawns (snd (fold_left (@Play.listener child) evs acc)) = []).
  { induction evs as [|e evs IH]; intros acc Hacc; [exact Hacc|].
    cbn [fold_left]. apply IH. destruct acc as [st out].
    unfold Play.listener. cbn [snd] in *.
    destruct e; destruct (Play.finished st); cbn [snd];
      rewrite ?spawns_app, ?Hacc; reflexivity. }
  apply Hgen. reflexivity.
Qed.

Ltac read_trace :=
  cbv zeta;
  repeat (rewrite ?spawnedBy_app, ?executed_app, ?spawns_app;
          cbn [spawnedBy executed spawns app map]);
  rewrite ?spawnedBy_Did, ?executed_Did, ?dispatch_spawns_nothing,
    ?app_nil_r.

(** X30: playAudioStream.  It never rejects.  It answers true exactly
    when a player was found and its spawn returned a process, before
    anything is known of the playback.  A command is handed to [exec]
    only in a run that answers false, and it is the opener of the
    platform followed by the search URL between double quotes, where the
    encoded title holds no double quote, dollar, backquote, backslash,
    space or newline.  The processes it spawns are those playAndAwait
    spawns for the same URL on the same host. *)
Theorem playAudioStream_contract (url title : string) (w : W) :
  let ev := snd (fst (playAudioStream H input url title w)) in
  let r := snd (playAudioStream H input url title w) in
  (forall message, r <> Throw message)
  /\ (r = Normal true <->
      exists w1 e1 player w2 c,
        Ytdlp.detectAudioPlayer H w = (w1, e1, Normal (Some player))
        /\ (let '(cmd, args, io) := Play.spawnRequest player url in
            spawn H w1 cmd args io = (w2, inl c)))
  /\ (forall command,
        In command (executed ev) ->
        r = Normal false
        /\ exists p encoded,
             command
             = String.append (openCmd p)
                 (String.append " "
                    (String quote
                       (String.append
                          (String.append
                             "https://music.youtube.com/search?q=" encoded)
                          (String quote EmptyString))))
             /\ encoded = encodeURIComponent title
             /\ noneOf breaksQuotes encoded = true)
  /\ spawnedBy ev = spawns (effectsOf (Play.playAndAwait H url title w)).
Proof.
  intros ev r. unfold ev, r, playAudioStream. clear ev r.
  pose proof (neverThrows_detectAudioPlayer H w) as Hnt.
  destruct (Ytdlp.detectAudioPlayer H w) as [[w1 e1] [[player|]|m|]] eqn:Hd;
    cbn [snd] in Hnt.
  - (* a player *)
    unfold Play.spawnChild.
    destruct (Play.spawnRequest player url) as [[cmd args] io] eqn:Hrq.
    destruct (spawn H w1 cmd args io) as [w2 [c|err]] eqn:Hs;
      cbn [fst snd].
    + split; [discriminate|]. split; [|split].
      * split; [intros _|reflexivity].
        exists w1, e1, player, w2, c. rewrite Hrq. now split.
      * intros command Hin. exfalso. revert Hin.
        read_trace. now cbn.
      * destruct (events H w2 c) as [w3 evs] eqn:He.
        rewrite (playAndAwait_spawned H url title player w w1 w2 w3 e1 c evs
                   Hd ltac:(now rewrite Hrq) He).
        unfold effectsOf. cbn [fst snd]. rewrite Hrq. now read_trace.
    + split; [discriminate|]. split; [|split].
      * split; [discriminate|].
        intros (w1' & e1' & player' & w2' & c' & [= <- <- <-] & Hs').
        rewrite Hrq, Hs in Hs'. discriminate.
      * intros command Hin. exfalso. revert Hin.
        read_trace. now cbn.
      * rewrite (playAndAwait_spawn_throws H url title player err w w1 w2 e1
                   Hd ltac:(now rewrite Hrq)).
        unfold effectsOf. cbn [fst snd]. rewrite Hrq. now read_trace.
  - (* no player *)
    assert (Hpa : spawns (effectsOf (Play.playAndAwait H url title w))
                  = spawns e1).
    { rewrite (playAndAwait_no_player H url title w w1 e1 Hd).
      unfold effectsOf. cbn [fst snd]. now read_trace. }
    rewrite Hpa.
    assert (Hno : forall w2 c' player',
               ~ (w1, e1, @Normal (option string) None)
                 = (w2, c', Normal (Some player'))) by (intros; discriminate).
    destruct (input w1) as [w2 [answer|message|]]; cbn [fst snd].
    + destruct ((answer =? "y") || (answer =? "yes"))%bool; cbn [fst snd].
      * split; [discriminate|]. split; [|split].
        -- split; [discriminate|].
           intros (? & ? & ? & ? & ? & [=] & _).
        -- read_trace. intros command [<-|[]].
           split; [reflexivity|].
           exists (os_platform H w2), (encodeURIComponent title).
           split; [reflexivity|]. split; [reflexivity|].
           apply encodeURIComponent_is_safe.
        -- now read_trace.
      * split; [discriminate|]. split; [|split].
        -- split; [discriminate|].
           intros (? & ? & ? & ? & ? & [=] & _).
        -- read_trace. now cbn.
        -- now read_trace.
    + split; [discriminate|]. split; [|split].
      * split; [discriminate|]. intros (? & ? & ? & ? & ? & [=] & _).
      * read_trace. now cbn.
      * now read_trace.
    + split; [discriminate|]. split; [|split].
      * split; [discriminate|]. intros (? & ? & ? & ? & ? & [=] & _).
      * read_trace. now cbn.
      * now read_trace.
  - now destruct (Hnt m).
  - (* discovery never settles *)
    cbn [fst snd]. split; [discriminate|]. split; [|split].
    + split; [discriminate|]. intros (? & ? & ? & ? & ? & [=] & _).
    + read_trace. intros command [].
    + unfold Play.playAndAwait, tryCatch.
      rewrite (bind_pending _ _ _ _ _ Hd). unfold effectsOf. cbn [fst snd].
      now read_trace.
Qed.

End PlayAudioStream.

Lemma playAudioStream_contract_witness :
  snd (AudioStream.playAudioStream
         (Samples.host Samples.nothing Samples.quiet Playlists.Unreadable)
         AudioStreamSamples.yes "https://cdn/a" "So What?" 0)
  = Normal false
  /\ exists p encoded,
       AudioStream.openCommand Runtime.Linux "So What?"
       = String.append (AudioStream.openCmd p)
           (String.append " "
              (String AudioStream.quote
                 (String.append
                    (String.append "https://music.youtube.com/search?q="
                       encoded)
                    (String AudioStream.quote EmptyString))))
       /\ encoded = AudioStream.encodeURIComponent "So What?"
       /\ AudioStream.noneOf AudioStream.breaksQuotes encoded = true.
Proof.
  apply (proj1 (proj2 (proj2 (playAudioStream_contract
                                (Samples.host Samples.nothing Samples.quiet
                                   Playlists.Unreadable)
                                AudioStreamSamples.yes
                                "https://cdn/a" "So What?" 0)))
           (AudioStream.openCommand Runtime.Linux "So What?")).
  vm_compute. left. reflexivity.
Defined.
